(** * Zotero.Server: the embedded loopback HTTP server

    A shallow embedding of [Zotero.Server] (the connection handler
    [Zotero.Server.DataListener], the response builder, the dispatcher
    [_processEndpoint], the multipart decoder and [decodeQueryString]),
    and the properties of its specification checked against it.

    JavaScript strings are sequences of UTF-16 code units; they are
    modelled as [list N].  Objects used as dictionaries are [gmap]s from
    property name to value. *)

From Stdlib Require Import ZArith NArith List String Ascii Lia Bool.
From Stdlib Require Import DecimalZ.
From stdpp Require Import base option list gmap.

Local Open Scope Z_scope.
Local Open Scope list_scope.

(** ** Strings *)

Abbreviation jsstring := (list N).

Definition js (s : string) : jsstring :=
  map N_of_ascii (list_ascii_of_string s).

Definition CR : N := 13.
Definition LF : N := 10.
Definition CRLF : jsstring := [CR; LF].

Definition str_eqb (a b : jsstring) : bool := bool_decide (a = b).

(** [s.length] *)
Definition len (s : jsstring) : Z := Z.of_nat (length s).

(** [s] starts with [p]. *)
Fixpoint is_prefix (p s : jsstring) : bool :=
  match p, s with
  | [], _ => true
  | a :: p', b :: s' => (a =? b)%N && is_prefix p' s'
  | _ :: _, [] => false
  end.

(** Position of the first occurrence of [p] in [s]. *)
Fixpoint find_sub (p s : jsstring) : option nat :=
  if is_prefix p s then Some 0%nat
  else match s with
       | [] => None
       | _ :: s' => S <$> find_sub p s'
       end.

(** [s.indexOf(p)]: the index of the first occurrence, or -1. *)
Definition indexOf (s p : jsstring) : Z :=
  match find_sub p s with
  | Some i => Z.of_nat i
  | None => -1
  end.

(** [s[i]]: the code unit at index [i], [None] for [undefined]. *)
Definition charAt (s : jsstring) (i : Z) : option N :=
  if i <? 0 then None else s !! Z.to_nat i.

(** [s.substr(start, length)]; [None] is an omitted length. *)
Definition substr (s : jsstring) (start : Z) (length : option Z) : jsstring :=
  let size := len s in
  let from := if start <? 0 then Z.max (size + start) 0 else start in
  let n := match length with
           | None => size - from
           | Some l => Z.min (Z.max l 0) (size - from)
           end in
  if n <=? 0 then [] else take (Z.to_nat n) (drop (Z.to_nat from) s).

(** [s.slice(start, end)] on strings and arrays; [None] is an omitted end. *)
Definition slice {A} (s : list A) (start : Z) (end_ : option Z) : list A :=
  let size := Z.of_nat (length s) in
  let clamp i := if i <? 0 then Z.max (size + i) 0 else Z.min i size in
  let from := clamp start in
  let to := match end_ with None => size | Some e => clamp e end in
  take (Z.to_nat (Z.max (to - from) 0)) (drop (Z.to_nat from) s).

(** White space and line terminators: what [trim] strips and what the
    regular expression class [\s] contains. *)
Definition is_space (c : N) : bool :=
  match c with
  | 9 | 10 | 11 | 12 | 13 | 32 | 160 | 5760 | 8232 | 8233 | 8239 | 8287
  | 12288 | 65279 => true
  | _ => (8192 <=? c)%N && (c <=? 8202)%N
  end%N.

Fixpoint drop_while (p : N -> bool) (s : jsstring) : jsstring :=
  match s with
  | c :: s' => if p c then drop_while p s' else s
  | [] => []
  end.

(** [s.trim()] *)
Definition trim (s : jsstring) : jsstring :=
  rev (drop_while is_space (rev (drop_while is_space s))).

(** [s.split(sep)] for a string separator. *)
Fixpoint split_go (sep s cur : jsstring) (skip : nat) : list jsstring :=
  match s with
  | [] => [rev cur]
  | c :: s' =>
      match skip with
      | S k => split_go sep s' cur k
      | O => if is_prefix sep s
             then rev cur :: split_go sep s' [] (length sep - 1)
             else split_go sep s' (c :: cur) 0
      end
  end.

Definition split_str (s sep : jsstring) : list jsstring :=
  match sep with
  | [] => (fun c => [c]) <$> s
  | _ => split_go sep s [] 0
  end.

(** Decimal rendering of an integer, as string concatenation does. *)
Fixpoint uint_digits (u : Decimal.uint) : jsstring :=
  match u with
  | Decimal.Nil => []
  | Decimal.D0 u => 48%N :: uint_digits u
  | Decimal.D1 u => 49%N :: uint_digits u
  | Decimal.D2 u => 50%N :: uint_digits u
  | Decimal.D3 u => 51%N :: uint_digits u
  | Decimal.D4 u => 52%N :: uint_digits u
  | Decimal.D5 u => 53%N :: uint_digits u
  | Decimal.D6 u => 54%N :: uint_digits u
  | Decimal.D7 u => 55%N :: uint_digits u
  | Decimal.D8 u => 56%N :: uint_digits u
  | Decimal.D9 u => 57%N :: uint_digits u
  end.

Definition number_to_string (z : Z) : jsstring :=
  match Z.to_int z with
  | Decimal.Pos u => uint_digits u
  | Decimal.Neg u => 45%N :: uint_digits u
  end.

Definition is_digit (c : N) : bool := (48 <=? c)%N && (c <=? 57)%N.

(** [parseInt] on a string of decimal digits. *)
Definition parse_digits (s : jsstring) : Z :=
  fold_left (fun acc c => 10 * acc + (Z.of_N c - 48)) s 0.

(** ** Regular expressions

    The fragment of the regular-expression language the server uses,
    with the backtracking semantics of [RegExp.prototype.exec]: greedy
    repetition, ordered alternation, numbered capture groups.  Repetition
    is only ever applied to a single character class. *)

Inductive regex :=
| Str (l : jsstring)            (* a literal *)
| Set_ (p : N -> bool)          (* one character of a class *)
| Star (p : N -> bool)          (* [c*], greedy *)
| Plus (p : N -> bool)          (* [c+], greedy *)
| Seq (r1 r2 : regex)
| Alt (r1 r2 : regex)           (* [r1|r2] *)
| Opt (r : regex)               (* [(?:r)?], greedy *)
| Grp (n : nat) (r : regex)     (* capture group number [n] *)
| Bol                           (* [^] *)
| Eol.                          (* [$] *)

Infix ">>" := Seq (at level 60, right associativity).

Definition captures := list (nat * jsstring).

(** Case folding of the [i] flag.  Every literal of the server's
    expressions is ASCII, and no character outside ASCII folds to an ASCII
    one, so folding the ASCII letters is all that can make a match. *)
Definition canon (c : N) : N :=
  if ((97 <=? c) && (c <=? 122))%N then (c - 32)%N else c.

Definition chr_eq (icase : bool) (a b : N) : bool :=
  if icase then (canon a =? canon b)%N else (a =? b)%N.

Fixpoint strip_prefix (icase : bool) (p s : jsstring) : option jsstring :=
  match p, s with
  | [], _ => Some s
  | a :: p', b :: s' => if chr_eq icase a b then strip_prefix icase p' s' else None
  | _ :: _, [] => None
  end.

Section Matcher.
Context {R : Type}.
Variable icase : bool.
(** length of the whole subject string, to recognise its start *)
Variable size : nat.

(** Greedy repetition of a class, at least [min] times: the longest run
    first, then shorter ones. *)
Fixpoint rep (p : N -> bool) (min : nat) (s : jsstring)
    (k : jsstring -> option R) : option R :=
  let stop := match min with O => k s | S _ => None end in
  match s with
  | c :: s' =>
      if p c then
        match rep p (pred min) s' k with
        | Some r => Some r
        | None => stop
        end
      else stop
  | [] => stop
  end.

Fixpoint rmatch (r : regex) (s : jsstring) (c : captures)
    (k : jsstring -> captures -> option R) : option R :=
  match r with
  | Str l =>
      match strip_prefix icase l s with
      | Some s' => k s' c
      | None => None
      end
  | Set_ p =>
      match s with
      | a :: s' => if p a then k s' c else None
      | [] => None
      end
  | Star p => rep p 0 s (fun s' => k s' c)
  | Plus p => rep p 1 s (fun s' => k s' c)
  | Seq r1 r2 => rmatch r1 s c (fun s' c' => rmatch r2 s' c' k)
  | Alt r1 r2 =>
      match rmatch r1 s c k with
      | Some x => Some x
      | None => rmatch r2 s c k
      end
  | Opt r1 =>
      match rmatch r1 s c k with
      | Some x => Some x
      | None => k s c
      end
  | Grp n r1 =>
      rmatch r1 s c
        (fun s' c' => k s' ((n, take (length s - length s') s) :: c'))
  | Bol => if (length s =? size)%nat then k s c else None
  | Eol => match s with [] => k s c | _ :: _ => None end
  end.
End Matcher.

(** The result of [exec]: where the match starts, the matched text
    [m[0]] and the capture groups. *)
Record rmatch_result := {
  m_index : nat;
  m_text : jsstring;
  m_groups : captures;
}.

(** [m[n]]; [None] is [undefined], a group that took no part in the match. *)
Definition group (m : rmatch_result) (n : nat) : option jsstring :=
  snd <$> List.find (fun p => (fst p =? n)%nat) (m_groups m).

Fixpoint exec_from (icase : bool) (r : regex) (size : nat) (s : jsstring)
    (i : nat) : option rmatch_result :=
  match rmatch icase size r s []
          (fun s' c => Some {| m_index := i;
                               m_text := take (length s - length s') s;
                               m_groups := c |}) with
  | Some m => Some m
  | None =>
      match s with
      | [] => None
      | _ :: s' => exec_from icase r size s' (S i)
      end
  end.

(** [re.exec(s)] for an expression without the [g] and [y] flags: the
    leftmost match. *)
Definition exec (icase : bool) (r : regex) (s : jsstring) : option rmatch_result :=
  exec_from icase r (length s) s 0.

Definition in_range (lo hi : N) (c : N) : bool := ((lo <=? c) && (c <=? hi))%N.
Definition none_of (l : jsstring) (c : N) : bool := negb (bool_decide (c ∈ l)).
Definition one_of (l : jsstring) (c : N) : bool := bool_decide (c ∈ l).
(** [.]: anything but a line terminator *)
Definition dot (c : N) : bool := none_of [10; 13; 8232; 8233]%N c.

(** ** URI decoding and query strings *)

Definition hex_val (c : N) : option N :=
  if in_range 48 57 c then Some (c - 48)%N
  else if in_range 65 70 c then Some (c - 55)%N
  else if in_range 97 102 c then Some (c - 87)%N
  else None.

Inductive uri_token :=
| TChar (c : N)        (* a code unit standing for itself *)
| TByte (b : N).       (* an escape [%XX] *)

(** A percent sign must be followed by two hexadecimal digits. *)
Fixpoint uri_tokens (s : jsstring) : option (list uri_token) :=
  match s with
  | [] => Some []
  | c :: rest =>
      if (c =? 37)%N then
        match rest with
        | h :: l :: rest' =>
            match hex_val h, hex_val l with
            | Some a, Some b => cons (TByte (16 * a + b)%N) <$> uri_tokens rest'
            | _, _ => None
            end
        | _ => None
        end
      else cons (TChar c) <$> uri_tokens rest
  end.

Definition is_cont (b : N) : bool := (N.land b 192 =? 128)%N.
Definition cont_bits (b : N) : N := N.land b 63.

(** The UTF-16 code units of a code point. *)
Definition code_units (v : N) : jsstring :=
  if (v <? 65536)%N then [v]
  else [55296 + N.shiftr (v - 65536) 10; 56320 + N.land (v - 65536) 1023]%N.

Fixpoint uri_decode (ts : list uri_token) : option jsstring :=
  match ts with
  | [] => Some []
  | TChar c :: rest => cons c <$> uri_decode rest
  | TByte b :: rest =>
      if (b <? 128)%N then cons b <$> uri_decode rest
      else if (b <? 192)%N then None
      else if (b <? 224)%N then
        match rest with
        | TByte b1 :: rest' =>
            let v := (N.shiftl (N.land b 31) 6 + cont_bits b1)%N in
            if is_cont b1 && (128 <=? v)%N
            then app (code_units v) <$> uri_decode rest' else None
        | _ => None
        end
      else if (b <? 240)%N then
        match rest with
        | TByte b1 :: TByte b2 :: rest' =>
            let v := (N.shiftl (N.land b 15) 12 + N.shiftl (cont_bits b1) 6
                      + cont_bits b2)%N in
            if is_cont b1 && is_cont b2 && (2048 <=? v)%N
               && negb (in_range 55296 57343 v)
            then app (code_units v) <$> uri_decode rest' else None
        | _ => None
        end
      else if (b <? 248)%N then
        match rest with
        | TByte b1 :: TByte b2 :: TByte b3 :: rest' =>
            let v := (N.shiftl (N.land b 7) 18 + N.shiftl (cont_bits b1) 12
                      + N.shiftl (cont_bits b2) 6 + cont_bits b3)%N in
            if is_cont b1 && is_cont b2 && is_cont b3
               && in_range 65536 1114111 v
            then app (code_units v) <$> uri_decode rest' else None
        | _ => None
        end
      else None
  end.

(** [decodeURIComponent(s)]; [None] when it throws [URIError]. *)
Definition decodeURIComponent (s : jsstring) : option jsstring :=
  uri_tokens s ≫= uri_decode.

(** One turn of the loop of [decodeQueryString]. *)
Definition decode_variable (decodedData : gmap jsstring jsstring)
    (variable : jsstring) : option (gmap jsstring jsstring) :=
  let splitIndex := indexOf variable (js "=") in
  k ← decodeURIComponent (substr variable 0 (Some splitIndex));
  v ← decodeURIComponent (substr variable (splitIndex + 1) None);
  Some (<[k := v]> decodedData).

(** The loop of [decodeQueryString], from the object built so far;
    [None] once a component has failed to decode. *)
Definition decode_variables (decodedData : option (gmap jsstring jsstring))
    (splitData : list jsstring) : option (gmap jsstring jsstring) :=
  foldl (fun acc variable => acc ≫= fun d => decode_variable d variable)
        decodedData splitData.

(** [Zotero.Server.decodeQueryString]; [None] when a component fails to
    decode and the [URIError] escapes. *)
Definition decodeQueryString (queryString : jsstring)
    : option (gmap jsstring jsstring) :=
  let splitData := split_str queryString (js "&") in
  decode_variables (Some ∅) splitData.

(** ** The multipart decoder *)

(** A property value of a field descriptor: a string or [null]. *)
Inductive fval := FStr (s : jsstring) | FNull.

Definition contentDispositionRe : regex :=
  Bol >> Str (js "Content-Disposition:") >> Star is_space >> Grp 1 (Star dot) >> Eol.

(** The property name a subscript evaluates to. *)
Definition property_key (c : option N) : jsstring :=
  match c with
  | Some c => [c]
  | None => js "undefined"
  end.

(** The body of the loop over the parameters of [Content-Disposition].
    The result of [nameVal.split('=')] is dropped, so that [nameVal]
    stays the string and is subscripted by character. *)
Definition store_nameVal (fieldData : gmap jsstring fval) (nameVal : jsstring)
    : gmap jsstring fval :=
  <[property_key (charAt nameVal 0) :=
      if 1 <? len nameVal
      then match charAt nameVal 1 with Some c => FStr [c] | None => FNull end
      else FNull]> fieldData.

Definition decode_field (field : jsstring) : option (gmap jsstring fval) :=
  let field := trim field in
  let unixHeaderBoundary := indexOf field [LF; LF] in
  let windowsHeaderBoundary := indexOf field (CRLF ++ CRLF) in
  hb ← (if (unixHeaderBoundary <? windowsHeaderBoundary)
            && negb (unixHeaderBoundary =? -1)
        then Some (slice field 0 (Some unixHeaderBoundary),
                   slice field (unixHeaderBoundary + 2) None)
        else if negb (windowsHeaderBoundary =? -1)
        then Some (slice field 0 (Some windowsHeaderBoundary),
                   slice field (windowsHeaderBoundary + 4) None)
        else None);
  let fieldData : gmap jsstring fval :=
    <[js "body" := FStr hb.2]> (<[js "header" := FStr hb.1]> ∅) in
  Some match exec true contentDispositionRe hb.1 with
       | Some m =>
           foldl store_nameVal fieldData
                 (split_str (default [] (group m 1)) (js ";"))
       | None => fieldData
       end.

(** [_decodeMultipartData]; [None] when it throws
    [Error('Malformed multipart/form-data body')]. *)
Definition decodeMultipartData (data boundary : jsstring)
    : option (list (gmap jsstring fval)) :=
  let data := split_str data boundary in
  (* Ignore pre first boundary and post last boundary *)
  let data := slice data 1 (Some (Z.of_nat (length data) - 1)) in
  mapM decode_field data.

(** ** Endpoints

    What the server knows of an endpoint: the properties it reads from a
    fresh instance, and what calling [init] does.  A handler can only act
    on the connection through its return value or through the response
    callback it is handed, so a call is described by those actions. *)

Inductive error :=
| TypeError
| URIError
| Thrown (msg : jsstring).

(** The result of [JSON.parse]. *)
#[warnings="-register-all"]
Inductive json :=
| JNull
| JBool (b : bool)
| JNumber (literal : jsstring)
| JString (s : jsstring)
| JArray (l : list json)
| JObject (l : list (jsstring * json)).

(** The decoded body handed to a handler. *)
Inductive data :=
| DNull
| DJson (j : json)
| DQuery (m : gmap jsstring jsstring)
| DFields (l : list (gmap jsstring fval))
| DString (s : jsstring).

(** The arguments of one call of the response callback. *)
Record respargs := {
  code : Z;
  ctype : option jsstring;
  rbody : option jsstring;
}.

(** The object a single-parameter handler receives. *)
Record request := {
  r_method : jsstring;
  r_pathname : option jsstring;
  r_query : gmap jsstring jsstring;
  r_headers : gmap jsstring jsstring;
  r_data : data;
}.

(** The first argument of a three-parameter handler. *)
Record urlinfo := {
  u_pathname : option jsstring;
  u_query : gmap jsstring jsstring;
  u_userAgent : option jsstring;
}.

(** What a single-parameter handler returns or resolves to. *)
Inductive value1 :=
| VInt (status : Z)            (* an integer status code *)
| VArgs (a : respargs)         (* an array [[status, contentType, body]] *)
| VUndefined                   (* nothing *)
| VNotIterable.                (* any other value that cannot be spread *)

Inductive settlement :=
| Resolves (v : value1)
| Rejects (e : error).

Inductive outcome1 :=
| Throw1 (e : error)
| Return1 (v : value1)
| Promise1 (s : settlement).   (* returns a promise, settled later *)

(** A handler that is passed the response callback: the calls it makes
    before it returns, whether it then throws, and the calls it makes
    later from the event loop. *)
Record outcome_cb := {
  sync_calls : list respargs;
  throws : option error;
  later_calls : list respargs;
}.

(** [init], by its number of parameters [init.length]. *)
Inductive handler :=
| Init1 (f : request -> outcome1)                (* length 0 or 1 *)
| Init2 (f : data -> outcome_cb)                 (* length 2 *)
| Init3 (f : urlinfo -> data -> outcome_cb).     (* any other length *)

(** [supportedMethods] and [supportedDataTypes] are searched with
    [indexOf], which both arrays and strings have. *)
Inductive strs :=
| SArray (l : list jsstring)
| SString (s : jsstring).

Record endpoint := {
  supportedMethods : option strs;
  supportedDataTypes : option strs;
  permitBookmarklet : bool;
  init : handler;
}.

(** A registered constructor: [new] throws or yields an instance. *)
Record ctor := { construct : error + endpoint }.

(** What the server takes from its host: the mode and constants of the
    application, the endpoint registry, which other files fill, and the
    built-in [JSON.parse] and UTF-8 converter stream. *)
Record env := {
  isServer : bool;
  version : jsstring;
  CONNECTOR_API_VERSION : Z;
  BOOKMARKLET_ORIGIN : jsstring;
  HTTP_BOOKMARKLET_ORIGIN : jsstring;
  Endpoints : gmap jsstring ctor;
  JSON_parse : jsstring -> option json;
  utf8_convert : jsstring -> jsstring;
}.

(** ** The connection *)

Inductive invocation :=
| Call1 (r : request)
| Call2 (d : data)
| Call3 (u : urlinfo) (d : data).

(** Work left for a later turn of the event loop. *)
Inductive pending_item :=
| PSettle (s : settlement)     (* the dispatcher awaits a promise *)
| PCall (a : respargs).        (* a handler will call the callback *)

(** The properties of a [DataListener] ([foundReturn], which is never
    read, is left out), followed by what can be observed of it: the state
    of its streams, the strings written to the output stream, the debug
    log, the handler calls made, the work pending, and the errors with
    which dispatches were rejected. *)
Record conn := Conn {
  header : jsstring;
  headerFinished : bool;
  body : jsstring;
  bodyLength : Z;
  origin : option jsstring;
  contentType : option jsstring;
  pathname : option jsstring;
  endpoint_ : option ctor;
  query : option jsstring;
  responseSent : bool;
  iStream_closed : bool;
  oStream_closed : bool;
  oStream : list jsstring;
  debug_log : list jsstring;
  calls : list invocation;
  pending : list pending_item;
  rejections : list error;
}.

Definition new_conn : conn :=
  Conn [] false [] 0 None None None None None false false false [] [] [] [] [].

Definition set_header v s := let '(Conn _ b c d e f g h i j k l m n o p q) := s in Conn v b c d e f g h i j k l m n o p q.
Definition set_headerFinished v s := let '(Conn a _ c d e f g h i j k l m n o p q) := s in Conn a v c d e f g h i j k l m n o p q.
Definition set_body v s := let '(Conn a b _ d e f g h i j k l m n o p q) := s in Conn a b v d e f g h i j k l m n o p q.
Definition set_bodyLength v s := let '(Conn a b c _ e f g h i j k l m n o p q) := s in Conn a b c v e f g h i j k l m n o p q.
Definition set_origin v s := let '(Conn a b c d _ f g h i j k l m n o p q) := s in Conn a b c d v f g h i j k l m n o p q.
Definition set_contentType v s := let '(Conn a b c d e _ g h i j k l m n o p q) := s in Conn a b c d e v g h i j k l m n o p q.
Definition set_pathname v s := let '(Conn a b c d e f _ h i j k l m n o p q) := s in Conn a b c d e f v h i j k l m n o p q.
Definition set_endpoint v s := let '(Conn a b c d e f g _ i j k l m n o p q) := s in Conn a b c d e f g v i j k l m n o p q.
Definition set_query v s := let '(Conn a b c d e f g h _ j k l m n o p q) := s in Conn a b c d e f g h v j k l m n o p q.
Definition set_iStream_closed v s := let '(Conn a b c d e f g h i j _ l m n o p q) := s in Conn a b c d e f g h i j v l m n o p q.
Definition set_oStream_closed v s := let '(Conn a b c d e f g h i j k _ m n o p q) := s in Conn a b c d e f g h i j k v m n o p q.
Definition set_pending v s := let '(Conn a b c d e f g h i j k l m n o _ q) := s in Conn a b c d e f g h i j k l m n o v q.

(** [Zotero.debug(msg)] *)
Definition debug (msg : jsstring) (s : conn) : conn :=
  let '(Conn a b c d e f g h i j k l m n o p q) := s in
  Conn a b c d e f g h i j k l m (n ++ [msg]) o p q.

(** A handler is called. *)
Definition record_call (c : invocation) (s : conn) : conn :=
  let '(Conn a b c0 d e f g h i j k l m n o p q) := s in
  Conn a b c0 d e f g h i j k l m n (o ++ [c]) p q.

(** The promise of a dispatch is rejected with [e]. *)
Definition reject (e : error) (s : conn) : conn :=
  let '(Conn a b c d e0 f g h i j k l m n o p q) := s in
  Conn a b c d e0 f g h i j k l m n o p (q ++ [e]).

(** The first response: the flag is raised, the input stream closed, the
    response logged and written to the output stream. *)
Definition send (response : jsstring) (s : conn) : conn :=
  let '(Conn a b c d e f g h i _ _ l m n o p q) := s in
  Conn a b c d e f g h i true true l (m ++ [response]) (n ++ [response]) o p q.

(** [Zotero.Server.responseCodes] *)
Definition responseCodes : gmap Z jsstring :=
  list_to_map
    [ (200, js "OK");
      (201, js "Created");
      (204, js "No Content");
      (300, js "Multiple Choices");
      (400, js "Bad Request");
      (404, js "Not Found");
      (409, js "Conflict");
      (412, js "Precondition Failed");
      (500, js "Internal Server Error");
      (501, js "Not Implemented");
      (504, js "Gateway Timeout") ].

(** Truth of an optional string: [undefined], [null] and the empty
    string are false. *)
Definition truthy (o : option jsstring) : bool :=
  match o with
  | Some (_ :: _) => true
  | _ => false
  end.

(** [_generateResponse(status, contentType, body)] *)
Definition generateResponse (E : env) (this : conn) (status : Z)
    (contentType body : option jsstring) : jsstring :=
  let response :=
    js "HTTP/1.0 " ++ number_to_string status ++ js " "
      ++ default (js "undefined") (responseCodes !! status) ++ CRLF in
  let response :=
    if negb (isServer E) then
      let response := response ++ js "X-Zotero-Version: " ++ version E ++ CRLF in
      let response :=
        response ++ js "X-Zotero-Connector-API-Version: "
          ++ number_to_string (CONNECTOR_API_VERSION E) ++ CRLF in
      if bool_decide (origin this = Some (BOOKMARKLET_ORIGIN E))
         || bool_decide (origin this = Some (HTTP_BOOKMARKLET_ORIGIN E))
      then
        response ++ js "Access-Control-Allow-Origin: "
          ++ default [] (origin this) ++ CRLF
          ++ js "Access-Control-Allow-Methods: POST, GET, OPTIONS" ++ CRLF
          ++ js "Access-Control-Allow-Headers: Content-Type,X-Zotero-Connector-API-Version,X-Zotero-Version" ++ CRLF
      else response
    else response in
  let response :=
    if truthy contentType
    then response ++ js "Content-Type: " ++ default [] contentType ++ CRLF
    else response in
  if truthy body
  then response ++ CRLF ++ default [] body
  else response ++ js "Content-Length: 0" ++ CRLF ++ CRLF.

(** [_requestFinished(response)] *)
Definition requestFinished (response : jsstring) (this : conn) : conn :=
  if responseSent this
  then debug (js "Request already finished; not sending another response") this
  else send response this.

(** The callback handed to handlers:
    [me._requestFinished(me._generateResponse(code, contentType, arg))]. *)
Definition sendResponseCallback (E : env) (a : respargs) (me : conn) : conn :=
  requestFinished (generateResponse E me (code a) (ctype a) (rbody a)) me.

Definition respond (E : env) (status : Z) (contentType body : jsstring)
    (this : conn) : conn :=
  requestFinished (generateResponse E this status (Some contentType) (Some body)) this.

(** ** The dispatcher

    [_processEndpoint] is a coroutine whose body sits in one [try] block:
    it may finish, return early, or throw.  Its statements are sequenced
    in a monad over the connection that carries these three outcomes. *)

Inductive res (A : Type) :=
| Val (a : A)
| Ret                  (* [return] *)
| Exn (e : error).     (* [throw] *)
Arguments Val {A} a.
Arguments Ret {A}.
Arguments Exn {A} e.

Definition M (A : Type) : Type := conn -> res A * conn.

#[global] Instance M_ret : MRet M := fun A a s => (Val a, s).
#[global] Instance M_bind : MBind M := fun A B f m s =>
  match m s with
  | (Val a, s') => f a s'
  | (Ret, s') => (Ret, s')
  | (Exn e, s') => (Exn e, s')
  end.

#[global] Instance M_fmap : FMap M := fun A B f m s =>
  match m s with
  | (Val a, s') => (Val (f a), s')
  | (Ret, s') => (Ret, s')
  | (Exn e, s') => (Exn e, s')
  end.

Definition throw {A} (e : error) : M A := fun s => (Exn e, s).
Definition return_ {A} : M A := fun s => (Ret, s).
Definition this_ : M conn := fun s => (Val s, s).
Definition act (f : conn -> conn) : M unit := fun s => (Val tt, f s).
Definition when (b : bool) (m : M unit) : M unit := if b then m else mret tt.
(** A built-in that may throw. *)
Definition try_ {A} (e : error) (o : option A) : M A :=
  match o with
  | Some a => mret a
  | None => throw e
  end.

Definition error_to_string (e : error) : jsstring :=
  match e with
  | TypeError => js "TypeError"
  | URIError => js "URIError"
  | Thrown msg => js "Error: " ++ msg
  end.

Definition strs_truthy (o : option strs) : bool :=
  match o with
  | Some (SArray _) => true
  | Some (SString (_ :: _)) => true
  | _ => false
  end.

(** [l.indexOf(x) === -1] *)
Definition strs_lacks (o : option strs) (x : jsstring) : bool :=
  match o with
  | Some (SArray l) => negb (bool_decide (x ∈ l))
  | Some (SString s) => indexOf s x =? -1
  | None => false
  end.

(** [l != '*']: an array is compared through its string form. *)
Definition strs_not_star (o : option strs) : bool :=
  match o with
  | Some (SArray l) => negb (bool_decide (l = [js "*"]))
  | Some (SString s) => negb (bool_decide (s = js "*"))
  | None => true
  end.

Definition boundaryRe : regex :=
  Str (js "boundary=") >> Grp 1 (Star (fun c => negb (is_space c))).
Definition uaRe : regex :=
  Set_ (one_of [CR; LF]) >> Str (js "User-Agent:") >> Plus (one_of (js " "))
    >> Grp 1 (Plus (none_of [CR; LF])).

(** The header lines with a colon, as a map from name to value. *)
Definition parse_headers (header : jsstring) : gmap jsstring jsstring :=
  let headerLines := split_str (trim header) CRLF in
  foldl (fun headers line =>
           let line := trim line in
           let pos := indexOf line (js ":") in
           if pos =? -1 then headers
           else
             let k := substr line 0 (Some pos) in
             let v := trim (substr line (pos + 1) None) in
             <[k := v]> headers)
        ∅ headerLines.

(** [this.query ? Zotero.Server.decodeQueryString(this.query.substr(1)) : {}] *)
Definition decode_query (query : option jsstring) : M (gmap jsstring jsstring) :=
  if truthy query
  then try_ URIError (decodeQueryString (substr (default [] query) 1 None))
  else mret ∅.

(** What the dispatcher does with the value of a single-parameter
    handler. *)
Definition send_result (E : env) (result : value1) : M unit :=
  match result with
  | VInt status => act (sendResponseCallback E {| code := status; ctype := None; rbody := None |})
  | VArgs a => act (sendResponseCallback E a)
  | VUndefined | VNotIterable => throw TypeError
  end.

(** A handler with a callback runs: its calls, then its exception. *)
Definition run_callbacks (E : env) (o : outcome_cb) : M unit :=
  act (fun me => foldl (fun me a => sendResponseCallback E a me) me (sync_calls o));;
  act (fun me => set_pending (pending me ++ (PCall <$> later_calls o)) me);;
  match throws o with
  | Some e => throw e
  | None => mret tt
  end.

(** The body of the [try] block of [_processEndpoint(method, postData)]. *)
Definition processEndpoint_try (E : env) (method : jsstring)
    (postData : option jsstring) : M unit :=
  this ← this_;
  c ← try_ TypeError (endpoint_ this);
  endpoint ← match construct c with inl e => throw e | inr ep => mret ep end;
  (* Check that endpoint supports method *)
  when (strs_truthy (supportedMethods endpoint)
        && strs_lacks (supportedMethods endpoint) method)
    (act (respond E 400 (js "text/plain") (js "Endpoint does not support method" ++ [LF]));;
     return_);;
  (* Check that endpoint supports bookmarklet *)
  when (truthy (origin this))
    (let isBookmarklet :=
       bool_decide (origin this = Some (js "https://www.zotero.org"))
       || bool_decide (origin this = Some (js "http://www.zotero.org")) in
     when (isBookmarklet && negb (permitBookmarklet endpoint))
       (act (respond E 403 (js "text/plain") (js "Access forbidden to bookmarklet" ++ [LF]));;
        return_));;
  decodedData ←
    (if truthy postData && truthy (contentType this) then
       let postData := default [] postData in
       let contentType := default [] (contentType this) in
       (* check that endpoint supports contentType *)
       let supportedDataTypes := supportedDataTypes endpoint in
       when (strs_truthy supportedDataTypes && strs_not_star supportedDataTypes
             && strs_lacks supportedDataTypes contentType)
         (act (respond E 400 (js "text/plain") (js "Endpoint does not support content-type" ++ [LF]));;
          return_);;
       (* decode content-type post data *)
       if bool_decide (contentType = js "application/json") then
         match JSON_parse E postData with
         | Some j => mret (DJson j)
         | None =>
             act (respond E 400 (js "text/plain") (js "Invalid JSON provided" ++ [LF]));;
             return_
         end
       else if bool_decide (contentType = js "application/x-www-form-urlencoded") then
         DQuery <$> try_ URIError (decodeQueryString postData)
       else if bool_decide (contentType = js "multipart/form-data") then
         match exec true boundaryRe (header this) with
         | None =>
             act (respond E 400 (js "text/plain") (js "Invalid multipart/form-data provided" ++ [LF]));;
             return_
         | Some boundary =>
             let boundary := js "--" ++ default [] (group boundary 1) in
             match decodeMultipartData postData boundary with
             | Some l => mret (DFields l)
             | None =>
                 act (respond E 400 (js "text/plain") (js "Invalid multipart/form-data provided" ++ [LF]));;
                 return_
             end
         end
       else mret (DString postData)
     else mret DNull);
  (* Pass to endpoint *)
  match init endpoint with
  | Init1 f =>
      let headers := parse_headers (header this) in
      query ← decode_query (query this);
      let req := {| r_method := method; r_pathname := pathname this;
                    r_query := query; r_headers := headers;
                    r_data := decodedData |} in
      act (record_call (Call1 req));;
      match f req with
      | Throw1 e => throw e
      | Return1 VUndefined => throw TypeError      (* [maybePromise.then] *)
      | Return1 result => send_result E result
      | Promise1 s =>                               (* [yield maybePromise] *)
          act (fun me => set_pending (pending me ++ [PSettle s]) me)
      end
  | Init2 f =>
      act (record_call (Call2 decodedData));;
      run_callbacks E (f decodedData)
  | Init3 f =>
      let m := exec true uaRe (header this) in
      query ← decode_query (query this);
      let url := {| u_pathname := pathname this; u_query := query;
                    u_userAgent := m ≫= fun m => group m 1 |} in
      act (record_call (Call3 url decodedData));;
      run_callbacks E (f url decodedData)
  end.

(** The [catch] block: log, answer 500, throw again.  The closing
    parenthesis of [_generateResponse(500)] comes before the content type
    and the text, which are thus passed to [_requestFinished] and lost. *)
Definition catch_ (E : env) (m : M unit) (this : conn) : conn :=
  match m this with
  | (Exn e, this) =>
      let this := debug (error_to_string e) this in
      let this := requestFinished (generateResponse E this 500 None None) this in
      reject e this
  | (_, this) => this
  end.

(** [_processEndpoint(method, postData)], up to its first [yield]. *)
Definition processEndpoint (E : env) (method : jsstring)
    (postData : option jsstring) (this : conn) : conn :=
  catch_ E (processEndpoint_try E method postData) this.

(** The coroutine resumes when the promise it awaits settles. *)
Definition resume (E : env) (s : settlement) (this : conn) : conn :=
  catch_ E (match s with
            | Resolves result => send_result E result
            | Rejects e => throw e
            end) this.

(** ** The connection handler *)

(** [_bodyData()]: once [Content-Length] bytes of body have been read,
    convert them to UTF-8 and process the body. *)
Definition bodyData (E : env) (this : conn) : conn :=
  if len (body this) >=? bodyLength this then
    let this :=
      set_body (utf8_convert E (take (Z.to_nat (bodyLength this)) (body this))) this in
    processEndpoint E (js "POST") (Some (body this)) this
  else this.

Definition methodRe : regex :=
  Bol >> Grp 1 (Plus (in_range 65 90)) >> Str (js " ")
    >> Grp 2 (Plus (none_of (js " " ++ [CR; LF] ++ js "?")))
    >> Opt (Grp 3 (Str (js "?") >> Plus (none_of (js " " ++ [CR; LF])))).
Definition hostRe : regex :=
  Set_ (one_of [CR; LF]) >> Str (js "Host:") >> Star (one_of (js " "))
    >> Grp 1 (Alt (Str (js "localhost")) (Str (js "127.0.0.1")))
    >> Opt (Grp 2 (Str (js ":") >> Plus (in_range 48 57)))
    >> Set_ (one_of [CR; LF]).
Definition contentTypeRe : regex :=
  Set_ (one_of [CR; LF]) >> Str (js "Content-Type:") >> Star (one_of (js " "))
    >> Grp 1 (Plus (none_of (js " " ++ [CR; LF]))).
Definition originRe : regex :=
  Set_ (one_of [CR; LF]) >> Str (js "Origin:") >> Star (one_of (js " "))
    >> Grp 1 (Plus (none_of (js " " ++ [CR; LF]))).
Definition bookmarkletRe : regex :=
  Set_ (one_of [CR; LF]) >> Str (js "Zotero-Bookmarklet:") >> Star (one_of (js " "))
    >> Grp 1 (Plus (none_of (js " " ++ [CR; LF]))).
Definition contentLengthRe : regex :=
  Set_ (one_of [CR; LF]) >> Str (js "Content-Length:") >> Plus (one_of (js " "))
    >> Grp 1 (Plus (in_range 48 57)).

(** [s.split(/\s*;/)[0]]: what precedes the leftmost match of the
    separator, the whole string when there is none. *)
Definition before_semicolon (s : jsstring) : jsstring :=
  match exec false (Star is_space >> Str (js ";")) s with
  | Some m => take (m_index m) s
  | None => s
  end.

(** [_headerFinished()]: processes an HTTP header and decides what to do. *)
Definition headerFinished_ (E : env) (this : conn) : conn :=
  let this := set_headerFinished true this in
  let this := debug (header this) this in
  let this :=
    if negb (isServer E) then
      match exec true originRe (header this) with
      | Some m => set_origin (group m 1) this
      | None =>
          match exec true bookmarkletRe (header this) with
          | Some _ => set_origin (Some (js "https://www.zotero.org")) this
          | None => this
          end
      end
    else this in
  (* Make sure the Host header is set to localhost/127.0.0.1 to prevent
     DNS rebinding attacks *)
  if negb (isServer E) && negb (bool_decide (is_Some (exec true hostRe (header this))))
  then respond E 400 (js "text/plain") (js "Invalid Host header" ++ [LF]) this
  else
    (* get first line of request *)
    let method := exec false methodRe (header this) in
    (* get content-type *)
    let this :=
      match exec true contentTypeRe (header this) with
      | Some contentType =>
          set_contentType (Some (before_semicolon (default [] (group contentType 1)))) this
      | None => this
      end in
    match method with
    | None => respond E 400 (js "text/plain") (js "Invalid method specified" ++ [LF]) this
    | Some method =>
        let m1 := default [] (group method 1) in
        let m2 := default [] (group method 2) in
        match Endpoints E !! m2 with
        | None => respond E 404 (js "text/plain") (js "No endpoint found" ++ [LF]) this
        | Some endpoint =>
            let this := set_pathname (Some m2) this in
            let this := set_endpoint (Some endpoint) this in
            let this := set_query (group method 3) this in
            if bool_decide (m1 = js "HEAD") || bool_decide (m1 = js "OPTIONS") then
              requestFinished (generateResponse E this 200 None None) this
            else if bool_decide (m1 = js "GET") then
              processEndpoint E (js "GET") None this
            else if bool_decide (m1 = js "POST") then
              (* parse content length *)
              match exec true contentLengthRe (header this) with
              | None => respond E 400 (js "text/plain") (js "Content-length not provided" ++ [LF]) this
              | Some m =>
                  let this := set_bodyLength (parse_digits (default [] (group m 1))) this in
                  bodyData E this
              end
            else respond E 501 (js "text/plain") (js "Method not implemented" ++ [LF]) this
        end
    end.

(** [onDataAvailable]: called when new data is available; [readData] is
    what the stream delivers this time. *)
Definition onDataAvailable (E : env) (readData : jsstring) (this : conn) : conn :=
  if headerFinished this then       (* reading body *)
    let this := set_body (body this ++ readData) this in
    (* check to see if data is done *)
    bodyData E this
  else                              (* reading header *)
    (* see if there's a magic double return *)
    let lineBreakIndex := indexOf readData (CRLF ++ CRLF) in
    if negb (lineBreakIndex =? -1) then
      let this :=
        if negb (lineBreakIndex =? 0) then
          let this := set_header (header this ++ substr readData 0 (Some (lineBreakIndex + 4))) this in
          set_body (substr readData (lineBreakIndex + 4) None) this
        else this in
      headerFinished_ E this
    else
      let lineBreakIndex := indexOf readData [LF; LF] in
      if negb (lineBreakIndex =? -1) then
        let this :=
          if negb (lineBreakIndex =? 0) then
            let this := set_header (header this ++ substr readData 0 (Some (lineBreakIndex + 2))) this in
            set_body (substr readData (lineBreakIndex + 2) None) this
          else this in
        headerFinished_ E this
      else if truthy (Some (header this))
              && bool_decide (last (header this) = Some LF)
              && (bool_decide (charAt readData 0 = Some LF)
                  || bool_decide (charAt readData 0 = Some CR)) then
        let this :=
          if (1 <? len readData) && bool_decide (charAt readData 1 = Some LF) then
            let this := set_header (header this ++ substr readData 0 (Some 2)) this in
            set_body (substr readData 2 None) this
          else
            let this := set_header (header this ++ take 1 readData) this in
            set_body (substr readData 1 None) this in
        headerFinished_ E this
      else set_header (header this ++ readData) this.

(** [onStopRequest]: called when a request stops. *)
Definition onStopRequest (this : conn) : conn :=
  set_oStream_closed true (set_iStream_closed true this).

(** What happens to a connection, one turn of the event loop at a time:
    data arrives, a piece of pending work runs, the request stops. *)
Inductive event :=
| Data (readData : jsstring)
| Fire (i : nat)
| Stop.

Definition fire (E : env) (i : nat) (this : conn) : conn :=
  match pending this !! i with
  | None => this
  | Some item =>
      let this := set_pending (delete i (pending this)) this in
      match item with
      | PSettle s => resume E s this
      | PCall a => sendResponseCallback E a this
      end
  end.

Definition step (E : env) (this : conn) (ev : event) : conn :=
  match ev with
  | Data readData => onDataAvailable E readData this
  | Fire i => fire E i this
  | Stop => onStopRequest this
  end.

(** A connection from its creation through a sequence of events. *)
Definition run (E : env) (evs : list event) : conn :=
  foldl (step E) new_conn evs.

(** ** A sample host

    A converter for the sample environment: UTF-8 sequences become their
    code units, a byte that starts no valid sequence becomes [?]. *)
Fixpoint utf8_decode (s : jsstring) : jsstring :=
  match s with
  | [] => []
  | b :: rest =>
      let bad := 63%N :: utf8_decode rest in
      if (b <? 128)%N then b :: utf8_decode rest
      else if in_range 194 223 b then
        match rest with
        | b1 :: rest' =>
            if is_cont b1
            then code_units (N.shiftl (N.land b 31) 6 + cont_bits b1) ++ utf8_decode rest'
            else bad
        | _ => bad
        end
      else if in_range 224 239 b then
        match rest with
        | b1 :: b2 :: rest' =>
            let v := (N.shiftl (N.land b 15) 12 + N.shiftl (cont_bits b1) 6
                      + cont_bits b2)%N in
            if is_cont b1 && is_cont b2 && (2048 <=? v)%N
               && negb (in_range 55296 57343 v)
            then code_units v ++ utf8_decode rest' else bad
        | _ => bad
        end
      else if in_range 240 244 b then
        match rest with
        | b1 :: b2 :: b3 :: rest' =>
            let v := (N.shiftl (N.land b 7) 18 + N.shiftl (cont_bits b1) 12
                      + N.shiftl (cont_bits b2) 6 + cont_bits b3)%N in
            if is_cont b1 && is_cont b2 && is_cont b3
               && in_range 65536 1114111 v
            then code_units v ++ utf8_decode rest' else bad
        | _ => bad
        end
      else bad
  end.

(** An endpoint whose handler takes the request object and answers 200
    with the decoded body as text. *)
Definition echo : endpoint :=
  {| supportedMethods := None;
     supportedDataTypes := None;
     permitBookmarklet := false;
     init := Init1 (fun r =>
       Return1 (VArgs {| code := 200;
                         ctype := Some (js "text/plain");
                         rbody := match r_data r with
                                  | DString s => Some s
                                  | _ => None
                                  end |})) |}.

(** An endpoint whose handler throws. *)
Definition failing : endpoint :=
  {| supportedMethods := None;
     supportedDataTypes := None;
     permitBookmarklet := false;
     init := Init1 (fun _ => Throw1 (Thrown (js "boom"))) |}.

(** An endpoint whose handler calls the response callback twice. *)
Definition twice : endpoint :=
  {| supportedMethods := None;
     supportedDataTypes := None;
     permitBookmarklet := false;
     init := Init2 (fun _ =>
       {| sync_calls := [ {| code := 200; ctype := None; rbody := None |} ];
          throws := None;
          later_calls := [ {| code := 201; ctype := None; rbody := None |} ] |}) |}.

Definition sample_env : env :=
  {| isServer := false;
     version := js "5.0";
     CONNECTOR_API_VERSION := 2;
     BOOKMARKLET_ORIGIN := js "https://www.zotero.org";
     HTTP_BOOKMARKLET_ORIGIN := js "http://www.zotero.org";
     Endpoints := {[ js "/echo" := {| construct := inr echo |};
                     js "/fail" := {| construct := inr failing |};
                     js "/twice" := {| construct := inr twice |} ]};
     JSON_parse := fun _ => None;
     utf8_convert := utf8_decode |}.

(** The decoded bodies the handlers were called with, in order. *)
Definition dispatched_data (c : conn) : list data :=
  (fun i => match i with
            | Call1 r => r_data r
            | Call2 d => d
            | Call3 _ d => d
            end) <$> calls c.

Definition post_echo : jsstring :=
  js "POST /echo HTTP/1.0" ++ CRLF
    ++ js "Host: localhost" ++ CRLF
    ++ js "Content-Type: text/plain" ++ CRLF
    ++ js "Content-Length: 2" ++ CRLF
    ++ CRLF
    ++ js "ab".

(** A multipart body with boundary [XYZ] and the two fields [a] and [b]. *)
Definition two_fields : jsstring :=
  js "--XYZ" ++ CRLF
    ++ js "Content-Disposition: form-data; name=a" ++ CRLF ++ CRLF
    ++ js "1" ++ CRLF
    ++ js "--XYZ" ++ CRLF
    ++ js "Content-Disposition: form-data; name=b" ++ CRLF ++ CRLF
    ++ js "2" ++ CRLF
    ++ js "--XYZ--" ++ CRLF.

(** The same kind of body, one field, with Unix line ends. *)
Definition unix_field : jsstring :=
  js "--XYZ" ++ [LF]
    ++ js "Content-Disposition: form-data; name=a" ++ [LF; LF]
    ++ js "1" ++ [LF]
    ++ js "--XYZ--" ++ [LF].

Definition get_fail : jsstring :=
  js "GET /fail HTTP/1.0" ++ CRLF ++ js "Host: localhost" ++ CRLF ++ CRLF.

Definition get_echo_from_bookmarklet : jsstring :=
  js "GET /echo HTTP/1.0" ++ CRLF
    ++ js "Host: localhost" ++ CRLF
    ++ js "Origin: https://www.zotero.org" ++ CRLF ++ CRLF.

(** ** Predicates of the proofs *)

(** [c'] comes after [c] on one connection: either nothing was written in
    between, or the one response was. *)
Definition follows (c c' : conn) : Prop :=
  (oStream c' = oStream c /\ responseSent c' = responseSent c)
  \/ (responseSent c = false /\ responseSent c' = true
      /\ oStream c = [] /\ exists r, oStream c' = [r]).

(** The response-sent flag is raised exactly when a response was written. *)
Definition guarded (c : conn) : Prop :=
  if responseSent c then exists r, oStream c = [r] else oStream c = [].

(** The shape all the lemmas below have: a function keeps what holds
    of the state it is applied to. *)
Definition keeps (f : conn -> conn) : Prop :=
  forall c s, guarded s /\ follows c s -> guarded (f s) /\ follows c (f s).

(** The same for the statements of the dispatcher. *)
Definition keepsM {A} (m : M A) : Prop := keeps (fun s => (m s).2).


(** ** A client

    How a conforming HTTP/1.0 client reads a response: the head ends at
    the first blank line; its first line is the status line, the others
    are the headers; the body is all that follows the blank line. *)

(** The longest prefix of characters of a class, and the rest. *)
Fixpoint span (p : N -> bool) (s : jsstring) : jsstring * jsstring :=
  match s with
  | c :: s' => if p c then let '(w, r) := span p s' in (c :: w, r) else ([], s)
  | [] => ([], [])
  end.

Fixpoint digits_uint (s : jsstring) : option Decimal.uint :=
  match s with
  | [] => Some Decimal.Nil
  | c :: s' =>
      u ← digits_uint s';
      if is_digit c then
        match (c - 48)%N with
        | 0 => Some (Decimal.D0 u) | 1 => Some (Decimal.D1 u)
        | 2 => Some (Decimal.D2 u) | 3 => Some (Decimal.D3 u)
        | 4 => Some (Decimal.D4 u) | 5 => Some (Decimal.D5 u)
        | 6 => Some (Decimal.D6 u) | 7 => Some (Decimal.D7 u)
        | 8 => Some (Decimal.D8 u) | 9 => Some (Decimal.D9 u)
        | _ => None
        end%N
      else None
  end.

(** A decimal integer, with its sign. *)
Definition string_to_number (s : jsstring) : option Z :=
  match s with
  | [] => None
  | c :: ds =>
      if (c =? 45)%N
      then (fun u => Z.of_int (Decimal.Neg u)) <$> digits_uint ds
      else (fun u => Z.of_int (Decimal.Pos u)) <$> digits_uint s
  end.

(** The status code of a status line [HTTP/1.0 <code> <reason>]. *)
Definition parse_status_line (l : jsstring) : option Z :=
  rest ← strip_prefix false (js "HTTP/1.0 ") l;
  string_to_number (span (fun c => negb (c =? 32)%N) rest).1.

(** Status code, header lines and body of a response. *)
Definition client_parse (response : jsstring)
    : option (Z * list jsstring * jsstring) :=
  i ← find_sub (CRLF ++ CRLF) response;
  match split_str (take i response) CRLF with
  | [] => None
  | status_line :: headers =>
      status ← parse_status_line status_line;
      Some (status, headers, drop (i + 4) response)
  end.

(** A header value: no line break in it. *)
Definition single_line (s : jsstring) : bool := forallb (none_of [CR; LF]) s.

(** The lines of a response, by the structure of [_generateResponse]. *)
Definition status_line (status : Z) : jsstring :=
  js "HTTP/1.0 " ++ number_to_string status ++ js " "
    ++ default (js "undefined") (responseCodes !! status).

Definition header_lines (E : env) (this : conn)
    (contentType body : option jsstring) : list jsstring :=
  (if negb (isServer E) then
     [ js "X-Zotero-Version: " ++ version E;
       js "X-Zotero-Connector-API-Version: " ++ number_to_string (CONNECTOR_API_VERSION E) ]
     ++ (if bool_decide (origin this = Some (BOOKMARKLET_ORIGIN E))
            || bool_decide (origin this = Some (HTTP_BOOKMARKLET_ORIGIN E))
         then [ js "Access-Control-Allow-Origin: " ++ default [] (origin this);
                js "Access-Control-Allow-Methods: POST, GET, OPTIONS";
                js "Access-Control-Allow-Headers: Content-Type,X-Zotero-Connector-API-Version,X-Zotero-Version" ]
         else [])
   else [])
  ++ (if truthy contentType then [js "Content-Type: " ++ default [] contentType] else [])
  ++ (if truthy body then [] else [js "Content-Length: 0"]).

(** Lines, each ended by CR LF. *)
Definition unlines (ls : list jsstring) : jsstring :=
  concat ((fun l => l ++ CRLF) <$> ls).

(** Lines, separated by CR LF. *)
Fixpoint joined (ls : list jsstring) : jsstring :=
  match ls with
  | [] => []
  | [l] => l
  | l :: ls => l ++ CRLF ++ joined ls
  end.

(** ** The request as the specification reads it *)

(** The header block cut into lines, at every CR and every LF. *)
Fixpoint lines (s : jsstring) : list jsstring :=
  match s with
  | [] => [[]]
  | c :: s' =>
      if one_of [CR; LF] c then [] :: lines s'
      else match lines s' with
           | l :: ls => (c :: l) :: ls
           | [] => [[c]]
           end
  end.

(** What may follow the host name: nothing, or a colon and a port
    number. *)
Definition valid_port (p : jsstring) : bool :=
  match p with
  | [] => true
  | c :: ds => (c =? 58)%N && negb (bool_decide (ds = [])) && forallb is_digit ds
  end.

(** A line [Host: localhost] or [Host: 127.0.0.1], with a port or not,
    in any case of letters. *)
Definition valid_host_line (l : jsstring) : bool :=
  match strip_prefix true (js "Host:") l with
  | None => false
  | Some v =>
      let v := drop_while (fun c => (c =? 32)%N) v in
      from_option valid_port false (strip_prefix true (js "localhost") v)
      || from_option valid_port false (strip_prefix true (js "127.0.0.1") v)
  end.

(** The request has a Host header naming the loopback interface. *)
Definition has_valid_host (header : jsstring) : bool :=
  existsb valid_host_line (tail (lines header)).

(** A line [Content-Length:] whose value starts with a number. *)
Definition content_length_line (l : jsstring) : bool :=
  match strip_prefix true (js "Content-Length:") l with
  | None => false
  | Some v =>
      match drop_while (fun c => (c =? 32)%N) v with
      | c :: _ => is_digit c
      | [] => false
      end
  end.

(** The request has a numeric Content-Length header. *)
Definition has_content_length (header : jsstring) : bool :=
  existsb content_length_line (tail (lines header)).

(** The request line [METHOD PATH[?QUERY]]: a method in capital letters,
    a space, a path, and a query string after a question mark if there is
    one.  [None] for a malformed line. *)
Definition parse_request_line (header : jsstring)
    : option (jsstring * jsstring * option jsstring) :=
  let '(method, rest) := span (in_range 65 90) header in
  match method, rest with
  | _ :: _, c :: rest =>
      if (c =? 32)%N then
        let '(path, rest) := span (none_of (js " " ++ [CR; LF] ++ js "?")) rest in
        match path with
        | [] => None
        | _ :: _ =>
            Some (method, path,
                  match rest with
                  | c :: q =>
                      let qs := (span (none_of (js " " ++ [CR; LF])) q).1 in
                      if (c =? 63)%N && negb (bool_decide (qs = []))
                      then Some (c :: qs) else None
                  | [] => None
                  end)
        end
      else None
  | _, _ => None
  end.

(** What it is for an expression to match: [matches r s s'] when [r]
    matches the part of [s] that ends where [s'] starts. *)
Inductive matches (icase : bool) (size : nat) : regex -> jsstring -> jsstring -> Prop :=
| matches_Str l s s' :
    strip_prefix icase l s = Some s' -> matches icase size (Str l) s s'
| matches_Set p a s :
    p a = true -> matches icase size (Set_ p) (a :: s) s
| matches_Star p w s :
    forallb p w = true -> matches icase size (Star p) (w ++ s) s
| matches_Plus p w s :
    w <> [] -> forallb p w = true -> matches icase size (Plus p) (w ++ s) s
| matches_Seq r1 r2 s s' s'' :
    matches icase size r1 s s' -> matches icase size r2 s' s'' ->
    matches icase size (Seq r1 r2) s s''
| matches_Alt_l r1 r2 s s' :
    matches icase size r1 s s' -> matches icase size (Alt r1 r2) s s'
| matches_Alt_r r1 r2 s s' :
    matches icase size r2 s s' -> matches icase size (Alt r1 r2) s s'
| matches_Opt_some r s s' :
    matches icase size r s s' -> matches icase size (Opt r) s s'
| matches_Opt_none r s :
    matches icase size (Opt r) s s
| matches_Grp n r s s' :
    matches icase size r s s' -> matches icase size (Grp n r) s s'
| matches_Bol s :
    length s = size -> matches icase size Bol s s
| matches_Eol :
    matches icase size Eol [] [].

(** ** The parts of [_headerFinished]

    The body of [_headerFinished] in three parts, to state what each does:
    what comes before the Host check, the check as the code tests it, and
    what comes after. *)

(** The flag is raised, the header logged, and outside headless mode the
    origin is taken from the [Origin] header or the bookmarklet marker. *)
Definition read_origin (E : env) (this : conn) : conn :=
  let this := set_headerFinished true this in
  let this := debug (header this) this in
  if negb (isServer E) then
    match exec true originRe (header this) with
    | Some m => set_origin (group m 1) this
    | None =>
        match exec true bookmarkletRe (header this) with
        | Some _ => set_origin (Some (js "https://www.zotero.org")) this
        | None => this
        end
    end
  else this.

(** The Host check passes: headless mode, or the host expression
    matches the header. *)
Definition host_check_passes (E : env) (header : jsstring) : bool :=
  isServer E || bool_decide (is_Some (exec true hostRe header)).

(** The content type is taken from the header. *)
Definition read_contentType (this : conn) : conn :=
  match exec true contentTypeRe (header this) with
  | Some contentType =>
      set_contentType (Some (before_semicolon (default [] (group contentType 1)))) this
  | None => this
  end.

(** The endpoint found for the path is stored with the path and the
    query string. *)
Definition store_endpoint (m2 : jsstring) (endpoint : ctor)
    (m3 : option jsstring) (this : conn) : conn :=
  set_query m3 (set_endpoint (Some endpoint) (set_pathname (Some m2) this)).

(** [c] is [this] after it answered with the given response and did
    nothing else that can be observed: the response is the one string
    written, no handler was called, no work is left pending, no dispatch
    was rejected. *)
Definition answers (E : env) (this c : conn) (status : Z)
    (contentType body : option jsstring) : Prop :=
  oStream c = oStream this ++ [generateResponse E c status contentType body]
  /\ responseSent c = true
  /\ iStream_closed c = true
  /\ calls c = calls this
  /\ pending c = pending this
  /\ rejections c = rejections this.

(** ** Sample requests *)

(** A connection that has read the header [h] and nothing else. *)
Definition with_header (h : jsstring) : conn := set_header h new_conn.

Definition request_head (line : string) (host : string) : jsstring :=
  js line ++ CRLF ++ js host ++ CRLF ++ CRLF.

(** ** Predicates of the invariants *)

(** The request a connection has parsed: what [_headerFinished] and the
    reading of the header set, the body apart. *)
Definition same_request (c c' : conn) : Prop :=
  header c' = header c /\ headerFinished c' = headerFinished c
  /\ origin c' = origin c /\ contentType c' = contentType c
  /\ pathname c' = pathname c /\ endpoint_ c' = endpoint_ c
  /\ query c' = query c /\ bodyLength c' = bodyLength c.

(** What can be observed of a connection is the same in [c] and [c']. *)
Definition same_observed (c c' : conn) : Prop :=
  responseSent c' = responseSent c /\ iStream_closed c' = iStream_closed c
  /\ oStream_closed c' = oStream_closed c /\ oStream c' = oStream c
  /\ debug_log c' = debug_log c /\ calls c' = calls c
  /\ pending c' = pending c /\ rejections c' = rejections c.

(** A property of connections is kept by a function, by a statement. *)
Definition preserves (P : conn -> Prop) (f : conn -> conn) : Prop :=
  forall s, P s -> P (f s).
Definition preservesM (P : conn -> Prop) {A} (m : M A) : Prop :=
  preserves P (fun s => (m s).2).

(** What holds of every connection, by the order in which
    [_headerFinished] does things: while the header is being read nothing
    has been done yet; a handler is called only once an endpoint is set;
    and an endpoint is set only after the Host check passed on a header
    whose request line names the registered path of that endpoint. *)
Definition gated (E : env) (c : conn) : Prop :=
  (headerFinished c = false ->
   endpoint_ c = None /\ responseSent c = false /\ oStream c = []
   /\ calls c = [] /\ pending c = [] /\ rejections c = [])
  /\ (calls c <> [] -> endpoint_ c <> None)
  /\ (forall ep, endpoint_ c = Some ep ->
      headerFinished c = true
      /\ host_check_passes E (header c) = true
      /\ exists method path,
           parse_request_line (header c) = Some (method, path, query c)
           /\ pathname c = Some path /\ Endpoints E !! path = Some ep).

(** The decoded body a handler was called with. *)
Definition call_data (i : invocation) : data :=
  match i with
  | Call1 r => r_data r
  | Call2 d => d
  | Call3 _ d => d
  end.

(** From state [s], a statement calls a handler at most once, and then
    with a call of which [D] holds. *)
Definition calls_once {A} (D : invocation -> Prop) (m : M A) (s : conn) : Prop :=
  calls (m s).2 = calls s
  \/ exists i, calls (m s).2 = calls s ++ [i] /\ D i.

(** A statement that calls no handler. *)
Definition quietM {A} (m : M A) : Prop := forall s, calls (m s).2 = calls s.

(** ** More of the sample host *)

(** An endpoint that lists POST as its only method. *)
Definition post_only : endpoint :=
  {| supportedMethods := Some (SArray [js "POST"]);
     supportedDataTypes := None;
     permitBookmarklet := false;
     init := Init1 (fun _ => Return1 (VInt 201)) |}.

Definition get_echo : jsstring := request_head "GET /echo?a=1 HTTP/1.0" "Host: localhost".

(** ** Query strings, pair by pair *)

(** The name and the value of one segment of a query string, decoded:
    the segment is cut at its first [=]; without one the name is empty
    and the value is the whole segment. *)
Definition decode_pair (variable : jsstring) : option (jsstring * jsstring) :=
  let splitIndex := indexOf variable (js "=") in
  k ← decodeURIComponent (substr variable 0 (Some splitIndex));
  v ← decodeURIComponent (substr variable (splitIndex + 1) None);
  Some (k, v).

(** ** Query strings, written out

    A string none of whose code units is in [stop]. *)
Definition plain (stop s : jsstring) : bool := forallb (none_of stop) s.

Fixpoint join_with (sep : jsstring) (ls : list jsstring) : jsstring :=
  match ls with
  | [] => []
  | [l] => l
  | l :: ls => l ++ sep ++ join_with sep ls
  end.

Definition encode_pair (kv : jsstring * jsstring) : jsstring :=
  kv.1 ++ js "=" ++ kv.2.

(** The query string of a list of names and values that need no escape. *)
Definition query_of (kvs : list (jsstring * jsstring)) : jsstring :=
  join_with (js "&") (encode_pair <$> kvs).

(** ** A failed dispatch *)

(** [c] is [this] after a dispatch that threw [e] before anything was
    sent or called: the answer is the bare status 500, and the promise
    of the dispatch is rejected with [e]. *)
Definition fails (E : env) (this c : conn) (e : error) : Prop :=
  oStream c = oStream this ++ [generateResponse E c 500 None None]
  /\ responseSent c = true /\ iStream_closed c = true
  /\ calls c = calls this /\ pending c = pending this
  /\ rejections c = rejections this ++ [e].

(** ** The server socket

    [Zotero.Server.init], [close] and the observer that starts the server
    again when the network comes back.  What the platform decides is
    handed to each call: whether the browser is offline, and the port the
    socket is bound to, or that binding or listening throws. *)

Record socket := { requested : Z; sock_port : Z; loopbackOnly : bool }.

(** The variables [serv] and [_onlineObserverRegistered] of the closure,
    the observers added to the observer service, the shutdown listeners
    added, and the debug log. *)
Record server := Server {
  serv : option socket;
  onlineObserverRegistered : bool;
  observers : nat;
  shutdownListeners : nat;
  server_log : list jsstring;
}.

Definition new_server : server := Server None false 0 0 [].

Record platform := {
  httpServer_port : Z;                (* [Zotero.Prefs.get('httpServer.port')] *)
  has_addShutdownListener : bool;     (* not so in translation-server *)
}.

(** What holds when [init] is called. *)
Record world := {
  browserIsOffline : bool;
  bound : option Z;   (* [serv.port] once bound and listening; [None]: it throws *)
}.

Definition server_debug (msg : jsstring) (s : server) : server :=
  let '(Server a b c d l) := s in Server a b c d (l ++ [msg]).

(** [_registerOnlineObserver()] *)
Definition registerOnlineObserver (s : server) : server :=
  if onlineObserverRegistered s then s
  else
    let '(Server a _ c d l) := s in Server a true (S c) d l.

(** [port ? port : ...]: [undefined] and 0 are falsy. *)
Definition port_truthy (port : option Z) : bool :=
  match port with
  | Some p => negb (p =? 0)
  | None => false
  end.

(** [Zotero.Server.init(port, bindAllAddr, maxConcurrentConnections)] *)
Definition server_init (H : platform) (w : world) (port : option Z)
    (bindAllAddr : bool) (s : server) : server :=
  if browserIsOffline w then
    let s := server_debug (js "Browser is offline -- not initializing HTTP server") s in
    registerOnlineObserver s
  else
    match serv s with
    | Some sock =>
        server_debug (js "Already listening on port " ++ number_to_string (sock_port sock)) s
    | None =>
        let s :=
          (* start listening on socket *)
          match bound w with
          | Some actual =>
              let sock := {| requested := if port_truthy port then default 0 port
                                          else httpServer_port H;
                             sock_port := actual;
                             loopbackOnly := negb bindAllAddr |} in
              let '(Server _ b c d l) := s in
              let s := Server (Some sock) b c d l in
              let s :=
                server_debug (js "HTTP server listening on "
                                ++ (if bindAllAddr then js "*" else js " 127.0.0.1")
                                ++ js ":" ++ number_to_string actual) s in
              (* Close port on Zotero shutdown *)
              if has_addShutdownListener H then
                let '(Server a b c d l) := s in Server a b c (S d) l
              else s
          | None =>
              let s := server_debug (js "Not initializing HTTP server") s in
              let '(Server _ b c d l) := s in Server None b c d l
          end in
        registerOnlineObserver s
    end.

(** [Zotero.Server.close()] *)
Definition server_close (s : server) : server :=
  match serv s with
  | None => s
  | Some _ => let '(Server _ b c d l) := s in Server None b c d l
  end.

(** What happens to the server: a call of [init] or [close], a
    notification of the observer service, which runs every observer
    added, and the shutdown of the application, which runs every
    shutdown listener. *)
Inductive server_event :=
| CallInit (w : world) (port : option Z) (bindAllAddr : bool)
| CallClose
| Notify (w : world) (data : jsstring)
| Shutdown.

Definition server_step (H : platform) (s : server) (ev : server_event) : server :=
  match ev with
  | CallInit w port bindAllAddr => server_init H w port bindAllAddr s
  | CallClose => server_close s
  | Notify w data =>
      if bool_decide (data = js "online")
      then Nat.iter (observers s) (server_init H w None false) s
      else s
  | Shutdown => Nat.iter (shutdownListeners s) server_close s
  end.

Definition server_run (H : platform) (evs : list server_event) : server :=
  foldl (server_step H) new_server evs.

Definition is_init (ev : server_event) : bool :=
  match ev with CallInit _ _ _ => true | _ => false end.

Definition binds_all (ev : server_event) : bool :=
  match ev with CallInit _ _ bindAllAddr => bindAllAddr | _ => false end.

(** One observer for a raised flag, none otherwise; and a server that
    listens has registered its observer. *)
Definition registered_once (s : server) : Prop :=
  observers s = (if onlineObserverRegistered s then 1 else 0)%nat
  /\ (serv s <> None -> onlineObserverRegistered s = true).

(** A server that listens does so on the loopback address. *)
Definition loopback (s : server) : Prop :=
  forall sock, serv s = Some sock -> loopbackOnly sock = true.

(** * Properties *)

(** ** Delivery in chunks *)

(** C1 (the code departs from it): a request delivered whole and the same
    request delivered one byte at a time are not parsed alike.  Whole, the
    handler of [/echo] receives the body [ab]; byte by byte, the carriage
    return that follows the last header line ends the header, the line
    feed after it is counted as body, and the handler receives a line feed
    and [a].  Cut after the third byte of the terminator, the header never
    ends: no handler is called and nothing is written. *)
Theorem C1_chunking_changes_body :
  dispatched_data (run sample_env [Data post_echo]) = [DString (js "ab")]
  /\ head (dispatched_data (run sample_env ((fun c => Data [c]) <$> post_echo)))
     = Some (DString (LF :: js "a"))
  /\ (let cut := (length post_echo - 3)%nat in
      let c := run sample_env [Data (take cut post_echo); Data (drop cut post_echo)] in
      calls c = [] /\ oStream c = [] /\ headerFinished c = false).
Proof. vm_compute. repeat split; reflexivity. Qed.

(** ** The multipart decoder *)

Lemma find_sub_indexOf_ge s p : -1 <= indexOf s p.
Proof. unfold indexOf. destruct (find_sub p s); lia. Qed.

(** A segment is decoded exactly when it holds the Windows separator:
    without it the first test compares an index with -1 and fails, and
    the second test fails too. *)
Lemma decode_field_fails_iff field :
  decode_field field = None <-> indexOf (trim field) (CRLF ++ CRLF) = -1.
Proof.
  unfold decode_field.
  pose proof (find_sub_indexOf_ge (trim field) [LF; LF]) as Hu.
  set (u := indexOf _ [LF; LF]) in *.
  set (w := indexOf _ (CRLF ++ CRLF)).
  split.
  - intros H.
    destruct ((u <? w) && negb (u =? -1)) eqn:E1; [discriminate|].
    destruct (negb (w =? -1)) eqn:E2; [discriminate|].
    apply negb_false_iff in E2. lia.
  - intros ->.
    replace ((u <? -1) && negb (u =? -1)) with false; [reflexivity|].
    symmetry. apply andb_false_iff. left. lia.
Qed.

(** C2 (the code departs from it): a body whose only segment separates
    header and body by the Unix blank line, and holds no Windows one, is
    not split there: the whole decode fails. *)
Theorem C2_unix_separator_rejected :
  indexOf (trim (js "Content-Disposition: form-data; name=a" ++ [LF; LF] ++ js "1"))
          [LF; LF] = 38
  /\ split_str unix_field (js "--XYZ")
     = [ []; [LF] ++ js "Content-Disposition: form-data; name=a" ++ [LF; LF]
               ++ js "1" ++ [LF];
         js "--" ++ [LF] ]
  /\ decodeMultipartData unix_field (js "--XYZ") = None.
Proof. vm_compute. repeat split; reflexivity. Qed.

(** C3 (the code departs from it): of the body with the two fields [a]
    and [b] the decoder returns two descriptors, in order, with the right
    header and body, but neither has a [name] property: each parameter of
    [Content-Disposition] is stored under its first character, with its
    second character as the value. *)
Theorem C3_name_attribute_missing :
  exists d1 d2 : gmap jsstring fval,
    decodeMultipartData two_fields (js "--XYZ") = Some [d1; d2]
    /\ d1 !! js "header" = Some (FStr (js "Content-Disposition: form-data; name=a"))
    /\ d1 !! js "body" = Some (FStr (js "1"))
    /\ d2 !! js "header" = Some (FStr (js "Content-Disposition: form-data; name=b"))
    /\ d2 !! js "body" = Some (FStr (js "2"))
    /\ d1 !! js "name" = None /\ d2 !! js "name" = None
    /\ d1 !! js "f" = Some (FStr (js "o")) /\ d1 !! js " " = Some (FStr (js "n"))
    /\ d2 !! js "f" = Some (FStr (js "o")) /\ d2 !! js " " = Some (FStr (js "n"))
    /\ size d1 = 4%nat /\ size d2 = 4%nat.
Proof.
  destruct (decodeMultipartData two_fields (js "--XYZ")) as [[|d1 [|d2 [|]]]|] eqn:E;
    try (vm_compute in E; discriminate).
  exists d1, d2. split; [reflexivity|].
  injection E as <- <-. vm_compute. repeat split; reflexivity.
Qed.

(** ** Errors in the dispatcher *)

(** C4 (the code departs from it): when the handler throws, the error
    does reach whoever awaits the dispatch, and a 500 is written, but the
    response has no body and no content type: the text meant for it is
    not passed to the response builder. *)
Theorem C4_error_response_has_no_body :
  let c := run sample_env [Data get_fail] in
  oStream c
  = [ js "HTTP/1.0 500 Internal Server Error" ++ CRLF
        ++ js "X-Zotero-Version: 5.0" ++ CRLF
        ++ js "X-Zotero-Connector-API-Version: 2" ++ CRLF
        ++ js "Content-Length: 0" ++ CRLF ++ CRLF ]
  /\ rejections c = [Thrown (js "boom")]
  /\ generateResponse sample_env c 500 None None
     <> generateResponse sample_env c 500 (Some (js "text/plain"))
          (Some (js "An error occurred" ++ [LF])).
Proof. vm_compute. repeat split; [reflexivity .. | discriminate]. Qed.

(** ** Status lines *)

(** C9 (the code departs from it): the table of reason phrases has no
    entry for 403, so the response that refuses a bookmarklet its access
    to an endpoint carries the text [undefined] in place of a reason
    phrase. *)
Theorem C9_forbidden_has_no_reason_phrase :
  responseCodes !! 403 = None
  /\ oStream (run sample_env [Data get_echo_from_bookmarklet])
     = [ js "HTTP/1.0 403 undefined" ++ CRLF
           ++ js "X-Zotero-Version: 5.0" ++ CRLF
           ++ js "X-Zotero-Connector-API-Version: 2" ++ CRLF
           ++ js "Access-Control-Allow-Origin: https://www.zotero.org" ++ CRLF
           ++ js "Access-Control-Allow-Methods: POST, GET, OPTIONS" ++ CRLF
           ++ js "Access-Control-Allow-Headers: Content-Type,X-Zotero-Connector-API-Version,X-Zotero-Version" ++ CRLF
           ++ js "Content-Type: text/plain" ++ CRLF ++ CRLF
           ++ js "Access forbidden to bookmarklet" ++ [LF] ].
Proof. vm_compute. split; reflexivity. Qed.

(** ** Query strings *)

Lemma is_prefix_length p s : is_prefix p s = true -> (length p <= length s)%nat.
Proof.
  revert s. induction p as [|a p IH]; intros [|b s]; simpl; try lia; try discriminate.
  intros [_ H]%andb_true_iff. apply IH in H. lia.
Qed.

Lemma find_sub_bound p s i : find_sub p s = Some i -> (i + length p <= length s)%nat.
Proof.
  revert i. induction s as [|c s IH]; intros i; simpl.
  - destruct (is_prefix p []) eqn:E; [|discriminate].
    intros [= <-]. apply is_prefix_length in E. simpl in *. lia.
  - destruct (is_prefix p (c :: s)) eqn:E.
    + intros [= <-]. apply is_prefix_length in E. simpl in *. lia.
    + destruct (find_sub p s) as [j|]; [|discriminate].
      intros [= <-]. specialize (IH j eq_refl). simpl. lia.
Qed.

Lemma substr_all s : substr s 0 None = s.
Proof.
  unfold substr, len. simpl. rewrite Z.sub_0_r.
  destruct s as [|c s]; [reflexivity|].
  destruct (Z.leb_spec (Z.of_nat (length (c :: s))) 0) as [E|E]; [simpl in E; lia|].
  rewrite Nat2Z.id. rewrite drop_0. apply firstn_all.
Qed.

Lemma substr_negative_length s : substr s 0 (Some (-1)) = [].
Proof.
  unfold substr, len. cbv zeta.
  destruct (Z.leb_spec (Z.min (Z.max (-1) 0) (Z.of_nat (length s) - (if 0 <? 0 then Z.max (Z.of_nat (length s) + 0) 0 else 0))) 0) as [E|E];
    [reflexivity|]. simpl in E. lia.
Qed.

Lemma substr_prefix s n :
  0 < n < len s -> substr s 0 (Some n) = take (Z.to_nat n) s.
Proof.
  unfold substr, len. intros H. cbv zeta. change (0 <? 0) with false. cbv iota.
  replace (Z.min (Z.max n 0) (Z.of_nat (length s) - 0)) with n by lia.
  destruct (Z.leb_spec n 0); [lia|]. by rewrite drop_0.
Qed.

Lemma uri_tokens_nonempty s ts : uri_tokens s = Some ts -> s <> [] -> ts <> [].
Proof.
  destruct s as [|c rest]; [done|]. simpl. intros H _.
  destruct (c =? 37)%N.
  - destruct rest as [|h [|l rest']]; try discriminate.
    destruct (hex_val h), (hex_val l); try discriminate.
    destruct (uri_tokens rest'); simpl in H; [|discriminate]. by injection H as <-.
  - destruct (uri_tokens rest); simpl in H; [|discriminate]. by injection H as <-.
Qed.

Lemma code_units_nonempty v : code_units v <> [].
Proof. unfold code_units. by destruct (v <? 65536)%N. Qed.

Lemma fmap_app_nonempty (u : jsstring) (o : option jsstring) r :
  u <> [] -> app u <$> o = Some r -> r <> [].
Proof.
  intros Hu. destruct o as [x|]; simpl; [|discriminate]. intros [= <-].
  destruct u; [done|discriminate].
Qed.

Lemma uri_decode_nonempty ts r : uri_decode ts = Some r -> ts <> [] -> r <> [].
Proof.
  destruct ts as [|[c|b] rest]; [done| |]; simpl; intros H _.
  - by apply (fmap_app_nonempty [c]) in H.
  - repeat case_match; try discriminate;
      first [ by apply (fmap_app_nonempty [b]) in H
            | by eapply fmap_app_nonempty in H; [|apply code_units_nonempty] ].
Qed.

Lemma decodeURIComponent_nonempty s r :
  decodeURIComponent s = Some r -> s <> [] -> r <> [].
Proof.
  unfold decodeURIComponent. destruct (uri_tokens s) as [ts|] eqn:E; [|discriminate].
  simpl. intros H Hs. eapply uri_decode_nonempty; [exact H|].
  by eapply uri_tokens_nonempty.
Qed.

Lemma decode_variables_None l : decode_variables None l = None.
Proof. induction l; simpl; auto. Qed.

Lemma decode_variables_app o l1 l2 :
  decode_variables o (l1 ++ l2) = decode_variables (decode_variables o l1) l2.
Proof. unfold decode_variables. apply foldl_app. Qed.

(** A segment without [=] stores its decoded text under the empty name. *)
Lemma decode_variable_bare d v :
  indexOf v (js "=") = -1 ->
  decode_variable d v = (fun x => <[ [] := x ]> d) <$> decodeURIComponent v.
Proof.
  intros H. unfold decode_variable. rewrite H. simpl.
  rewrite substr_negative_length, substr_all.
  change (decodeURIComponent []) with (Some ([] : jsstring)). simpl.
  by destruct (decodeURIComponent v).
Qed.

(** A segment with a non-empty name leaves the empty name alone. *)
Lemma decode_variable_named d w d' :
  0 < indexOf w (js "=") -> decode_variable d w = Some d' -> d' !! [] = d !! [].
Proof.
  unfold decode_variable, indexOf.
  destruct (find_sub (js "=") w) as [i|] eqn:E; [|lia].
  intros Hi. apply find_sub_bound in E. change (length (js "=")) with 1%nat in E.
  rewrite substr_prefix by (unfold len; lia).
  destruct (decodeURIComponent (take _ w)) as [k|] eqn:Ek; [|discriminate]. simpl.
  destruct (decodeURIComponent (substr _ _ _)) as [x|]; [|discriminate]. simpl.
  intros [= <-]. apply lookup_insert_ne.
  eapply decodeURIComponent_nonempty; [exact Ek|].
  rewrite Nat2Z.id. destruct w; simpl in *; [lia|]. destruct i; [lia|done].
Qed.

Lemma decode_variables_named after : forall d m,
  (forall w, w ∈ after -> 0 < indexOf w (js "=")) ->
  decode_variables (Some d) after = Some m -> m !! [] = d !! [].
Proof.
  induction after as [|w after IH]; intros d m Hall; simpl.
  - by intros [= <-].
  - destruct (decode_variable d w) as [d'|] eqn:E.
    + intros H. rewrite (IH d' m); [|intros; apply Hall; by right|exact H].
      eapply decode_variable_named; [|exact E]. apply Hall. by left.
    + fold (decode_variables None after). by rewrite decode_variables_None.
Qed.

(** C10: a segment [v] of the query string without [=] makes the loop
    store the decoded text of the whole segment under the empty name,
    over whatever an earlier such segment stored there, and the result of
    [decodeQueryString] still has it there unless a later segment has an
    empty name too. *)
Theorem C10_bare_segment_key_is_empty
    (queryString : jsstring) (before after : list jsstring) (v : jsstring)
    (m : gmap jsstring jsstring) :
  split_str queryString (js "&") = before ++ v :: after ->
  indexOf v (js "=") = -1 ->
  decodeQueryString queryString = Some m ->
  exists d x,
    decodeURIComponent v = Some x
    /\ decode_variables (Some ∅) before = Some d
    /\ decode_variables (Some ∅) (before ++ [v]) = Some (<[ [] := x ]> d)
    /\ ((forall w, w ∈ after -> 0 < indexOf w (js "=")) -> m !! [] = Some x).
Proof.
  intros Hsplit Hbare. unfold decodeQueryString. rewrite Hsplit.
  rewrite decode_variables_app.
  destruct (decode_variables (Some ∅) before) as [d|] eqn:Eb;
    [|by rewrite decode_variables_None].
  change (decode_variables (Some d) (v :: after))
    with (decode_variables (decode_variable d v) after).
  rewrite decode_variable_bare by exact Hbare.
  destruct (decodeURIComponent v) as [x|] eqn:Ex; simpl;
    [|by rewrite decode_variables_None].
  intros Hm. exists d, x. repeat split.
  - rewrite decode_variables_app, Eb.
    change (decode_variables (Some d) [v]) with (decode_variable d v).
    by rewrite decode_variable_bare, Ex.
  - intros Hall. rewrite (decode_variables_named after _ m Hall Hm).
    apply lookup_insert_eq.
Qed.

Lemma C10_witness :
  exists d x,
    decodeURIComponent (js "b%20c") = Some x
    /\ decode_variables (Some ∅) [js "a"; js "k=1"] = Some d
    /\ decode_variables (Some ∅) ([js "a"; js "k=1"] ++ [js "b%20c"]) = Some (<[ [] := x ]> d)
    /\ ((forall w, w ∈ [js "z=2"] -> 0 < indexOf w (js "=")) ->
        (<[js "z" := js "2"]> (<[ [] := js "b c" ]> (<[js "k" := js "1"]> (<[ [] := js "a" ]> ∅)))
           : gmap jsstring jsstring) !! [] = Some x).
Proof.
  apply (C10_bare_segment_key_is_empty (js "a&k=1&b%20c&z=2") [js "a"; js "k=1"] [js "z=2"]).
  - vm_compute. reflexivity.
  - vm_compute. reflexivity.
  - vm_compute. reflexivity.
Defined.

(** ** At most one response *)


Section AtMostOnce.
Variable E : env.

Lemma follows_refl c : guarded c -> guarded c /\ follows c c.
Proof. intros H. split; [exact H|]. left. done. Qed.

Lemma keeps_same f :
  (forall s, oStream (f s) = oStream s /\ responseSent (f s) = responseSent s) ->
  keeps f.
Proof.
  intros Hf c s [Hg Hfo]. destruct (Hf s) as [Ho Hr]. split.
  - unfold guarded in *. by rewrite Hr, Ho.
  - unfold follows in *. rewrite Hr, Ho. exact Hfo.
Qed.

Lemma keeps_id : keeps (fun s => s).
Proof. by apply keeps_same. Qed.

Lemma keeps_compose f g : keeps f -> keeps g -> keeps (fun s => g (f s)).
Proof. intros Hf Hg c s H. apply Hg, Hf, H. Qed.

Lemma keeps_set_header v : keeps (set_header v).
Proof. apply keeps_same. by intros []. Qed.
Lemma keeps_set_headerFinished v : keeps (set_headerFinished v).
Proof. apply keeps_same. by intros []. Qed.
Lemma keeps_set_body v : keeps (set_body v).
Proof. apply keeps_same. by intros []. Qed.
Lemma keeps_set_bodyLength v : keeps (set_bodyLength v).
Proof. apply keeps_same. by intros []. Qed.
Lemma keeps_set_origin v : keeps (set_origin v).
Proof. apply keeps_same. by intros []. Qed.
Lemma keeps_set_contentType v : keeps (set_contentType v).
Proof. apply keeps_same. by intros []. Qed.
Lemma keeps_set_pathname v : keeps (set_pathname v).
Proof. apply keeps_same. by intros []. Qed.
Lemma keeps_set_endpoint v : keeps (set_endpoint v).
Proof. apply keeps_same. by intros []. Qed.
Lemma keeps_set_query v : keeps (set_query v).
Proof. apply keeps_same. by intros []. Qed.
Lemma keeps_set_iStream_closed v : keeps (set_iStream_closed v).
Proof. apply keeps_same. by intros []. Qed.
Lemma keeps_set_oStream_closed v : keeps (set_oStream_closed v).
Proof. apply keeps_same. by intros []. Qed.
Lemma keeps_set_pending v : keeps (set_pending v).
Proof. apply keeps_same. by intros []. Qed.
Lemma keeps_debug msg : keeps (debug msg).
Proof. apply keeps_same. by intros []. Qed.
Lemma keeps_record_call i : keeps (record_call i).
Proof. apply keeps_same. by intros []. Qed.
Lemma keeps_reject e : keeps (reject e).
Proof. apply keeps_same. by intros []. Qed.

(** The guard of [_requestFinished]. *)
Lemma keeps_requestFinished response : keeps (requestFinished response).
Proof.
  intros c s [Hg Hf]. unfold requestFinished.
  destruct (responseSent s) eqn:Hs.
  - apply keeps_debug. done.
  - unfold guarded in Hg. rewrite Hs in Hg.
    destruct Hf as [[Ho Hr]|(_ & Hr & _)]; [|congruence].
    rewrite Hs in Hr. rewrite Hg in Ho.
    destruct s; simpl in *. subst. split.
    + unfold guarded. simpl. eauto.
    + right. simpl. eauto.
Qed.

Lemma keeps_respond_with (g : conn -> jsstring) :
  keeps (fun s => requestFinished (g s) s).
Proof. intros c s H. by apply keeps_requestFinished. Qed.

Lemma keeps_sendResponseCallback a : keeps (sendResponseCallback E a).
Proof. apply keeps_respond_with. Qed.

Lemma keeps_respond status contentType body :
  keeps (respond E status contentType body).
Proof. apply keeps_respond_with. Qed.

Lemma keeps_callbacks l :
  keeps (fun me => foldl (fun me a => sendResponseCallback E a me) me l).
Proof.
  induction l as [|a l IH]; simpl; [apply keeps_id|].
  intros c s H. apply IH. by apply keeps_sendResponseCallback.
Qed.

Lemma keepsM_ret {A} (a : A) : keepsM (mret a).
Proof. intros c s H. exact H. Qed.
Lemma keepsM_throw {A} e : keepsM (@throw A e).
Proof. intros c s H. exact H. Qed.
Lemma keepsM_return {A} : keepsM (@return_ A).
Proof. intros c s H. exact H. Qed.
Lemma keepsM_this : keepsM this_.
Proof. intros c s H. exact H. Qed.
Lemma keepsM_try {A} e (o : option A) : keepsM (try_ e o).
Proof. intros c s H. destruct o; exact H. Qed.
Lemma keepsM_act f : keeps f -> keepsM (act f).
Proof. intros H. exact H. Qed.

Lemma keepsM_bind {A B} (m : M A) (f : A -> M B) :
  keepsM m -> (forall a, keepsM (f a)) -> keepsM (m ≫= f).
Proof.
  intros Hm Hf c s H. specialize (Hm c s H). cbv beta in Hm. revert Hm.
  unfold mbind, M_bind. destruct (m s) as [[a| |e] s']; simpl; auto.
  exact (Hf a c s').
Qed.

Lemma keepsM_fmap {A B} (g : A -> B) (m : M A) : keepsM m -> keepsM (g <$> m).
Proof.
  intros Hm c s H. specialize (Hm c s H). cbv beta in Hm. revert Hm.
  unfold fmap, M_fmap. by destruct (m s) as [[a| |e] s'].
Qed.

Lemma keepsM_when b m : keepsM m -> keepsM (when b m).
Proof. intros H. destruct b; [exact H|apply keepsM_ret]. Qed.

Lemma keeps_set_pending_with (g : conn -> list pending_item) :
  keeps (fun me => set_pending (g me) me).
Proof. intros c s H. by apply keeps_set_pending. Qed.

Lemma keepsM_decode_query q : keepsM (decode_query q).
Proof. unfold decode_query. destruct (truthy q); [apply keepsM_try|apply keepsM_ret]. Qed.

Lemma keepsM_send_result v : keepsM (send_result E v).
Proof.
  destruct v; simpl;
    first [apply keepsM_throw | apply keepsM_act, keeps_sendResponseCallback].
Qed.

Lemma keepsM_run_callbacks o : keepsM (run_callbacks E o).
Proof.
  unfold run_callbacks.
  apply keepsM_bind; [apply keepsM_act, keeps_callbacks|intros _].
  apply keepsM_bind; [apply keepsM_act, keeps_set_pending_with|intros _].
  destruct (throws o); [apply keepsM_throw|apply keepsM_ret].
Qed.

Lemma keepsM_processEndpoint_try method postData :
  keepsM (processEndpoint_try E method postData).
Proof.
  unfold processEndpoint_try.
  repeat first
    [ apply keepsM_ret | apply keepsM_throw | apply keepsM_return
    | apply keepsM_this | apply keepsM_try
    | apply keepsM_decode_query | apply keepsM_send_result
    | apply keepsM_run_callbacks
    | apply keepsM_bind; [|intros ?]
    | apply keepsM_fmap | apply keepsM_when
    | apply keepsM_act;
        first [ apply keeps_respond | apply keeps_record_call
              | apply keeps_set_pending_with ]
    | progress cbv zeta
    | case_match ].
Qed.

Lemma keeps_catch m : keepsM m -> keeps (catch_ E m).
Proof.
  intros Hm c s H. specialize (Hm c s H). cbv beta in Hm. revert Hm.
  unfold catch_. destruct (m s) as [[a| |e] s']; simpl; auto.
  intros Hm.
  apply keeps_reject, (keeps_respond_with (fun s => generateResponse E s 500 None None)), keeps_debug, Hm.
Qed.

Lemma keeps_processEndpoint method postData :
  keeps (processEndpoint E method postData).
Proof. apply keeps_catch, keepsM_processEndpoint_try. Qed.

Lemma keeps_resume s : keeps (resume E s).
Proof.
  apply keeps_catch. destruct s; [apply keepsM_send_result|apply keepsM_throw].
Qed.

Lemma keeps_bodyData : keeps (bodyData E).
Proof.
  intros c s H. unfold bodyData. case_match; [|exact H].
  apply keeps_processEndpoint, keeps_set_body, H.
Qed.

Lemma keeps_headerFinished : keeps (headerFinished_ E).
Proof.
  intros c s H. unfold headerFinished_. cbv zeta.
  repeat case_match;
    repeat first
      [ exact H
      | apply keeps_respond | apply keeps_requestFinished
      | apply keeps_processEndpoint | apply keeps_bodyData
      | apply keeps_set_bodyLength | apply keeps_set_query
      | apply keeps_set_endpoint | apply keeps_set_pathname
      | apply keeps_set_contentType | apply keeps_set_origin
      | apply keeps_debug | apply keeps_set_headerFinished ].
Qed.

Lemma keeps_onDataAvailable readData : keeps (onDataAvailable E readData).
Proof.
  intros c s H. unfold onDataAvailable. cbv zeta.
  repeat case_match;
    repeat first
      [ exact H
      | apply keeps_headerFinished | apply keeps_bodyData
      | apply keeps_set_body | apply keeps_set_header ].
Qed.

Lemma keeps_fire i : keeps (fire E i).
Proof.
  intros c s H. unfold fire. repeat case_match; try exact H.
  - apply keeps_resume, keeps_set_pending, H.
  - apply keeps_sendResponseCallback, keeps_set_pending, H.
Qed.

Lemma keeps_step ev : keeps (fun s => step E s ev).
Proof.
  destruct ev; simpl.
  - apply keeps_onDataAvailable.
  - apply keeps_fire.
  - intros c s H. by apply keeps_set_oStream_closed, keeps_set_iStream_closed.
Qed.

Lemma keeps_steps evs : keeps (fun s => foldl (step E) s evs).
Proof.
  induction evs as [|ev evs IH]; simpl; [apply keeps_id|].
  intros c s H. apply IH. by apply keeps_step.
Qed.
End AtMostOnce.

(** C5: on every connection, whatever data arrives and whatever the
    handlers do and when, at most one response is written to the output
    stream; once one is written, nothing that follows changes the stream;
    and a second run of the completion path does nothing but log that the
    request is already finished. *)
Theorem C5_at_most_one_response (E : env) (evs more : list event)
    (r1 r2 : jsstring) (c : conn) :
  (length (oStream (run E evs)) <= 1)%nat
  /\ (oStream (run E evs) <> [] ->
      oStream (run E (evs ++ more)) = oStream (run E evs))
  /\ requestFinished r2 (requestFinished r1 c)
     = debug (js "Request already finished; not sending another response")
             (requestFinished r1 c).
Proof.
  assert (Hnew : guarded new_conn /\ follows new_conn new_conn)
    by (split; [reflexivity|by left]).
  split; [|split].
  - destruct (keeps_steps E evs _ _ Hnew) as [Hg _]. fold (run E evs) in Hg.
    unfold guarded in Hg. destruct (responseSent (run E evs)).
    + destruct Hg as [r ->]. simpl. lia.
    + rewrite Hg. simpl. lia.
  - intros Hne. unfold run. rewrite foldl_app. fold (run E evs).
    destruct (keeps_steps E evs _ _ Hnew) as [Hg _]. fold (run E evs) in Hg.
    destruct (keeps_steps E more (run E evs) (run E evs)) as [_ Hf].
    { split; [exact Hg|by left]. }
    destruct Hf as [[Ho _]|(_ & _ & Ho & _)]; [exact Ho|contradiction].
  - unfold requestFinished at 1.
    replace (responseSent (requestFinished r1 c)) with true; [reflexivity|].
    unfold requestFinished. destruct (responseSent c) eqn:Hs.
    + by destruct c.
    + by destruct c.
Qed.

(** ** The response builder *)

Lemma generateResponse_lines E this status contentType body :
  generateResponse E this status contentType body
  = unlines (status_line status :: header_lines E this contentType body)
      ++ CRLF ++ (if truthy body then default [] body else []).
Proof.
  unfold generateResponse, header_lines, unlines, status_line.
  destruct (negb (isServer E)), (truthy contentType), (truthy body);
    cbv zeta; repeat case_match;
    cbn [fmap list_fmap concat app]; rewrite <- ?app_assoc; cbn [app];
    rewrite ?app_nil_r; reflexivity.
Qed.

Lemma single_line_app a b : single_line (a ++ b) = single_line a && single_line b.
Proof. apply forallb_app. Qed.

Lemma find_blank_skip c s :
  c <> CR -> find_sub (CRLF ++ CRLF) (c :: s) = S <$> find_sub (CRLF ++ CRLF) s.
Proof.
  intros Hc. change (CRLF ++ CRLF) with [CR; LF; CR; LF].
  cbn [find_sub is_prefix]. by destruct (N.eqb_spec CR c) as [<-|_].
Qed.

Lemma none_of_CR c : none_of [CR; LF] c = true -> c <> CR /\ c <> LF.
Proof.
  unfold none_of. rewrite negb_true_iff, bool_decide_eq_false.
  intros H. split; intros ->; apply H; set_solver.
Qed.

Lemma find_blank_line_prefix l s :
  single_line l = true ->
  find_sub (CRLF ++ CRLF) (l ++ s)
  = (fun i => (length l + i)%nat) <$> find_sub (CRLF ++ CRLF) s.
Proof.
  induction l as [|c l IH]; intros H.
  - simpl. by destruct (find_sub _ s).
  - simpl in H. apply andb_true_iff in H as [Hc Hl].
    apply none_of_CR in Hc as [Hc _].
    change ((c :: l) ++ s) with (c :: (l ++ s)).
    rewrite find_blank_skip by exact Hc. rewrite IH by exact Hl.
    by destruct (find_sub _ s).
Qed.

Lemma unlines_cons l ls x :
  unlines (l :: ls) ++ x = l ++ CRLF ++ unlines ls ++ x.
Proof. unfold unlines. simpl. by rewrite <- !app_assoc. Qed.

Lemma find_blank_at_line_end c t :
  c <> CR ->
  find_sub (CRLF ++ CRLF) (CRLF ++ c :: t)
  = (fun i => S (S i)) <$> find_sub (CRLF ++ CRLF) (c :: t).
Proof.
  intros Hc. change (CRLF ++ c :: t) with (CR :: LF :: c :: t).
  change (CRLF ++ CRLF) with [CR; LF; CR; LF].
  cbn [find_sub is_prefix].
  destruct (N.eqb_spec CR c) as [E|_]; [by rewrite <- E in Hc|].
  change (CR =? CR)%N with true. change (LF =? LF)%N with true.
  change (CR =? LF)%N with false. cbn [andb].
  destruct (find_sub _ t); reflexivity.
Qed.

(** The first blank line of a response comes after its last header
    line, when no line is empty or holds a line break. *)
Lemma find_blank_lines ls rest :
  ls <> [] ->
  Forall (fun l => l <> [] /\ single_line l = true) ls ->
  find_sub (CRLF ++ CRLF) (unlines ls ++ CRLF ++ rest)
  = Some (length (joined ls)).
Proof.
  induction ls as [|l ls IH]; [done|]. intros _ Hall.
  apply Forall_cons in Hall as [[Hne Hl] Hall].
  rewrite unlines_cons, find_blank_line_prefix by exact Hl.
  destruct ls as [|l' ls].
  - simpl. by rewrite Nat.add_0_r.
  - specialize (IH ltac:(done) Hall).
    pose proof Hall as Hall'. apply Forall_cons in Hall' as [[Hne' Hl'] _].
    destruct l' as [|c' l']; [done|].
    simpl in Hl'. apply andb_true_iff in Hl' as [Hc' _].
    apply none_of_CR in Hc' as [Hc' _].
    rewrite unlines_cons in IH |- *.
    change ((c' :: l') ++ ?x) with (c' :: (l' ++ x)) in IH |- *.
    rewrite find_blank_at_line_end by exact Hc'. rewrite IH.
    change (joined (l :: (c' :: l') :: ls))
      with (l ++ CRLF ++ joined ((c' :: l') :: ls)).
    simpl. f_equal. rewrite !length_app. simpl. lia.
Qed.

Lemma unlines_joined ls : ls <> [] -> unlines ls = joined ls ++ CRLF.
Proof.
  induction ls as [|l ls IH]; [done|]. intros _.
  rewrite <- (app_nil_r (unlines (l :: ls))), unlines_cons, app_nil_r.
  destruct ls as [|l' ls]; [reflexivity|].
  rewrite IH by done.
  change (joined (l :: l' :: ls)) with (l ++ CRLF ++ joined (l' :: ls)).
  by rewrite <- !app_assoc.
Qed.

Lemma split_go_line l : forall rest cur,
  single_line l = true ->
  split_go CRLF (l ++ rest) cur 0 = split_go CRLF rest (rev l ++ cur) 0.
Proof.
  induction l as [|c l IH]; intros rest cur H; [reflexivity|].
  simpl in H. apply andb_true_iff in H as [Hc Hl].
  apply none_of_CR in Hc as [Hc _].
  change ((c :: l) ++ rest) with (c :: (l ++ rest)).
  cbn [split_go is_prefix CRLF].
  destruct (N.eqb_spec CR c) as [E|_]; [by rewrite <- E in Hc|].
  cbn [andb]. rewrite IH by exact Hl. simpl. by rewrite <- app_assoc.
Qed.

Lemma split_joined ls :
  ls <> [] -> Forall (fun l => single_line l = true) ls ->
  split_str (joined ls) CRLF = ls.
Proof.
  unfold split_str. simpl.
  induction ls as [|l ls IH]; [done|]. intros _ Hall.
  apply Forall_cons in Hall as [Hl Hall].
  destruct ls as [|l' ls].
  - simpl. rewrite <- (app_nil_r l) at 1. rewrite split_go_line by exact Hl.
    simpl. by rewrite app_nil_r, rev_involutive.
  - change (joined (l :: l' :: ls)) with (l ++ CRLF ++ joined (l' :: ls)).
    rewrite split_go_line by exact Hl.
    change (CRLF ++ ?x) with (CR :: LF :: x). simpl split_go at 1.
    rewrite app_nil_r, rev_involutive. f_equal.
    apply IH; [done|exact Hall].
Qed.

Lemma digits_uint_digits u : digits_uint (uint_digits u) = Some u.
Proof. induction u; simpl; [reflexivity|rewrite IHu; reflexivity ..]. Qed.

Lemma uint_digits_all u : forallb is_digit (uint_digits u) = true.
Proof. induction u; simpl; auto. Qed.

Lemma string_to_number_to_string z : string_to_number (number_to_string z) = Some z.
Proof.
  unfold number_to_string. rewrite <- (DecimalZ.of_to z) at 2.
  destruct (Z.to_int z) as [u|u] eqn:E.
  - assert (Hu : u <> Decimal.Nil).
    { intros ->. destruct z; simpl in E; try discriminate.
      injection E. apply DecimalPos.Unsigned.to_uint_nonnil. }
    unfold string_to_number.
    pose proof (digits_uint_digits u) as Hd.
    destruct u; try done; cbn [uint_digits]; cbn [uint_digits] in Hd;
      rewrite Hd; reflexivity.
  - unfold string_to_number. cbn [uint_digits]. change (45 =? 45)%N with true.
    cbv iota. by rewrite digits_uint_digits.
Qed.

Lemma span_prefix p w c r :
  forallb p w = true -> p c = false -> span p (w ++ c :: r) = (w, c :: r).
Proof.
  intros Hw Hc. induction w as [|a w IH]; simpl in *.
  - by rewrite Hc.
  - apply andb_true_iff in Hw as [-> Hw]. by rewrite IH.
Qed.

Lemma number_to_string_chars z :
  forallb (fun c => is_digit c || (c =? 45)%N) (number_to_string z) = true.
Proof.
  unfold number_to_string.
  assert (H : forall u, forallb (fun c => is_digit c || (c =? 45)%N) (uint_digits u) = true)
    by (induction u; simpl; auto).
  destruct (Z.to_int z); simpl; auto.
Qed.

Lemma forallb_impl (p q : N -> bool) l :
  (forall c, p c = true -> q c = true) -> forallb p l = true -> forallb q l = true.
Proof.
  intros Hpq. induction l as [|a l IH]; simpl; [done|].
  intros [Ha Hl]%andb_true_iff. by rewrite (Hpq a Ha), IH.
Qed.

Lemma digit_or_minus_plain c :
  is_digit c || (c =? 45)%N = true ->
  none_of [CR; LF] c = true /\ negb (c =? 32)%N = true.
Proof.
  unfold is_digit, none_of. intros H. split.
  - apply negb_true_iff, bool_decide_eq_false. intros Hin.
    apply elem_of_cons in Hin as [->|Hin]; [done|].
    apply elem_of_cons in Hin as [->|Hin]; [done|]. by apply elem_of_nil in Hin.
  - destruct (N.eqb_spec c 32) as [->|]; done.
Qed.

Lemma parse_status_line_status status : parse_status_line (status_line status) = Some status.
Proof.
  unfold parse_status_line, status_line.
  change (js "HTTP/1.0 " ++ ?x) with (72 :: 84 :: 84 :: 80 :: 47 :: 49 :: 46 :: 48 :: 32 :: x)%N.
  change (js "HTTP/1.0 ") with [72; 84; 84; 80; 47; 49; 46; 48; 32]%N.
  cbn [strip_prefix chr_eq]. 
  change (js " " ++ ?x) with (32%N :: x).
  simpl. rewrite span_prefix.
  - apply string_to_number_to_string.
  - eapply forallb_impl; [|apply number_to_string_chars].
    intros c Hc. by apply digit_or_minus_plain in Hc as [_ ?].
  - reflexivity.
Qed.

Lemma responseCodes_single_line status :
  single_line (default (js "undefined") (responseCodes !! status)) = true.
Proof.
  destruct (responseCodes !! status) as [r|] eqn:E; [|reflexivity].
  apply elem_of_list_to_map_2 in E. simpl.
  repeat (apply elem_of_cons in E as [E|E]; [injection E as _ ->; reflexivity|]).
  by apply elem_of_nil in E.
Qed.

Lemma status_line_wf status :
  status_line status <> [] /\ single_line (status_line status) = true.
Proof.
  split; [done|]. unfold status_line.
  rewrite !single_line_app, responseCodes_single_line.
  assert (single_line (number_to_string status) = true) as ->; [|reflexivity].
  eapply forallb_impl; [|apply number_to_string_chars].
  intros c Hc. by apply digit_or_minus_plain in Hc as [? _].
Qed.

Lemma header_lines_wf E this contentType body :
  single_line (version E) = true ->
  single_line (default [] (origin this)) = true ->
  single_line (default [] contentType) = true ->
  Forall (fun l => l <> [] /\ single_line l = true)
         (header_lines E this contentType body).
Proof.
  intros Hv Ho Hc. unfold header_lines.
  assert (Hn : single_line (number_to_string (CONNECTOR_API_VERSION E)) = true).
  { eapply forallb_impl; [|apply number_to_string_chars].
    intros c H. by apply digit_or_minus_plain in H as [? _]. }
  repeat case_match;
    repeat first [ apply Forall_app; split | apply Forall_cons; split
                 | apply Forall_nil ];
    try (split; [done|]); rewrite ?single_line_app, ?Hv, ?Ho, ?Hc, ?Hn; reflexivity.
Qed.

Lemma content_length_header_iff E this contentType body :
  js "Content-Length: 0" ∈ header_lines E this contentType body
  <-> truthy body = false.
Proof.
  unfold header_lines. split.
  - intros H. destruct (truthy body); [|reflexivity]. exfalso.
    repeat (apply elem_of_app in H as [H|H]);
      repeat case_match;
      repeat (apply elem_of_cons in H as [H|H]; [discriminate H|]);
      by apply elem_of_nil in H.
  - intros ->. rewrite !elem_of_app. right. right. apply elem_of_cons. by left.
Qed.

(** C8: for every status, content type and body, given that the version
    string, the origin and the content type hold no line break, a client
    reads back from the response the status it was built with and, past
    the first blank line, exactly the body, or nothing when there is no
    body; and the line [Content-Length: 0] is among the headers if and
    only if there is no body.  As in the test of the builder, an empty
    string is no body. *)
Theorem C8_response_round_trip (E : env) (this : conn) (status : Z)
    (contentType body : option jsstring) :
  single_line (version E) = true ->
  single_line (default [] (origin this)) = true ->
  single_line (default [] contentType) = true ->
  exists headers,
    client_parse (generateResponse E this status contentType body)
    = Some (status, headers, if truthy body then default [] body else [])
    /\ (js "Content-Length: 0" ∈ headers <-> truthy body = false).
Proof.
  intros Hv Ho Hc. exists (header_lines E this contentType body).
  split; [|apply content_length_header_iff].
  rewrite generateResponse_lines.
  set (ls := status_line status :: header_lines E this contentType body).
  set (b := if truthy body then default [] body else []).
  assert (Hls : Forall (fun l => l <> [] /\ single_line l = true) ls).
  { apply Forall_cons. split; [apply status_line_wf|by apply header_lines_wf]. }
  unfold client_parse.
  rewrite find_blank_lines by done. cbn [mbind option_bind].
  rewrite unlines_joined by done. rewrite <- app_assoc.
  rewrite take_app_length.
  rewrite split_joined; [|done|eapply Forall_impl; [exact Hls|by intros ? [_ ?]]].
  unfold ls at 1. rewrite parse_status_line_status. cbn [mbind option_bind].
  do 3 f_equal.
  rewrite drop_app_add'; [|reflexivity]. reflexivity.
Qed.

Lemma C8_witness :
  exists headers,
    client_parse (generateResponse sample_env new_conn 200
                    (Some (js "text/plain")) (Some (js "hello")))
    = Some (200, headers, js "hello")
    /\ (js "Content-Length: 0" ∈ headers <-> truthy (Some (js "hello")) = false).
Proof.
  apply (C8_response_round_trip sample_env new_conn 200
           (Some (js "text/plain")) (Some (js "hello")));
    vm_compute; reflexivity.
Defined.

(** ** What the expressions of the header match *)

Section Soundness.
Context {R : Type}.
Variable icase : bool.
Variable size : nat.

Lemma rep_sound p : forall s min (k : jsstring -> option R) x,
  rep p min s k = Some x ->
  exists w s', s = w ++ s' /\ forallb p w = true /\ (min <= length w)%nat
               /\ k s' = Some x.
Proof.
  induction s as [|c s IH]; intros min k x; simpl.
  - destruct min; [|discriminate]. intros H. exists [], []. auto.
  - assert (Hstop : match min with O => k (c :: s) | S _ => None end = Some x ->
        exists w s', c :: s = w ++ s' /\ forallb p w = true
                     /\ (min <= length w)%nat /\ k s' = Some x).
    { destruct min; [|discriminate]. intros H. exists [], (c :: s). auto. }
    destruct (p c) eqn:Hc; [|exact Hstop].
    destruct (rep p (Nat.pred min) s k) as [y|] eqn:Hrep; [|exact Hstop].
    intros [= ->]. apply IH in Hrep as (w & s' & -> & Hw & Hmin & Hk).
    exists (c :: w), s'. simpl. rewrite Hc, Hw. repeat split; auto. lia.
Qed.

Lemma rmatch_sound r : forall s c (k : jsstring -> captures -> option R) x,
  rmatch icase size r s c k = Some x ->
  exists s' c', matches icase size r s s' /\ k s' c' = Some x.
Proof.
  induction r as [l|p|p|p|r1 IH1 r2 IH2|r1 IH1 r2 IH2|r1 IH1|n r1 IH1| |];
    intros s c k x; simpl.
  - destruct (strip_prefix icase l s) as [s'|] eqn:E; [|discriminate].
    intros H. exists s', c. split; [by constructor|done].
  - destruct s as [|a s]; [discriminate|]. destruct (p a) eqn:E; [|discriminate].
    intros H. exists s, c. split; [by constructor|done].
  - intros (w & s' & -> & Hw & _ & Hk)%rep_sound.
    exists s', c. split; [by constructor|done].
  - intros (w & s' & -> & Hw & Hmin & Hk)%rep_sound.
    exists s', c. split; [|done]. constructor; [|done].
    destruct w; simpl in Hmin; [lia|done].
  - intros (s' & c' & Hm1 & H)%IH1. apply IH2 in H as (s'' & c'' & Hm2 & H).
    exists s'', c''. split; [by econstructor|done].
  - destruct (rmatch icase size r1 s c k) as [y|] eqn:E.
    + intros [= ->]. apply IH1 in E as (s' & c' & Hm & H).
      exists s', c'. split; [by apply matches_Alt_l|done].
    + intros (s' & c' & Hm & H)%IH2.
      exists s', c'. split; [by apply matches_Alt_r|done].
  - destruct (rmatch icase size r1 s c k) as [y|] eqn:E.
    + intros [= ->]. apply IH1 in E as (s' & c' & Hm & H).
      exists s', c'. split; [by apply matches_Opt_some|done].
    + intros H. exists s, c. split; [apply matches_Opt_none|done].
  - intros (s' & c' & Hm & H)%IH1. eexists s', _. split; [by constructor|exact H].
  - destruct (length s =? size)%nat eqn:E; [|discriminate].
    apply Nat.eqb_eq in E. intros H. exists s, c. split; [by constructor|done].
  - destruct s; [|discriminate]. intros H. exists [], c. split; [constructor|done].
Qed.
End Soundness.

Lemma exec_from_sound icase r size : forall s i m,
  exec_from icase r size s i = Some m ->
  exists pre s0 s', s = pre ++ s0 /\ matches icase size r s0 s'.
Proof.
  induction s as [|a s IH]; intros i m; simpl.
  - destruct (rmatch _ _ _ _ _ _) eqn:E; [|discriminate]. intros _.
    apply rmatch_sound in E as (s' & c' & Hm & _). exists [], [], s'. auto.
  - destruct (rmatch _ _ _ _ _ _) eqn:E.
    + intros _. apply rmatch_sound in E as (s' & c' & Hm & _).
      exists [], (a :: s), s'. auto.
    + intros (pre & s0 & s' & -> & Hm)%IH. exists (a :: pre), s0, s'. auto.
Qed.

(** A match found by [exec] is a match. *)
Lemma exec_sound icase r s m :
  exec icase r s = Some m ->
  exists pre s0 s', s = pre ++ s0 /\ matches icase (length s) r s0 s'.
Proof. apply exec_from_sound. Qed.

(** *** Lines *)

Lemma lines_nonempty s : lines s <> [].
Proof. destruct s as [|c s]; simpl; [done|]. by repeat case_match. Qed.

Lemma lines_app_break a c b :
  one_of [CR; LF] c = true -> lines (a ++ c :: b) = lines a ++ lines b.
Proof.
  intros Hc. induction a as [|x a IH]; simpl.
  - by rewrite Hc.
  - rewrite IH. destruct (one_of [CR; LF] x); [reflexivity|].
    pose proof (lines_nonempty a). by destruct (lines a).
Qed.

Lemma none_of_one_of l c : none_of l c = true -> one_of l c = false.
Proof. unfold none_of, one_of. by intros ?%negb_true_iff. Qed.

Lemma lines_app_plain a b :
  single_line a = true ->
  lines (a ++ b) = (a ++ hd [] (lines b)) :: tail (lines b).
Proof.
  intros Ha. induction a as [|x a IH]; simpl.
  - pose proof (lines_nonempty b). by destruct (lines b).
  - simpl in Ha. apply andb_true_iff in Ha as [Hx Ha].
    rewrite (none_of_one_of _ _ Hx), (IH Ha). reflexivity.
Qed.

(** The line that starts right after a line break is one of the header
    lines. *)
Lemma line_after_break pre c l rest (p : jsstring -> bool) :
  one_of [CR; LF] c = true -> single_line l = true ->
  p (l ++ hd [] (lines rest)) = true ->
  existsb p (tail (lines (pre ++ c :: l ++ rest))) = true.
Proof.
  intros Hc Hl Hp. rewrite lines_app_break by exact Hc.
  rewrite (lines_app_plain l rest) by exact Hl.
  pose proof (lines_nonempty pre). destruct (lines pre) as [|x xs]; [done|].
  simpl. rewrite existsb_app. simpl. rewrite Hp. by rewrite orb_true_r.
Qed.

(** *** Literals *)

Lemma strip_prefix_split icase l : forall s s',
  strip_prefix icase l s = Some s' ->
  exists l', s = l' ++ s' /\ strip_prefix icase l l' = Some [].
Proof.
  induction l as [|a l IH]; intros s s'; simpl.
  - intros [= ->]. by exists [].
  - destruct s as [|b s]; [discriminate|].
    destruct (chr_eq icase a b) eqn:E; [|discriminate].
    intros (l' & -> & H)%IH. exists (b :: l'). simpl. by rewrite E.
Qed.

Lemma strip_prefix_app icase l : forall l' t,
  strip_prefix icase l l' = Some [] -> strip_prefix icase l (l' ++ t) = Some t.
Proof.
  induction l as [|a l IH]; intros l' t; simpl.
  - by intros [= ->].
  - destruct l' as [|b l']; [discriminate|]. simpl.
    destruct (chr_eq icase a b); [apply IH|discriminate].
Qed.

(** Folding the case of a character neither makes nor unmakes one of the
    characters [l], none of which is a small letter. *)
Lemma chr_eq_none_of (l : jsstring) a b :
  forallb (fun c => negb (in_range 97 122 c)) l = true ->
  chr_eq true a b = true -> none_of l (canon a) = true -> none_of l b = true.
Proof.
  intros Hl. unfold chr_eq, none_of. intros Heq%N.eqb_eq.
  rewrite !negb_true_iff, !bool_decide_eq_false. intros Ha Hb. apply Ha.
  rewrite Heq. unfold canon. destruct (_ && _) eqn:E; [|exact Hb].
  exfalso. rewrite forallb_forall in Hl. apply list_elem_of_In in Hb.
  specialize (Hl b Hb). unfold in_range in Hl. by rewrite E in Hl.
Qed.

Lemma strip_prefix_none_of (q l : jsstring) :
  forallb (fun c => negb (in_range 97 122 c)) q = true ->
  forall l', forallb (fun a => none_of q (canon a)) l = true ->
  strip_prefix true l l' = Some [] -> forallb (none_of q) l' = true.
Proof.
  intros Hq. induction l as [|a l IH]; intros l'; simpl.
  - by intros _ [= ->].
  - intros [Ha Hl]%andb_true_iff.
    destruct l' as [|b l']; cbn [strip_prefix forallb]; [done|].
    change (canon a =? canon b)%N with (chr_eq true a b).
    destruct (chr_eq true a b) eqn:E; [|done]. intros H.
    rewrite (chr_eq_none_of q a b Hq E Ha). by apply IH.
Qed.

Lemma drop_while_app_all p w r :
  forallb p w = true -> drop_while p (w ++ r) = drop_while p r.
Proof.
  induction w as [|c w IH]; simpl; [done|].
  intros [-> Hw]%andb_true_iff. by apply IH.
Qed.

Lemma one_of_space c : one_of (js " ") c = true -> (c =? 32)%N = true.
Proof.
  unfold one_of. rewrite bool_decide_eq_true. intros H.
  apply elem_of_cons in H as [->|H]; [done|]. by apply elem_of_nil in H.
Qed.

Lemma chr_eq_colon c : chr_eq true 58 c = true -> c = 58%N.
Proof.
  unfold chr_eq, canon. change ((97 <=? 58)%N && (58 <=? 122)%N) with false.
  cbv iota. intros H%N.eqb_eq.
  destruct ((97 <=? c)%N && (c <=? 122)%N) eqn:E; [|done].
  apply andb_true_iff in E as [E1%N.leb_le E2%N.leb_le]. lia.
Qed.

Ltac inv_matches :=
  repeat match goal with
    | H : matches _ _ (Seq _ _) _ _ |- _ => inversion H; subst; clear H
    | H : matches _ _ (Grp _ _) _ _ |- _ => inversion H; subst; clear H
    | H : matches _ _ (Set_ _) _ _ |- _ => inversion H; subst; clear H
    | H : matches _ _ (Str _) _ _ |- _ => inversion H; subst; clear H
    | H : matches _ _ (Star _) _ _ |- _ => inversion H; subst; clear H
    | H : matches _ _ (Plus _) _ _ |- _ => inversion H; subst; clear H
    | H : matches _ _ (Alt _ _) _ _ |- _ => inversion H; subst; clear H
    | H : matches _ _ (Opt _) _ _ |- _ => inversion H; subst; clear H
    end.

Lemma valid_port_digits c ds :
  chr_eq true 58 c = true -> ds <> [] -> forallb (in_range 48 57) ds = true ->
  valid_port (c :: ds) = true /\ single_line (c :: ds) = true.
Proof.
  intros ->%chr_eq_colon Hne Hds. split.
  - unfold valid_port. rewrite bool_decide_eq_false_2 by done. exact Hds.
  - simpl. eapply forallb_impl; [|exact Hds]. intros d Hd.
    unfold in_range in Hd. apply andb_true_iff in Hd as [H1%N.leb_le H2%N.leb_le].
    apply negb_true_iff, bool_decide_eq_false. intros Hin.
    apply elem_of_cons in Hin as [->|Hin]; [unfold CR in *; lia|].
    apply elem_of_cons in Hin as [->|Hin]; [unfold LF in *; lia|].
    by apply elem_of_nil in Hin.
Qed.

Lemma no_small_letters_breaks :
  forallb (fun c => negb (in_range 97 122 c)) [CR; LF] = true.
Proof. reflexivity. Qed.

Lemma literal_single_line l l' :
  forallb (fun a => none_of [CR; LF] (canon a)) l = true ->
  strip_prefix true l l' = Some [] -> single_line l' = true.
Proof. apply strip_prefix_none_of, no_small_letters_breaks. Qed.

Lemma literal_not_space l l' t :
  forallb (fun a => none_of (js " ") (canon a)) l = true -> l <> [] ->
  strip_prefix true l l' = Some [] ->
  drop_while (fun c => (c =? 32)%N) (l' ++ t) = l' ++ t.
Proof.
  intros Hl Hne H.
  pose proof (strip_prefix_none_of (js " ") l eq_refl l' Hl H) as Hl'.
  destruct l' as [|b l'].
  - destruct l; [done|discriminate].
  - simpl in *. apply andb_true_iff in Hl' as [Hb _].
    destruct (N.eqb_spec b 32) as [->|]; [discriminate|reflexivity].
Qed.

Lemma spaces_single_line w :
  forallb (one_of (js " ")) w = true ->
  single_line w = true /\ forallb (fun c => (c =? 32)%N) w = true.
Proof.
  intros H. split; (eapply forallb_impl; [|exact H]); intros c Hc%one_of_space;
    [by apply N.eqb_eq in Hc as ->|done].
Qed.

Lemma host_line_found header pre a0 Hh w Nn P a s' :
  header = pre ++ a0 :: Hh ++ w ++ Nn ++ P ++ a :: s' ->
  one_of [CR; LF] a0 = true -> one_of [CR; LF] a = true ->
  strip_prefix true (js "Host:") Hh = Some [] ->
  forallb (one_of (js " ")) w = true ->
  strip_prefix true (js "localhost") Nn = Some []
  \/ strip_prefix true (js "127.0.0.1") Nn = Some [] ->
  valid_port P = true -> single_line P = true ->
  has_valid_host header = true.
Proof.
  intros -> Ha0 Ha HH [Hw1 Hw2]%spaces_single_line HN HP1 HP2.
  unfold has_valid_host.
  replace (Hh ++ w ++ Nn ++ P ++ a :: s') with ((Hh ++ w ++ Nn ++ P) ++ a :: s')
    by (by rewrite <- !app_assoc).
  assert (HN1 : single_line Nn = true).
  { destruct HN as [HN|HN]; eapply literal_single_line; try exact HN; reflexivity. }
  apply line_after_break; [exact Ha0| |].
  - rewrite !single_line_app, Hw1, HN1, HP2.
    by rewrite (literal_single_line (js "Host:") _ eq_refl HH).
  - cbn [lines]. rewrite Ha. cbn [hd]. rewrite app_nil_r.
    unfold valid_host_line. rewrite (strip_prefix_app _ _ _ _ HH).
    rewrite drop_while_app_all by exact Hw2.
    destruct HN as [HN|HN].
    + rewrite (literal_not_space (js "localhost") _ _ eq_refl ltac:(done) HN).
      rewrite (strip_prefix_app _ _ _ _ HN). cbn [from_option]. by rewrite HP1.
    + rewrite (literal_not_space (js "127.0.0.1") _ _ eq_refl ltac:(done) HN).
      rewrite (strip_prefix_app _ _ _ _ HN). cbn [from_option]. rewrite HP1.
      apply orb_true_r.
Qed.

Lemma strip_colon Cc : strip_prefix true (js ":") Cc = Some [] ->
  exists c, Cc = [c] /\ chr_eq true 58 c = true.
Proof.
  destruct Cc as [|c Cc]; [done|]. cbn [js map list_ascii_of_string strip_prefix].
  change (N_of_ascii ":") with 58%N.
  destruct (chr_eq true 58 c) eqn:E; [|done].
  destruct Cc; [|done]. intros _. by exists c.
Qed.

(** When the host expression matches, the header has a Host line that
    names the loopback interface. *)
Lemma hostRe_sound header m :
  exec true hostRe header = Some m -> has_valid_host header = true.
Proof.
  intros (pre & s0 & s' & -> & Hm)%exec_sound. unfold hostRe in Hm.
  generalize dependent (length (pre ++ s0)). intros n Hm.
  inv_matches.
  all: try match goal with
         | H : strip_prefix _ (js ":") _ = Some _ |- _ =>
             apply strip_prefix_split in H as (Cc & -> & HC);
             apply strip_colon in HC as (c & -> & Hc)
         end.
  all: match goal with
       | H : strip_prefix _ (js "localhost") _ = Some _ |- _ =>
           apply strip_prefix_split in H as (Nn & -> & HN);
           assert (HN' : strip_prefix true (js "localhost") Nn = Some []
                         \/ strip_prefix true (js "127.0.0.1") Nn = Some [])
             by (by left)
       | H : strip_prefix _ (js "127.0.0.1") _ = Some _ |- _ =>
           apply strip_prefix_split in H as (Nn & -> & HN);
           assert (HN' : strip_prefix true (js "localhost") Nn = Some []
                         \/ strip_prefix true (js "127.0.0.1") Nn = Some [])
             by (by right)
       end.
  all: match goal with
       | H : strip_prefix _ (js "Host:") _ = Some _ |- _ =>
           apply strip_prefix_split in H as (Hh & -> & HH)
       end.
  all: match goal with
       | Hc : chr_eq true 58 ?c = true, H6 : ?w0 <> [],
         H7 : forallb (in_range 48 57) ?w0 = true |- _ =>
           destruct (valid_port_digits c w0 Hc H6 H7) as [HP1 HP2];
           eapply (host_line_found _ pre _ Hh w Nn (c :: w0) _ s');
           [by rewrite <- ?app_assoc|try done..]
       | |- _ =>
           eapply (host_line_found _ pre _ Hh w Nn [] _ s');
           [by rewrite <- ?app_assoc|try done..]
       end.
Qed.

(** When the content-length expression matches, the header has a
    Content-Length line with a number. *)
Lemma contentLengthRe_sound header m :
  exec true contentLengthRe header = Some m -> has_content_length header = true.
Proof.
  intros (pre & s0 & s' & -> & Hm)%exec_sound. unfold contentLengthRe in Hm.
  generalize dependent (length (pre ++ s0)). intros n Hm.
  inv_matches.
  match goal with
  | H : strip_prefix _ _ _ = Some _ |- _ =>
      apply strip_prefix_split in H as (Cl & -> & HC)
  end.
  match goal with
  | H : forallb (one_of (js " ")) ?x = true |- _ =>
      rename x into sp; apply spaces_single_line in H as [Hw1 Hw2]
  end.
  match goal with
  | H : forallb (in_range 48 57) ?x = true |- _ =>
      rename x into ds; rename H into Hds
  end.
  unfold has_content_length.
  replace (Cl ++ sp ++ ds ++ s') with ((Cl ++ sp ++ ds) ++ s')
    by (by rewrite <- !app_assoc).
  assert (Hd : single_line ds = true).
  { eapply forallb_impl; [|exact Hds].
    intros d Hd. apply digit_or_minus_plain.
    unfold is_digit, in_range in *. by rewrite Hd. }
  apply line_after_break; [assumption| |].
  - rewrite !single_line_app, Hw1, Hd.
    by rewrite (literal_single_line (js "Content-Length:") _ eq_refl HC).
  - unfold content_length_line. rewrite <- !app_assoc.
    rewrite (strip_prefix_app _ _ _ _ HC).
    rewrite drop_while_app_all by exact Hw2.
    destruct ds as [|d ds]; [done|].
    cbn [forallb] in Hds. apply andb_true_iff in Hds as [Hd0 _].
    cbn [app drop_while].
    destruct (N.eqb_spec d 32) as [->|_]; [discriminate|]. exact Hd0.
Qed.

(** *** Greedy repetition *)

Lemma span_app p s : s = (span p s).1 ++ (span p s).2.
Proof.
  induction s as [|c s IH]; simpl; [done|].
  destruct (p c); [|done]. destruct (span p s) as [w r]. simpl in *. by f_equal.
Qed.

Lemma span_all p s : forallb p (span p s).1 = true.
Proof.
  induction s as [|c s IH]; simpl; [done|].
  destruct (p c) eqn:E; [|done]. destruct (span p s) as [w r]. simpl in *.
  by rewrite E.
Qed.

Lemma span_stop p s c r : (span p s).2 = c :: r -> p c = false.
Proof.
  induction s as [|a s IH]; simpl; [done|].
  destruct (p a) eqn:E.
  - destruct (span p s) as [w r']. simpl in *. exact IH.
  - simpl. by intros [= <- _].
Qed.

Section Greedy.
Context {R : Type}.
Variable p : N -> bool.
Variable k : jsstring -> option R.

(** The longest run is tried first. *)
Lemma rep_greedy : forall s min,
  (min <= length (span p s).1)%nat -> is_Some (k (span p s).2) ->
  rep p min s k = k (span p s).2.
Proof.
  induction s as [|c s IH]; intros min; simpl.
  - intros Hmin _. by destruct min; [|lia].
  - destruct (p c).
    + destruct (span p s) as [w r] eqn:E. simpl in *. intros Hmin Hk.
      rewrite IH by (done || lia). by destruct Hk as [x ->].
    + simpl. intros Hmin _. by destruct min; [|lia].
Qed.

(** A run shorter than required is no match. *)
Lemma rep_short : forall s min,
  (length (span p s).1 < min)%nat -> rep p min s k = None.
Proof.
  induction s as [|c s IH]; intros min; simpl.
  - intros Hmin. by destruct min; [lia|].
  - destruct (p c).
    + destruct (span p s) as [w r] eqn:E. simpl in *. intros Hmin.
      rewrite IH by lia. by destruct min; [lia|].
    + simpl. intros Hmin. by destruct min; [lia|].
Qed.

(** When what follows cannot start with a character of the class, only
    the longest run can be the match. *)
Lemma rep_no_backtrack :
  (forall c t, p c = true -> k (c :: t) = None) ->
  forall s min,
    rep p min s k
    = if (min <=? length (span p s).1)%nat then k (span p s).2 else None.
Proof.
  intros Hk. induction s as [|c s IH]; intros min; simpl.
  - by destruct min.
  - destruct (p c) eqn:E.
    + rewrite IH. destruct (span p s) as [w r]. simpl.
      rewrite (Hk c s E).
      destruct min as [|min]; simpl; [by destruct (k r)|].
      destruct (min <=? length w)%nat; [by destruct (k r)|done].
    + simpl. by destruct min.
Qed.
End Greedy.

Lemma exec_from_anchored icase r size : forall s i,
  (length s < size)%nat -> exec_from icase (Bol >> r) size s i = None.
Proof.
  induction s as [|a s IH]; intros i Hlen; cbn [exec_from rmatch].
  - destruct (Nat.eqb_spec (length (@nil N)) size) as [E|_]; [simpl in *; lia|done].
  - destruct (Nat.eqb_spec (length (a :: s)) size) as [E|_]; [lia|].
    apply IH. simpl in Hlen. lia.
Qed.

Lemma take_span p s : take (length s - length (span p s).2) s = (span p s).1.
Proof.
  rewrite (span_app p s) at 1 3. rewrite length_app.
  replace (length (span p s).1 + length (span p s).2 - length (span p s).2)%nat
    with (length (span p s).1) by lia.
  apply take_app_length.
Qed.

(** An expression that starts with [^] can only match at index 0. *)
Lemma exec_anchored icase r s :
  exec icase (Bol >> r) s
  = rmatch icase (length s) r s []
      (fun s' c => Some {| m_index := 0;
                           m_text := take (length s - length s') s;
                           m_groups := c |}).
Proof.
  unfold exec. destruct s as [|a s]; cbn [exec_from rmatch].
  - rewrite Nat.eqb_refl. by destruct (rmatch _ _ _ _ _ _).
  - rewrite Nat.eqb_refl.
    rewrite (exec_from_anchored icase r _ s 1) by (simpl; lia).
    by destruct (rmatch _ _ _ _ _ _).
Qed.

Lemma methodRe_exec header :
  match exec false methodRe header with
  | Some m =>
      parse_request_line header
      = Some (default [] (group m 1), default [] (group m 2), group m 3)
  | None => parse_request_line header = None
  end.
Proof.
  unfold methodRe. rewrite exec_anchored. unfold parse_request_line.
  cbn [rmatch].
  rewrite rep_no_backtrack.
  2:{ intros c t Hc. cbn [js map list_ascii_of_string strip_prefix chr_eq].
      change (N_of_ascii " ") with 32%N.
      destruct (N.eqb_spec 32 c) as [<-|]; [discriminate|reflexivity]. }
  pose proof (take_span (in_range 65 90) header) as Hm.
  destruct (span (in_range 65 90) header) as [method rest] eqn:E1.
  cbn [fst snd] in *.
  destruct method as [|m0 method]; [reflexivity|].
  cbn [length Nat.leb].
  destruct rest as [|c rest]; [reflexivity|].
  cbn [js map list_ascii_of_string strip_prefix chr_eq].
  change (N_of_ascii " ") with 32%N. rewrite (N.eqb_sym 32 c).
  destruct (c =? 32)%N; [|reflexivity].
  change (N_of_ascii "?") with 63%N.
  set (pc := none_of ([32%N] ++ [CR; LF] ++ [63%N])).
  set (qc := none_of ([32%N] ++ [CR; LF])).
  pose proof (take_span pc rest) as Hp.
  pose proof (span_app pc rest) as Hp'.
  destruct (span pc rest) as [path rest1] eqn:E2. cbn [fst snd] in Hp, Hp'.
  destruct path as [|p0 path].
  { rewrite rep_short; [reflexivity|]. rewrite E2. simpl. lia. }
  rewrite rep_greedy; rewrite ?E2; cbn [fst snd];
    [|simpl; lia|by repeat case_match].
  destruct rest1 as [|c0 q].
  { cbn [group m_groups List.find fst snd Nat.eqb fmap option_fmap option_map default].
    by rewrite Hm, Hp. }
  rewrite (N.eqb_sym 63 c0). destruct (c0 =? 63)%N eqn:E3; cbn [andb].
  2:{ cbn [group m_groups List.find fst snd Nat.eqb fmap option_fmap option_map default].
      by rewrite Hm, Hp. }
  pose proof (take_span qc q) as Hq.
  pose proof (span_app qc q) as Hq'.
  destruct (span qc q) as [qs rest2] eqn:E4. cbn [fst snd] in Hq, Hq' |- *.
  destruct qs as [|q0 qs].
  { rewrite rep_short by (rewrite E4; simpl; lia).
    rewrite bool_decide_eq_true_2 by done. cbn [negb].
    cbn [group m_groups List.find fst snd Nat.eqb fmap option_fmap option_map default].
    by rewrite Hm, Hp. }
  rewrite rep_greedy; rewrite ?E4; cbn [fst snd]; [|simpl; lia|done].
  rewrite bool_decide_eq_false_2 by done. cbn [negb].
  cbn [group m_groups List.find fst snd Nat.eqb fmap option_fmap option_map default].
  rewrite Hm, Hp. unfold id. do 3 f_equal.
  assert (Hlen : (length rest2 <= length q)%nat).
  { rewrite Hq'. rewrite length_app. lia. }
  replace (length (c0 :: q) - length rest2)%nat
    with (S (length q - length rest2)) by (simpl; lia).
  cbn [take]. by rewrite Hq.
Qed.

(** ** What [_headerFinished] answers *)

Lemma generateResponse_origin E c1 c2 status contentType body :
  origin c1 = origin c2 ->
  generateResponse E c1 status contentType body
  = generateResponse E c2 status contentType body.
Proof. intros H. unfold generateResponse. by rewrite H. Qed.

(** The first response of a connection. *)
Lemma requestFinished_answers E this status contentType body :
  responseSent this = false ->
  answers E this
    (requestFinished (generateResponse E this status contentType body) this)
    status contentType body.
Proof.
  intros H. unfold requestFinished. rewrite H.
  unfold answers. destruct this; repeat split.
Qed.

Lemma respond_answers E this status contentType body :
  responseSent this = false ->
  answers E this (respond E status contentType body this)
    status (Some contentType) (Some body).
Proof. apply requestFinished_answers. Qed.

(** What a step that leaves the observable fields alone does not undo. *)
Lemma answers_after E this this' c status contentType body :
  oStream this' = oStream this -> calls this' = calls this ->
  pending this' = pending this -> rejections this' = rejections this ->
  answers E this' c status contentType body ->
  answers E this c status contentType body.
Proof.
  intros Ho Hc Hp Hr (? & ? & ? & ? & ? & ?). unfold answers.
  by rewrite <- Ho, <- Hc, <- Hp, <- Hr.
Qed.

Lemma read_origin_fields E this :
  let c := read_origin E this in
  header c = header this /\ responseSent c = responseSent this
  /\ oStream c = oStream this /\ calls c = calls this
  /\ pending c = pending this /\ rejections c = rejections this
  /\ headerFinished c = true /\ endpoint_ c = endpoint_ this.
Proof.
  unfold read_origin. destruct this. cbn.
  repeat case_match; repeat split.
Qed.

Lemma read_contentType_fields this :
  let c := read_contentType this in
  header c = header this /\ responseSent c = responseSent this
  /\ oStream c = oStream this /\ calls c = calls this
  /\ pending c = pending this /\ rejections c = rejections this
  /\ headerFinished c = headerFinished this /\ endpoint_ c = endpoint_ this
  /\ origin c = origin this.
Proof.
  unfold read_contentType. destruct this. cbn.
  repeat case_match; repeat split.
Qed.

Lemma store_endpoint_fields m2 ep m3 this :
  let c := store_endpoint m2 ep m3 this in
  header c = header this /\ responseSent c = responseSent this
  /\ oStream c = oStream this /\ calls c = calls this
  /\ pending c = pending this /\ rejections c = rejections this
  /\ headerFinished c = headerFinished this
  /\ endpoint_ c = Some ep /\ pathname c = Some m2 /\ query c = m3
  /\ origin c = origin this /\ contentType c = contentType this
  /\ body c = body this /\ bodyLength c = bodyLength this.
Proof. destruct this. repeat split. Qed.

(** [_headerFinished] by its parts. *)
Lemma headerFinished_parts E this :
  headerFinished_ E this
  = let this := read_origin E this in
    if negb (host_check_passes E (header this))
    then respond E 400 (js "text/plain") (js "Invalid Host header" ++ [LF]) this
    else
      let method := exec false methodRe (header this) in
      let this := read_contentType this in
      match method with
      | None => respond E 400 (js "text/plain") (js "Invalid method specified" ++ [LF]) this
      | Some method =>
          let m1 := default [] (group method 1) in
          let m2 := default [] (group method 2) in
          match Endpoints E !! m2 with
          | None => respond E 404 (js "text/plain") (js "No endpoint found" ++ [LF]) this
          | Some endpoint =>
              let this := store_endpoint m2 endpoint (group method 3) this in
              if bool_decide (m1 = js "HEAD") || bool_decide (m1 = js "OPTIONS") then
                requestFinished (generateResponse E this 200 None None) this
              else if bool_decide (m1 = js "GET") then
                processEndpoint E (js "GET") None this
              else if bool_decide (m1 = js "POST") then
                match exec true contentLengthRe (header this) with
                | None => respond E 400 (js "text/plain") (js "Content-length not provided" ++ [LF]) this
                | Some m =>
                    bodyData E (set_bodyLength (parse_digits (default [] (group m 1))) this)
                end
              else respond E 501 (js "text/plain") (js "Method not implemented" ++ [LF]) this
          end
      end.
Proof.
  unfold headerFinished_, host_check_passes. fold (read_origin E this).
  cbv zeta. rewrite negb_orb.
  destruct (negb (isServer E) && _); [reflexivity|].
  fold (read_contentType (read_origin E this)).
  assert (Hh : header (read_contentType (read_origin E this))
               = header (read_origin E this))
    by apply read_contentType_fields.
  reflexivity.
Qed.

Lemma methodRe_None header :
  parse_request_line header = None -> exec false methodRe header = None.
Proof.
  intros H. pose proof (methodRe_exec header) as Hx.
  destruct (exec false methodRe header); [congruence|done].
Qed.

Lemma methodRe_Some header m p q :
  parse_request_line header = Some (m, p, q) ->
  exists r, exec false methodRe header = Some r
            /\ default [] (group r 1) = m /\ default [] (group r 2) = p
            /\ group r 3 = q.
Proof.
  intros H. pose proof (methodRe_exec header) as Hx.
  destruct (exec false methodRe header) as [r|]; [|congruence].
  rewrite H in Hx. injection Hx as -> -> ->. by exists r.
Qed.

Section HeaderFinished.
Variable E : env.
Variable this : conn.
Hypothesis not_sent : responseSent this = false.

Lemma read_origin_not_sent : responseSent (read_origin E this) = false.
Proof. destruct (read_origin_fields E this) as (_ & -> & _). exact not_sent. Qed.

Lemma answers_after_origin c status contentType body :
  answers E (read_origin E this) c status contentType body ->
  answers E this c status contentType body.
Proof.
  destruct (read_origin_fields E this) as (_ & _ & ? & ? & ? & ? & _).
  by apply answers_after.
Qed.

Lemma answers_after_contentType c status contentType body :
  answers E (read_contentType (read_origin E this)) c status contentType body ->
  answers E this c status contentType body.
Proof.
  intros H. apply answers_after_origin.
  destruct (read_contentType_fields (read_origin E this))
    as (_ & _ & ? & ? & ? & ? & _).
  by eapply answers_after.
Qed.

Lemma answers_after_endpoint m2 ep m3 c status contentType body :
  answers E (store_endpoint m2 ep m3 (read_contentType (read_origin E this)))
    c status contentType body ->
  answers E this c status contentType body.
Proof.
  intros H. apply answers_after_contentType.
  destruct (store_endpoint_fields m2 ep m3 (read_contentType (read_origin E this)))
    as (_ & _ & ? & ? & ? & ? & _).
  by eapply answers_after.
Qed.

Lemma header_after_origin : header (read_origin E this) = header this.
Proof. apply read_origin_fields. Qed.

Lemma not_sent_contentType :
  responseSent (read_contentType (read_origin E this)) = false.
Proof.
  destruct (read_contentType_fields (read_origin E this)) as (_ & -> & _).
  apply read_origin_not_sent.
Qed.

Lemma not_sent_endpoint m2 ep m3 :
  responseSent (store_endpoint m2 ep m3 (read_contentType (read_origin E this)))
  = false.
Proof.
  destruct (store_endpoint_fields m2 ep m3 (read_contentType (read_origin E this)))
    as (_ & -> & _).
  apply not_sent_contentType.
Qed.

(** Outside headless mode, a request without a valid Host line is
    answered 400 and goes no further. *)
Theorem headerFinished_invalid_host :
  isServer E = false -> has_valid_host (header this) = false ->
  answers E this (headerFinished_ E this) 400 (Some (js "text/plain"))
    (Some (js "Invalid Host header" ++ [LF])).
Proof.
  intros HE Hhost. rewrite headerFinished_parts. cbv zeta.
  unfold host_check_passes. rewrite HE, header_after_origin.
  destruct (exec true hostRe (header this)) as [m|] eqn:E1.
  { apply hostRe_sound in E1. congruence. }
  rewrite bool_decide_eq_false_2 by (by intros [? ?]). cbn [orb negb].
  apply answers_after_origin, respond_answers, read_origin_not_sent.
Qed.

(** A malformed request line is answered 400. *)
Theorem headerFinished_malformed :
  host_check_passes E (header this) = true ->
  parse_request_line (header this) = None ->
  answers E this (headerFinished_ E this) 400 (Some (js "text/plain"))
    (Some (js "Invalid method specified" ++ [LF])).
Proof.
  intros Hhost Hparse. rewrite headerFinished_parts. cbv zeta.
  rewrite header_after_origin, Hhost. cbn [negb].
  rewrite (methodRe_None _ Hparse).
  apply answers_after_contentType, respond_answers, not_sent_contentType.
Qed.


(** HEAD and OPTIONS on a registered path are answered 200 with no
    content type and no body; the endpoint is not even instantiated. *)
Theorem headerFinished_head_options method path query ep :
  host_check_passes E (header this) = true ->
  parse_request_line (header this) = Some (method, path, query) ->
  Endpoints E !! path = Some ep ->
  method = js "HEAD" \/ method = js "OPTIONS" ->
  answers E this (headerFinished_ E this) 200 None None.
Proof.
  intros Hhost Hparse Hpath Hm. rewrite headerFinished_parts. cbv zeta.
  rewrite header_after_origin, Hhost. cbn [negb].
  destruct (methodRe_Some _ _ _ _ Hparse) as (r & Hr & H1 & H2 & H3).
  rewrite Hr. cbv iota beta. rewrite H1, H2, H3, Hpath.
  assert (bool_decide (method = js "HEAD") || bool_decide (method = js "OPTIONS")
          = true) as ->.
  { destruct Hm as [->| ->]; [reflexivity|].
    apply orb_true_iff. right. by apply bool_decide_eq_true_2. }
  eapply answers_after_endpoint, requestFinished_answers, not_sent_endpoint.
Qed.

(** A method other than HEAD, OPTIONS, GET and POST on a registered
    path is answered 501. *)
Theorem headerFinished_not_implemented method path query ep :
  host_check_passes E (header this) = true ->
  parse_request_line (header this) = Some (method, path, query) ->
  Endpoints E !! path = Some ep ->
  method ∉ [js "HEAD"; js "OPTIONS"; js "GET"; js "POST"] ->
  answers E this (headerFinished_ E this) 501 (Some (js "text/plain"))
    (Some (js "Method not implemented" ++ [LF])).
Proof.
  intros Hhost Hparse Hpath Hm. rewrite headerFinished_parts. cbv zeta.
  rewrite header_after_origin, Hhost. cbn [negb].
  destruct (methodRe_Some _ _ _ _ Hparse) as (r & Hr & H1 & H2 & H3).
  rewrite Hr. cbv iota beta. rewrite H1, H2, H3, Hpath.
  rewrite !bool_decide_eq_false_2; try (intros ->; apply Hm; set_solver).
  cbn [orb].
  eapply answers_after_endpoint, respond_answers, not_sent_endpoint.
Qed.


(** GET on a registered path is dispatched at once, with no body,
    whatever bytes came after the header. *)
Theorem headerFinished_get path query ep :
  host_check_passes E (header this) = true ->
  parse_request_line (header this) = Some (js "GET", path, query) ->
  Endpoints E !! path = Some ep ->
  headerFinished_ E this
  = processEndpoint E (js "GET") None
      (store_endpoint path ep query (read_contentType (read_origin E this))).
Proof.
  intros Hhost Hparse Hpath. rewrite headerFinished_parts. cbv zeta.
  rewrite header_after_origin, Hhost. cbn [negb].
  destruct (methodRe_Some _ _ _ _ Hparse) as (r & Hr & H1 & H2 & H3).
  rewrite Hr. cbv iota beta. rewrite H1, H2, H3, Hpath.
  rewrite !bool_decide_eq_false_2 by done. cbn [orb].
  by rewrite bool_decide_eq_true_2 by done.
Qed.
End HeaderFinished.

Lemma headerFinished_invalid_host_witness :
  answers sample_env (with_header (request_head "GET /echo HTTP/1.0" "Host: example.com"))
    (headerFinished_ sample_env
       (with_header (request_head "GET /echo HTTP/1.0" "Host: example.com")))
    400 (Some (js "text/plain")) (Some (js "Invalid Host header" ++ [LF])).
Proof.
  apply headerFinished_invalid_host; vm_compute; reflexivity.
Defined.

Lemma headerFinished_malformed_witness :
  answers sample_env (with_header (request_head "get /echo HTTP/1.0" "Host: localhost"))
    (headerFinished_ sample_env
       (with_header (request_head "get /echo HTTP/1.0" "Host: localhost")))
    400 (Some (js "text/plain")) (Some (js "Invalid method specified" ++ [LF])).
Proof.
  apply headerFinished_malformed; vm_compute; reflexivity.
Defined.


Lemma headerFinished_head_options_witness :
  answers sample_env (with_header (request_head "OPTIONS /echo HTTP/1.0" "Host: 127.0.0.1"))
    (headerFinished_ sample_env
       (with_header (request_head "OPTIONS /echo HTTP/1.0" "Host: 127.0.0.1")))
    200 None None.
Proof.
  apply (headerFinished_head_options sample_env (with_header (request_head "OPTIONS /echo HTTP/1.0" "Host: 127.0.0.1")) eq_refl (js "OPTIONS") (js "/echo")
           None {| construct := inr echo |}); [vm_compute; reflexivity ..|].
  right. reflexivity.
Defined.

Lemma headerFinished_not_implemented_witness :
  answers sample_env (with_header (request_head "PUT /echo HTTP/1.0" "Host: localhost"))
    (headerFinished_ sample_env
       (with_header (request_head "PUT /echo HTTP/1.0" "Host: localhost")))
    501 (Some (js "text/plain")) (Some (js "Method not implemented" ++ [LF])).
Proof.
  apply (headerFinished_not_implemented sample_env (with_header (request_head "PUT /echo HTTP/1.0" "Host: localhost")) eq_refl (js "PUT") (js "/echo")
           None {| construct := inr echo |}); [vm_compute; reflexivity ..|].
  intros H. repeat (apply elem_of_cons in H as [H|H]; [discriminate H|]).
  by apply elem_of_nil in H.
Defined.


Lemma headerFinished_get_witness :
  headerFinished_ sample_env
    (with_header (request_head "GET /echo?a=1 HTTP/1.0" "Host: localhost"))
  = processEndpoint sample_env (js "GET") None
      (store_endpoint (js "/echo") {| construct := inr echo |} (Some (js "?a=1"))
         (read_contentType
            (read_origin sample_env
               (with_header (request_head "GET /echo?a=1 HTTP/1.0" "Host: localhost"))))).
Proof.
  apply (headerFinished_get sample_env (with_header (request_head "GET /echo?a=1 HTTP/1.0" "Host: localhost")) (js "/echo") (Some (js "?a=1"))
           {| construct := inr echo |}); vm_compute; reflexivity.
Defined.

(** ** What every connection keeps *)

Section Preserved.
Variable E : env.
Variable P : conn -> Prop.
Hypothesis P_debug : forall msg, preserves P (debug msg).
Hypothesis P_record_call : forall i, preserves P (record_call i).
Hypothesis P_reject : forall e s, responseSent s = true -> P s -> P (reject e s).
Hypothesis P_set_pending : forall v, preserves P (set_pending v).
Hypothesis P_send : forall r s, responseSent s = false -> P s -> P (send r s).

Lemma preserves_requestFinished_with (g : conn -> jsstring) :
  preserves P (fun s => requestFinished (g s) s).
Proof.
  intros s H. unfold requestFinished. destruct (responseSent s) eqn:Hs.
  - by apply P_debug.
  - by apply P_send.
Qed.

Lemma preserves_requestFinished response : preserves P (requestFinished response).
Proof. apply (preserves_requestFinished_with (fun _ => response)). Qed.

Lemma preserves_sendResponseCallback a : preserves P (sendResponseCallback E a).
Proof. apply preserves_requestFinished_with. Qed.

Lemma preserves_respond status contentType body :
  preserves P (respond E status contentType body).
Proof. apply preserves_requestFinished_with. Qed.

Lemma preserves_callbacks l :
  preserves P (fun me => foldl (fun me a => sendResponseCallback E a me) me l).
Proof.
  induction l as [|a l IH]; simpl; [by intros s|].
  intros s H. apply IH. by apply preserves_sendResponseCallback.
Qed.

Lemma preserves_set_pending_with (g : conn -> list pending_item) :
  preserves P (fun me => set_pending (g me) me).
Proof. intros s H. by apply P_set_pending. Qed.

Lemma preservesM_ret {A} (a : A) : preservesM P (mret a).
Proof. intros s H. exact H. Qed.
Lemma preservesM_throw {A} e : preservesM P (@throw A e).
Proof. intros s H. exact H. Qed.
Lemma preservesM_return {A} : preservesM P (@return_ A).
Proof. intros s H. exact H. Qed.
Lemma preservesM_this : preservesM P this_.
Proof. intros s H. exact H. Qed.
Lemma preservesM_try {A} e (o : option A) : preservesM P (try_ e o).
Proof. intros s H. destruct o; exact H. Qed.
Lemma preservesM_act f : preserves P f -> preservesM P (act f).
Proof. intros H. exact H. Qed.

Lemma preservesM_bind {A B} (m : M A) (f : A -> M B) :
  preservesM P m -> (forall a, preservesM P (f a)) -> preservesM P (m ≫= f).
Proof.
  intros Hm Hf s H. specialize (Hm s H). cbv beta in Hm. revert Hm.
  unfold mbind, M_bind. destruct (m s) as [[a| |e] s']; simpl; auto.
  exact (Hf a s').
Qed.

Lemma preservesM_fmap {A B} (g : A -> B) (m : M A) :
  preservesM P m -> preservesM P (g <$> m).
Proof.
  intros Hm s H. specialize (Hm s H). cbv beta in Hm. revert Hm.
  unfold fmap, M_fmap. by destruct (m s) as [[a| |e] s'].
Qed.

Lemma preservesM_when b m : preservesM P m -> preservesM P (when b m).
Proof. intros H. destruct b; [exact H|apply preservesM_ret]. Qed.

Lemma preservesM_decode_query q : preservesM P (decode_query q).
Proof.
  unfold decode_query. destruct (truthy q); [apply preservesM_try|apply preservesM_ret].
Qed.

Lemma preservesM_send_result v : preservesM P (send_result E v).
Proof.
  destruct v; simpl;
    first [apply preservesM_throw | apply preservesM_act, preserves_sendResponseCallback].
Qed.

Lemma preservesM_run_callbacks o : preservesM P (run_callbacks E o).
Proof.
  unfold run_callbacks.
  apply preservesM_bind; [apply preservesM_act, preserves_callbacks|intros _].
  apply preservesM_bind; [apply preservesM_act, preserves_set_pending_with|intros _].
  destruct (throws o); [apply preservesM_throw|apply preservesM_ret].
Qed.

Lemma preservesM_processEndpoint_try method postData :
  preservesM P (processEndpoint_try E method postData).
Proof.
  unfold processEndpoint_try.
  repeat first
    [ apply preservesM_ret | apply preservesM_throw | apply preservesM_return
    | apply preservesM_this | apply preservesM_try
    | apply preservesM_decode_query | apply preservesM_send_result
    | apply preservesM_run_callbacks
    | apply preservesM_bind; [|intros ?]
    | apply preservesM_fmap | apply preservesM_when
    | apply preservesM_act;
        first [ apply preserves_respond | apply P_record_call
              | apply preserves_set_pending_with ]
    | progress cbv zeta
    | case_match ].
Qed.

Lemma preserves_catch m : preservesM P m -> preserves P (catch_ E m).
Proof.
  intros Hm s H. specialize (Hm s H). cbv beta in Hm. revert Hm.
  unfold catch_. destruct (m s) as [[a| |e] s']; simpl; auto.
  intros Hm. apply P_reject.
  - unfold requestFinished. destruct s'; cbn. by case_match.
  - apply (preserves_requestFinished_with (fun s => generateResponse E s 500 None None)), P_debug, Hm.
Qed.

(** The dispatcher keeps what its primitive actions keep. *)
Lemma preserves_processEndpoint method postData :
  preserves P (processEndpoint E method postData).
Proof. apply preserves_catch, preservesM_processEndpoint_try. Qed.

Lemma preserves_resume s : preserves P (resume E s).
Proof.
  apply preserves_catch. destruct s; [apply preservesM_send_result|apply preservesM_throw].
Qed.

Lemma preserves_fire i : preserves P (fire E i).
Proof.
  intros s H. unfold fire. repeat case_match; try exact H.
  - by apply preserves_resume, P_set_pending.
  - by apply preserves_sendResponseCallback, P_set_pending.
Qed.

(** What follows holds of properties of what is observed only. *)
Hypothesis P_observed : forall s s', same_observed s s' -> P s -> P s'.

Lemma preserves_field (f : conn -> conn) :
  (forall s, same_observed s (f s)) -> preserves P f.
Proof. intros Hf s. apply P_observed, Hf. Qed.

Lemma preserves_bodyData : preserves P (bodyData E).
Proof.
  intros s H. unfold bodyData. case_match; [|exact H].
  apply preserves_processEndpoint. revert H.
  apply (preserves_field (set_body _)). clear. intros s'. by destruct s'.
Qed.

Lemma preserves_read_origin : preserves P (read_origin E).
Proof.
  intros s H. unfold read_origin. cbv zeta.
  repeat case_match; repeat first
    [ exact H | apply P_debug
    | (apply preserves_field; [clear; intros s'; by destruct s'|]) ].
Qed.

Lemma preserves_headerFinished : preserves P (headerFinished_ E).
Proof.
  intros s H. rewrite headerFinished_parts. cbv zeta.
  assert (H1 : P (read_origin E s)) by by apply preserves_read_origin.
  assert (H2 : P (read_contentType (read_origin E s))).
  { revert H1. apply preserves_field. clear. intros s'. unfold read_contentType.
    case_match; by destruct s'. }
  assert (H3 : forall a b c, P (store_endpoint a b c (read_contentType (read_origin E s)))).
  { intros a b c. revert H2. apply preserves_field. clear. intros s'. by destruct s'. }
  repeat case_match;
    repeat first
      [ apply H3 | exact H2 | exact H1
      | apply preserves_respond | apply preserves_requestFinished
      | apply preserves_processEndpoint | apply preserves_bodyData
      | (apply (preserves_field (set_bodyLength _)); [clear; intros s'; by destruct s'|]) ].
Qed.

Lemma preserves_onDataAvailable readData : preserves P (onDataAvailable E readData).
Proof.
  intros s H. unfold onDataAvailable. cbv zeta.
  repeat case_match;
    repeat first
      [ exact H
      | apply preserves_headerFinished | apply preserves_bodyData
      | (apply (preserves_field (set_body _)); [clear; intros s'; by destruct s'|])
      | (apply (preserves_field (set_header _)); [clear; intros s'; by destruct s'|]) ].
Qed.
End Preserved.



Lemma same_request_refl c : same_request c c.
Proof. by repeat split. Qed.

Lemma same_request_trans a b c :
  same_request a b -> same_request b c -> same_request a c.
Proof.
  unfold same_request. intros (?&?&?&?&?&?&?&?) (?&?&?&?&?&?&?&?).
  repeat split; congruence.
Qed.

Section Request.
Variable E : env.

(** The dispatcher does not touch the request. *)
Lemma processEndpoint_same_request method postData c :
  same_request c (processEndpoint E method postData c).
Proof.
  apply (preserves_processEndpoint E (same_request c));
    try (intros until s; intros H; destruct s; exact H);
    try apply same_request_refl.
  all: intros r s _ H; destruct s; exact H.
Qed.

Lemma requestFinished_same_request r c : same_request c (requestFinished r c).
Proof.
  apply (preserves_requestFinished (same_request c));
    try (intros until s; intros H; destruct s; exact H);
    try apply same_request_refl.
  all: intros r' s _ H; destruct s; exact H.
Qed.

Lemma fire_same_request i c : same_request c (fire E i c).
Proof.
  apply (preserves_fire E (same_request c));
    try (intros until s; intros H; destruct s; exact H);
    try apply same_request_refl.
  all: intros r' s _ H; destruct s; exact H.
Qed.

Lemma bodyData_same_request c : same_request c (bodyData E c).
Proof.
  unfold bodyData. case_match; [|apply same_request_refl].
  eapply same_request_trans; [|apply processEndpoint_same_request].
  by destruct c.
Qed.

(** Once the header is finished, nothing changes the request. *)
Lemma step_same_request c ev :
  headerFinished c = true -> same_request c (step E c ev).
Proof.
  intros H. destruct ev as [readData|i|]; simpl.
  - unfold onDataAvailable. rewrite H.
    eapply same_request_trans; [|apply bodyData_same_request]. by destruct c.
  - apply fire_same_request.
  - by destruct c.
Qed.

Lemma steps_same_request evs : forall c,
  headerFinished c = true -> same_request c (foldl (step E) c evs).
Proof.
  induction evs as [|ev evs IH]; intros c H; simpl; [apply same_request_refl|].
  pose proof (step_same_request c ev H) as Hs.
  eapply same_request_trans; [exact Hs|]. apply IH.
  destruct Hs as (_ & -> & _). exact H.
Qed.

(** Once the header is finished the request is fixed: whatever arrives
    or runs afterwards, the header, the origin, the content type, the
    path, the endpoint, the query and the expected length of the body
    stay what they were. *)
Theorem request_never_changes_after_header (evs more : list event) :
  headerFinished (run E evs) = true ->
  same_request (run E evs) (run E (evs ++ more)).
Proof.
  intros H. unfold run. rewrite foldl_app. by apply steps_same_request.
Qed.

(** A response closes the input stream. *)
Lemma steps_closed evs : forall c,
  (responseSent c = true -> iStream_closed c = true) ->
  responseSent (foldl (step E) c evs) = true ->
  iStream_closed (foldl (step E) c evs) = true.
Proof.
  set (P := fun s => responseSent s = true -> iStream_closed s = true).
  assert (Hobs : forall s s', same_observed s s' -> P s -> P s').
  { unfold P. intros s s' (-> & -> & _). done. }
  assert (Hd : forall msg, preserves P (debug msg)) by (intros ? []; done).
  assert (Hc : forall i, preserves P (record_call i)) by (intros ? []; done).
  assert (Hr : forall e s, responseSent s = true -> P s -> P (reject e s))
    by (intros ? [] ?; done).
  assert (Hp : forall v, preserves P (set_pending v)) by (intros ? []; done).
  assert (Hs : forall r s, responseSent s = false -> P s -> P (send r s))
    by (intros ? []; done).
  induction evs as [|ev evs IH]; intros c H; simpl; [exact H|].
  apply IH. destruct ev as [readData|i|]; simpl.
  - by apply (preserves_onDataAvailable E P).
  - by apply (preserves_fire E P).
  - intros _. by destruct c.
Qed.
End Request.

Section Gate.
Variable E : env.

(** Without an endpoint the dispatcher fails before it calls anything. *)
Lemma processEndpoint_no_endpoint method postData c :
  endpoint_ c = None -> calls (processEndpoint E method postData c) = calls c.
Proof.
  intros H. unfold processEndpoint, catch_, processEndpoint_try.
  unfold mbind at 1. unfold M_bind at 1. cbn [this_].
  unfold mbind at 1. unfold M_bind at 1. rewrite H. cbn [try_ throw].
  unfold requestFinished. destruct c; cbn. by case_match.
Qed.

(** Answering and resuming call no handler. *)
Lemma fire_calls i c : calls (fire E i c) = calls c.
Proof.
  set (P := fun s => calls s = calls c).
  assert (Hd : forall msg, preserves P (debug msg)) by (intros ? []; done).
  assert (Hr : forall e s, responseSent s = true -> P s -> P (reject e s))
    by (intros ? [] ?; done).
  assert (Hp : forall v, preserves P (set_pending v)) by (intros ? []; done).
  assert (Hs : forall r s, responseSent s = false -> P s -> P (send r s))
    by (intros ? []; done).
  unfold fire. repeat case_match; try reflexivity.
  - apply (preserves_resume E P Hd Hr Hs). by destruct c.
  - apply (preserves_sendResponseCallback E P Hd Hs). by destruct c.
Qed.

Lemma respond_calls s ct b c : calls (respond E s ct b c) = calls c.
Proof. unfold respond, requestFinished. destruct c; cbn. by case_match. Qed.

Lemma requestFinished_calls r c : calls (requestFinished r c) = calls c.
Proof. unfold requestFinished. destruct c; cbn. by case_match. Qed.

Lemma gated_fields c c' :
  headerFinished c = true ->
  header c' = header c -> headerFinished c' = headerFinished c ->
  pathname c' = pathname c -> endpoint_ c' = endpoint_ c ->
  query c' = query c ->
  (endpoint_ c = None -> calls c' = calls c) ->
  gated E c -> gated E c'.
Proof.
  intros Hf Hh Hfin Hp He Hq Hcalls (G1 & G2 & G3).
  split; [|split].
  - intros H. congruence.
  - intros Hc. rewrite He. destruct (endpoint_ c) eqn:Ee; [done|].
    rewrite Hcalls in Hc by done. by apply G2.
  - intros ep Hep. rewrite He in Hep. rewrite Hh, Hfin, Hp, Hq. by apply G3.
Qed.

Lemma gated_same_request c c' :
  headerFinished c = true -> same_request c c' ->
  (endpoint_ c = None -> calls c' = calls c) ->
  gated E c -> gated E c'.
Proof.
  intros Hf (Hh & Hfin & _ & _ & Hp & He & Hq & _). by apply gated_fields.
Qed.

(** [_headerFinished] on a connection that has done nothing yet. *)
Lemma headerFinished_gated c :
  endpoint_ c = None -> calls c = [] -> gated E (headerFinished_ E c).
Proof.
  intros He Hc.
  destruct (read_origin_fields E c) as (Hh1 & _ & _ & Hc1 & _ & _ & Hf1 & He1).
  destruct (read_contentType_fields (read_origin E c))
    as (Hh2 & _ & _ & Hc2 & _ & _ & Hf2 & He2 & _).
  assert (Hquiet : forall c', same_request (read_contentType (read_origin E c)) c' ->
            calls c' = [] -> gated E c').
  { intros c' (_ & Hf' & _ & _ & _ & He' & _) Hc'. split; [|split].
    - intros H. congruence.
    - intros H. congruence.
    - intros ep Hep. congruence. }
  assert (Hquiet1 : forall c', same_request (read_origin E c) c' ->
            calls c' = [] -> gated E c').
  { intros c' (_ & Hf' & _ & _ & _ & He' & _) Hc'. split; [|split].
    - intros H. congruence.
    - intros H. congruence.
    - intros ep Hep. congruence. }
  rewrite headerFinished_parts. cbv zeta.
  destruct (host_check_passes E (header (read_origin E c))) eqn:Hhost; cbn [negb].
  2:{ apply Hquiet1; [apply requestFinished_same_request|].
      rewrite respond_calls. congruence. }
  pose proof (methodRe_exec (header (read_origin E c))) as Hparse.
  destruct (exec false methodRe (header (read_origin E c))) as [r|].
  2:{ apply Hquiet; [apply requestFinished_same_request|].
      rewrite respond_calls. congruence. }
  destruct (Endpoints E !! default [] (group r 2)) as [ep|] eqn:Hep.
  2:{ apply Hquiet; [apply requestFinished_same_request|].
      rewrite respond_calls. congruence. }
  set (c3 := store_endpoint _ ep _ _).
  destruct (store_endpoint_fields (default [] (group r 2)) ep (group r 3)
              (read_contentType (read_origin E c)))
    as (Hh3 & _ & _ & Hc3 & _ & _ & Hf3 & He3 & Hp3 & Hq3 & _).
  fold c3 in Hh3, Hc3, Hf3, He3, Hp3, Hq3.
  assert (G3 : gated E c3).
  { split; [|split].
    - intros H. congruence.
    - intros H. congruence.
    - intros ep' Hep'. rewrite He3 in Hep'. injection Hep' as <-.
      split; [congruence|]. split; [congruence|].
      exists (default [] (group r 1)), (default [] (group r 2)).
      rewrite Hh3, Hh2, Hq3. auto. }
  assert (Hf3' : headerFinished c3 = true) by congruence.
  assert (Hne : endpoint_ c3 = None -> False) by (rewrite He3; done).
  repeat case_match.
  - eapply gated_same_request; [exact Hf3'|apply requestFinished_same_request| |exact G3].
    intros; by rewrite requestFinished_calls.
  - eapply gated_same_request; [exact Hf3'|apply processEndpoint_same_request| |exact G3].
    intros H'. by destruct (Hne H').
  - set (c4 := set_bodyLength _ c3).
    assert (G4 : gated E c4).
    { apply (gated_fields c3); try exact G3; try exact Hf3';
        try (unfold c4; by destruct c3). }
    assert (Hf4 : headerFinished c4 = true) by (unfold c4; by destruct c3).
    eapply gated_same_request; [exact Hf4|apply bodyData_same_request| |exact G4].
    intros H'. exfalso. apply Hne. revert H'. unfold c4. by destruct c3.
  - eapply gated_same_request; [exact Hf3'|apply requestFinished_same_request| |exact G3].
    intros; by rewrite respond_calls.
  - eapply gated_same_request; [exact Hf3'|apply requestFinished_same_request| |exact G3].
    intros; by rewrite respond_calls.
Qed.

Lemma gated_observed c c' :
  header c' = header c -> headerFinished c' = headerFinished c ->
  pathname c' = pathname c -> endpoint_ c' = endpoint_ c ->
  query c' = query c -> responseSent c' = responseSent c ->
  oStream c' = oStream c -> calls c' = calls c -> pending c' = pending c ->
  rejections c' = rejections c ->
  gated E c -> gated E c'.
Proof.
  unfold gated. intros -> -> -> -> -> -> -> -> -> ->. done.
Qed.

Lemma unfinished_gated c c' :
  headerFinished c = false -> gated E c ->
  headerFinished c' = false -> endpoint_ c' = endpoint_ c ->
  responseSent c' = responseSent c -> oStream c' = oStream c ->
  calls c' = calls c -> pending c' = pending c ->
  rejections c' = rejections c ->
  gated E c'.
Proof.
  intros Hf (G1 & _ & _) Hf' He Hs Ho Hc Hp Hr.
  destruct (G1 Hf) as (? & ? & ? & ? & ? & ?).
  split; [|split].
  - intros _. repeat split; congruence.
  - congruence.
  - intros ep Hep. congruence.
Qed.

Lemma onDataAvailable_gated readData c :
  gated E c -> gated E (onDataAvailable E readData c).
Proof.
  intros G. unfold onDataAvailable. destruct (headerFinished c) eqn:Hf.
  - set (c1 := set_body _ c).
    assert (G1 : gated E c1).
    { apply (gated_observed c); try exact G; unfold c1; by destruct c. }
    assert (Hf1 : headerFinished c1 = true) by (unfold c1; by destruct c).
    eapply gated_same_request; [exact Hf1|apply bodyData_same_request| |exact G1].
    intros He. unfold bodyData. case_match; [|done].
    rewrite processEndpoint_no_endpoint; by destruct c1.
  - pose proof G as (G1 & _ & _). destruct (G1 Hf) as (He & _ & _ & Hc & _).
    cbv zeta. repeat case_match;
      first [ apply headerFinished_gated; by destruct c
            | eapply (unfinished_gated c); try exact G; by destruct c ].
Qed.

Lemma fire_gated i c : gated E c -> gated E (fire E i c).
Proof.
  intros G. destruct (headerFinished c) eqn:Hf.
  - eapply gated_same_request; [exact Hf|apply fire_same_request| |exact G].
    intros _. apply fire_calls.
  - pose proof G as (G1 & _ & _). destruct (G1 Hf) as (_ & _ & _ & _ & Hp & _).
    unfold fire. rewrite Hp. by rewrite lookup_nil.
Qed.

Lemma step_gated c ev : gated E c -> gated E (step E c ev).
Proof.
  intros G. destruct ev as [readData|i|]; simpl.
  - by apply onDataAvailable_gated.
  - by apply fire_gated.
  - apply (gated_observed c); try exact G; by destruct c.
Qed.

Lemma run_gated evs : gated E (run E evs).
Proof.
  unfold run. assert (G : gated E new_conn).
  { split; [|split]; [by intros _|by intros ?|by intros ? ?]. }
  revert G. generalize new_conn. induction evs as [|ev evs IH]; intros c G; simpl;
    [exact G|]. by apply IH, step_gated.
Qed.

(** Outside headless mode no handler is ever called on a connection
    whose header has no valid Host line. *)
Theorem no_handler_call_without_valid_host (evs : list event) :
  isServer E = false -> calls (run E evs) <> [] ->
  has_valid_host (header (run E evs)) = true.
Proof.
  intros HE Hc. destruct (run_gated evs) as (_ & G2 & G3).
  destruct (endpoint_ (run E evs)) as [ep|] eqn:Hep; [|by destruct (G2 Hc)].
  destruct (G3 ep eq_refl) as (_ & Hhost & _).
  unfold host_check_passes in Hhost. rewrite HE in Hhost. cbn [orb] in Hhost.
  apply bool_decide_eq_true in Hhost as [m Hm]. by eapply hostRe_sound.
Qed.

(** A handler is only ever called on a connection whose request line
    parses and names a registered path, the one whose endpoint was
    stored. *)
Theorem handler_call_only_for_registered_path (evs : list event) :
  calls (run E evs) <> [] ->
  exists method path ep,
    parse_request_line (header (run E evs))
    = Some (method, path, query (run E evs))
    /\ pathname (run E evs) = Some path
    /\ Endpoints E !! path = Some ep
    /\ endpoint_ (run E evs) = Some ep.
Proof.
  intros Hc. destruct (run_gated evs) as (_ & G2 & G3).
  destruct (endpoint_ (run E evs)) as [ep|] eqn:Hep; [|by destruct (G2 Hc)].
  destruct (G3 ep eq_refl) as (_ & _ & method & path & ? & ? & ?).
  by exists method, path, ep.
Qed.

(** Until the header is finished the connection does nothing that can
    be observed. *)
Theorem nothing_happens_before_header_finished (evs : list event) :
  headerFinished (run E evs) = false ->
  responseSent (run E evs) = false /\ oStream (run E evs) = []
  /\ calls (run E evs) = [] /\ pending (run E evs) = []
  /\ rejections (run E evs) = [] /\ endpoint_ (run E evs) = None.
Proof.
  intros Hf. destruct (run_gated evs) as (G1 & _).
  destruct (G1 Hf) as (? & ? & ? & ? & ? & ?). by repeat split.
Qed.
End Gate.

(** ** Handler calls *)

Section Calls.
Variable E : env.


Lemma quiet_debug c0 msg : preserves (fun s => calls s = calls c0) (debug msg).
Proof. by intros []. Qed.
Lemma quiet_reject c0 e : preserves (fun s => calls s = calls c0) (reject e).
Proof. by intros []. Qed.
Lemma quiet_set_pending c0 v :
  preserves (fun s => calls s = calls c0) (set_pending v).
Proof. by intros []. Qed.
Lemma quiet_send c0 r s :
  responseSent s = false -> calls s = calls c0 -> calls (send r s) = calls c0.
Proof. by destruct s. Qed.

Lemma quietM_of {A} (m : M A) :
  (forall c0, preservesM (fun s => calls s = calls c0) m) -> quietM m.
Proof. intros H s. by apply (H s). Qed.

Ltac quiet :=
  apply quietM_of; intros ?c0;
  repeat first
    [ apply preservesM_ret | apply preservesM_throw | apply preservesM_return
    | apply preservesM_this | apply preservesM_try
    | apply preservesM_decode_query
    | apply preservesM_send_result; [apply quiet_debug|apply quiet_send]
    | apply preservesM_run_callbacks;
        [apply quiet_debug|apply quiet_set_pending|apply quiet_send]
    | apply preservesM_bind; [|intros ?]
    | apply preservesM_fmap | apply preservesM_when
    | apply preservesM_act;
        first [ apply preserves_respond; [apply quiet_debug|apply quiet_send]
              | apply preserves_set_pending_with; apply quiet_set_pending ]
    | progress cbv zeta
    | case_match ].

Lemma catch_calls m c : calls (catch_ E m c) = calls (m c).2.
Proof.
  unfold catch_. destruct (m c) as [[a| |e] c']; try reflexivity.
  cbn [snd]. unfold requestFinished. destruct c'; cbn. by case_match.
Qed.

Section Once.
Context {A : Type}.
Variable D : invocation -> Prop.

Lemma calls_once_this (f : conn -> M A) s :
  calls_once D (f s) s -> calls_once D (this_ ≫= f) s.
Proof. intros H. exact H. Qed.

Lemma calls_once_bind {B} (m : M B) (f : B -> M A) s :
  quietM m ->
  (forall a s', m s = (Val a, s') -> calls_once D (f a) s') ->
  calls_once D (m ≫= f) s.
Proof.
  intros Hm Hf. specialize (Hm s). unfold calls_once, mbind, M_bind.
  destruct (m s) as [[a| |e] s'] eqn:Em; cbn [snd] in *; [|by left..].
  rewrite <- Hm. by apply Hf.
Qed.

Lemma calls_once_record i (k : M A) s :
  D i -> quietM k -> calls_once D (act (record_call i) ≫= fun _ => k) s.
Proof.
  intros Hi Hk. right. exists i. split; [|exact Hi].
  unfold mbind, M_bind, act. rewrite Hk. by destruct s.
Qed.
End Once.

Lemma processEndpoint_try_calls_once method postData c :
  calls_once
    (fun i => truthy postData && truthy (contentType c) = false ->
              call_data i = DNull)
    (processEndpoint_try E method postData) c.
Proof.
  unfold processEndpoint_try. apply calls_once_this.
  apply calls_once_bind; [quiet|]. intros ct s1 _.
  apply calls_once_bind; [quiet|]. intros endpoint s2 _.
  apply calls_once_bind; [quiet|]. intros _ s3 _.
  apply calls_once_bind; [quiet|]. intros _ s4 _.
  apply calls_once_bind; [quiet|]. intros decodedData s5 Hdec.
  assert (Hd : truthy postData && truthy (contentType c) = false ->
               decodedData = DNull).
  { intros Hc. rewrite Hc in Hdec. by injection Hdec as <- _. }
  clear Hdec. destruct (init endpoint) as [f|f|f]; cbv zeta.
  - apply calls_once_bind; [quiet|]. intros q s6 _.
    apply calls_once_record; [exact Hd|quiet].
  - apply calls_once_record; [exact Hd|quiet].
  - apply calls_once_bind; [quiet|]. intros q s6 _.
    apply calls_once_record; [exact Hd|quiet].
Qed.

(** One dispatch calls the handler at most once; and without a body, or
    without a content type, the handler is called with no data. *)
Theorem processEndpoint_calls_handler_once method postData c :
  let c' := processEndpoint E method postData c in
  calls c' = calls c
  \/ exists i, calls c' = calls c ++ [i]
               /\ (truthy postData && truthy (contentType c) = false ->
                   call_data i = DNull).
Proof.
  cbv zeta. unfold processEndpoint. rewrite catch_calls.
  apply processEndpoint_try_calls_once.
Qed.

(** An endpoint that lists its methods and does not list the method of
    the request answers 400; its handler is not called. *)
Theorem processEndpoint_method_not_supported method postData c ct ep :
  responseSent c = false ->
  endpoint_ c = Some ct -> construct ct = inr ep ->
  strs_truthy (supportedMethods ep) = true ->
  strs_lacks (supportedMethods ep) method = true ->
  answers E c (processEndpoint E method postData c) 400
    (Some (js "text/plain")) (Some (js "Endpoint does not support method" ++ [LF])).
Proof.
  intros Hs He Hct Ht Hl.
  unfold processEndpoint, catch_, processEndpoint_try.
  unfold mbind at 1. unfold M_bind at 1. cbn [this_].
  unfold mbind at 1. unfold M_bind at 1. rewrite He. cbn [try_ mret M_ret].
  unfold mbind at 1. unfold M_bind at 1. rewrite Hct. cbn [mret M_ret].
  unfold mbind at 1. unfold M_bind at 1. rewrite Ht, Hl. cbn [andb when].
  unfold mbind at 1. unfold M_bind at 1. cbn [act return_].
  by apply respond_answers.
Qed.

(** A request that comes from a bookmarklet origin, to an endpoint that
    supports the method but does not permit bookmarklets, answers 403;
    the handler is not called. *)
Theorem processEndpoint_bookmarklet_forbidden method postData c ct ep :
  responseSent c = false ->
  endpoint_ c = Some ct -> construct ct = inr ep ->
  strs_truthy (supportedMethods ep) && strs_lacks (supportedMethods ep) method
  = false ->
  origin c = Some (js "https://www.zotero.org")
  \/ origin c = Some (js "http://www.zotero.org") ->
  permitBookmarklet ep = false ->
  answers E c (processEndpoint E method postData c) 403
    (Some (js "text/plain")) (Some (js "Access forbidden to bookmarklet" ++ [LF])).
Proof.
  intros Hs He Hct Hm Ho Hp.
  unfold processEndpoint, catch_, processEndpoint_try.
  unfold mbind at 1. unfold M_bind at 1. cbn [this_].
  unfold mbind at 1. unfold M_bind at 1. rewrite He. cbn [try_ mret M_ret].
  unfold mbind at 1. unfold M_bind at 1. rewrite Hct. cbn [mret M_ret].
  unfold mbind at 1. unfold M_bind at 1. rewrite Hm. cbn [when mret M_ret].
  unfold mbind at 1. unfold M_bind at 1.
  assert (truthy (origin c) = true) as -> by (by destruct Ho as [-> | ->]).
  assert (bool_decide (origin c = Some (js "https://www.zotero.org"))
          || bool_decide (origin c = Some (js "http://www.zotero.org")) = true) as ->.
  { destruct Ho as [-> | ->]; [reflexivity|].
    apply orb_true_iff. right. by apply bool_decide_eq_true_2. }
  rewrite Hp. cbn [negb andb when].
  unfold mbind at 1. unfold M_bind at 1. cbn [act return_].
  by apply respond_answers.
Qed.
End Calls.

(** *** The invariants of a connection, at a sample run *)

Lemma request_never_changes_after_header_witness :
  same_request (run sample_env [Data post_echo])
    (run sample_env ([Data post_echo] ++ [Data (js "more"); Fire 0; Stop])).
Proof.
  apply (request_never_changes_after_header sample_env [Data post_echo]).
  vm_compute. reflexivity.
Defined.

Lemma no_handler_call_without_valid_host_witness :
  has_valid_host (header (run sample_env [Data get_echo])) = true.
Proof.
  apply (no_handler_call_without_valid_host sample_env [Data get_echo]).
  - vm_compute. reflexivity.
  - vm_compute. discriminate.
Defined.

Lemma handler_call_only_for_registered_path_witness :
  exists method path ep,
    parse_request_line (header (run sample_env [Data get_echo]))
    = Some (method, path, query (run sample_env [Data get_echo]))
    /\ pathname (run sample_env [Data get_echo]) = Some path
    /\ Endpoints sample_env !! path = Some ep
    /\ endpoint_ (run sample_env [Data get_echo]) = Some ep.
Proof.
  apply (handler_call_only_for_registered_path sample_env [Data get_echo]).
  vm_compute. discriminate.
Defined.

Lemma nothing_happens_before_header_finished_witness :
  let c := run sample_env [Data (js "GET /echo HTTP/1.0"); Fire 0; Data CRLF] in
  responseSent c = false /\ oStream c = [] /\ calls c = [] /\ pending c = []
  /\ rejections c = [] /\ endpoint_ c = None.
Proof.
  apply (nothing_happens_before_header_finished sample_env
           [Data (js "GET /echo HTTP/1.0"); Fire 0; Data CRLF]).
  vm_compute. reflexivity.
Defined.

(** A response closes the input stream: on every connection, once the
    response-sent flag is raised the input stream is closed. *)
Theorem response_closes_input_stream (E : env) (evs : list event) :
  responseSent (run E evs) = true -> iStream_closed (run E evs) = true.
Proof. apply steps_closed. discriminate. Qed.

Lemma response_closes_input_stream_witness :
  iStream_closed (run sample_env [Data get_echo]) = true.
Proof.
  apply (response_closes_input_stream sample_env [Data get_echo]).
  vm_compute. reflexivity.
Defined.

Lemma processEndpoint_method_not_supported_witness :
  let c := set_endpoint (Some {| construct := inr post_only |}) new_conn in
  answers sample_env c (processEndpoint sample_env (js "GET") None c) 400
    (Some (js "text/plain")) (Some (js "Endpoint does not support method" ++ [LF])).
Proof.
  apply (processEndpoint_method_not_supported sample_env (js "GET") None
           (set_endpoint (Some {| construct := inr post_only |}) new_conn)
           {| construct := inr post_only |} post_only); vm_compute; reflexivity.
Defined.

Lemma processEndpoint_bookmarklet_forbidden_witness :
  let c := set_origin (Some (js "http://www.zotero.org"))
             (set_endpoint (Some {| construct := inr echo |}) new_conn) in
  answers sample_env c (processEndpoint sample_env (js "GET") None c) 403
    (Some (js "text/plain")) (Some (js "Access forbidden to bookmarklet" ++ [LF])).
Proof.
  apply (processEndpoint_bookmarklet_forbidden sample_env (js "GET") None
           (set_origin (Some (js "http://www.zotero.org"))
              (set_endpoint (Some {| construct := inr echo |}) new_conn))
           {| construct := inr echo |} echo); try (vm_compute; reflexivity).
  right. reflexivity.
Defined.

(** ** The decoders *)

(** *** Slices and searches *)

Lemma is_prefix_split p : forall s,
  is_prefix p s = true -> s = p ++ drop (length p) s.
Proof.
  induction p as [|a p IH]; intros [|b s]; simpl; try done.
  intros [->%N.eqb_eq H]%andb_true_iff. f_equal. by apply IH.
Qed.

Lemma find_sub_split p : forall s i,
  find_sub p s = Some i -> s = take i s ++ p ++ drop (i + length p) s.
Proof.
  induction s as [|c s IH]; intros i; cbn [find_sub].
  - destruct (is_prefix p []) eqn:E; [|done]. intros [= <-].
    by apply is_prefix_split in E.
  - destruct (is_prefix p (c :: s)) eqn:E.
    + intros [= <-]. by apply is_prefix_split in E.
    + destruct (find_sub p s) as [j|]; [|done]. intros [= <-].
      simpl. f_equal. by apply IH.
Qed.

Lemma slice_prefix {A} (s : list A) i :
  0 <= i <= Z.of_nat (length s) -> slice s 0 (Some i) = take (Z.to_nat i) s.
Proof.
  intros H. unfold slice. cbv zeta.
  destruct (Z.ltb_spec 0 0); [lia|]. destruct (Z.ltb_spec i 0); [lia|].
  rewrite !Z.min_l by lia. rewrite Z.sub_0_r, Z.max_l by lia. by rewrite drop_0.
Qed.

Lemma slice_suffix {A} (s : list A) i :
  0 <= i -> slice s i None = drop (Z.to_nat i) s.
Proof.
  intros H. unfold slice. cbv zeta. destruct (Z.ltb_spec i 0); [lia|].
  destruct (Z.le_gt_cases i (Z.of_nat (length s))).
  - rewrite Z.min_l by lia. rewrite take_ge; [done|].
    rewrite length_drop. lia.
  - rewrite Z.min_r by lia. rewrite Nat2Z.id.
    rewrite !drop_ge by lia. by rewrite take_nil.
Qed.

(** *** The multipart decoder *)

Lemma property_key_length c :
  length (property_key c) = 1%nat \/ property_key c = js "undefined".
Proof. destruct c; [by left|by right]. Qed.

Lemma store_nameVals_other k nvs : forall d,
  length k <> 1%nat -> k <> js "undefined" ->
  foldl store_nameVal d nvs !! k = d !! k.
Proof.
  induction nvs as [|nv nvs IH]; intros d Hk1 Hk2; simpl; [done|].
  rewrite IH by done. unfold store_nameVal. apply lookup_insert_ne.
  intros <-. destruct (property_key_length (charAt nv 0)); congruence.
Qed.

(** A decoded field keeps its header block and its body apart from the
    attributes, and the two, with the blank line between them, are the
    trimmed segment. *)
Lemma decode_field_parts (field : jsstring) (d : gmap jsstring fval) :
  decode_field field = Some d ->
  exists h b,
    d !! js "header" = Some (FStr h) /\ d !! js "body" = Some (FStr b)
    /\ (trim field = h ++ CRLF ++ CRLF ++ b \/ trim field = h ++ [LF; LF] ++ b).
Proof.
  unfold decode_field. cbv zeta. set (f := trim field).
  assert (Hd : forall h b (d0 : gmap jsstring fval),
    d0 = match exec true contentDispositionRe h with
         | Some m => foldl store_nameVal (<[js "body" := FStr b]> (<[js "header" := FStr h]> ∅))
                       (split_str (default [] (group m 1)) (js ";"))
         | None => <[js "body" := FStr b]> (<[js "header" := FStr h]> ∅)
         end ->
    d0 !! js "header" = Some (FStr h) /\ d0 !! js "body" = Some (FStr b)).
  { intros h b d0 ->. destruct (exec true contentDispositionRe h);
      rewrite ?store_nameVals_other by done.
    all: split; [rewrite lookup_insert_ne by done|]; apply lookup_insert_eq. }
  unfold indexOf.
  destruct (_ && _) eqn:Hc.
  - destruct (find_sub [LF; LF] f) as [u|] eqn:Eu;
      [|by rewrite andb_false_r in Hc].
    cbn [mbind option_bind fst snd]. intros [= Hd0]. symmetry in Hd0.
    apply Hd in Hd0 as [? ?]. do 2 eexists. split; [eassumption|]. split; [eassumption|].
    right. apply find_sub_split in Eu.
    pose proof (f_equal length Eu) as Hl. rewrite !length_app, length_take in Hl. cbn [length app] in Hl;
      try change (length CRLF) with 2%nat in Hl.
    rewrite slice_prefix, slice_suffix by lia.
    rewrite Nat2Z.id. replace (Z.to_nat (Z.of_nat u + 2)) with (u + 2)%nat by lia.
    exact Eu.
  - destruct (find_sub (CRLF ++ CRLF) f) as [w|] eqn:Ew; [|discriminate].
    destruct (negb (Z.of_nat w =? -1)); [|discriminate].
    cbn [mbind option_bind fst snd]. intros [= Hd0]. symmetry in Hd0.
    apply Hd in Hd0 as [? ?]. do 2 eexists. split; [eassumption|]. split; [eassumption|].
    left. apply find_sub_split in Ew.
    pose proof (f_equal length Ew) as Hl. rewrite !length_app, length_take in Hl. cbn [length app] in Hl;
      try change (length CRLF) with 2%nat in Hl.
    rewrite slice_prefix, slice_suffix by lia.
    rewrite Nat2Z.id. replace (Z.to_nat (Z.of_nat w + 4)) with (w + 4)%nat by lia.
    change (length (CRLF ++ CRLF)) with 4%nat in Ew.
    rewrite <- (app_assoc CRLF CRLF) in Ew. exact Ew.
Qed.

Lemma find_sub_None_cons p c s :
  find_sub p (c :: s) = None -> is_prefix p (c :: s) = false /\ find_sub p s = None.
Proof.
  cbn [find_sub]. destruct (is_prefix p (c :: s)); [done|].
  by destruct (find_sub p s).
Qed.

Lemma split_go_absent sep : forall s cur,
  find_sub sep s = None -> split_go sep s cur 0 = [rev cur ++ s].
Proof.
  induction s as [|c s IH]; intros cur H; cbn [split_go].
  - by rewrite app_nil_r.
  - apply find_sub_None_cons in H as [-> H]. rewrite IH by done.
    cbn [rev]. by rewrite <- app_assoc.
Qed.

Lemma split_str_absent s sep :
  find_sub sep s = None -> split_str s sep = [s].
Proof.
  intros H. destruct sep as [|a sep].
  - by destruct s.
  - unfold split_str. by rewrite split_go_absent.
Qed.

Lemma length_inner {A} (l : list A) :
  length (slice l 1 (Some (Z.of_nat (length l) - 1))) = (length l - 2)%nat.
Proof.
  unfold slice. cbv zeta. rewrite length_take, length_drop.
  destruct (Z.ltb_spec (Z.of_nat (length l) - 1) 0);
    destruct (Z.ltb_spec 1 0); lia.
Qed.

(** Data that does not hold the boundary decodes to no field at all,
    and not to an error. *)
Theorem decodeMultipartData_without_boundary (data boundary : jsstring) :
  find_sub boundary data = None -> decodeMultipartData data boundary = Some [].
Proof.
  intros H. unfold decodeMultipartData. cbv zeta.
  by rewrite split_str_absent.
Qed.

(** The decoder gives one field for each piece between two boundaries,
    in order; what comes before the first boundary and after the last is
    dropped without being looked at.  Each field holds its header block
    and its body, which with the blank line between them are the trimmed
    piece. *)
Theorem decodeMultipartData_fields (data boundary : jsstring)
    (fields : list (gmap jsstring fval)) :
  decodeMultipartData data boundary = Some fields ->
  Forall2 (fun piece d => exists h b,
             d !! js "header" = Some (FStr h) /\ d !! js "body" = Some (FStr b)
             /\ (trim piece = h ++ CRLF ++ CRLF ++ b \/ trim piece = h ++ [LF; LF] ++ b))
          (slice (split_str data boundary) 1
             (Some (Z.of_nat (length (split_str data boundary)) - 1)))
          fields
  /\ length fields = (length (split_str data boundary) - 2)%nat.
Proof.
  unfold decodeMultipartData. cbv zeta. intros H.
  split.
  - apply mapM_Some_1 in H. eapply Forall2_impl; [exact H|].
    intros piece d. apply decode_field_parts.
  - apply length_mapM in H. by rewrite <- H, length_inner.
Qed.

(** The decoder throws exactly when one of the pieces between two
    boundaries, trimmed, has no CR LF CR LF in it. *)
Theorem decodeMultipartData_fails_iff (data boundary : jsstring) :
  decodeMultipartData data boundary = None
  <-> exists field,
        field ∈ slice (split_str data boundary) 1
                  (Some (Z.of_nat (length (split_str data boundary)) - 1))
        /\ find_sub (CRLF ++ CRLF) (trim field) = None.
Proof.
  unfold decodeMultipartData. cbv zeta. rewrite mapM_None, Exists_exists.
  apply exist_proper. intros field. apply and_iff_compat_l.
  rewrite decode_field_fails_iff. unfold indexOf.
  destruct (find_sub _ _); split; (done || lia).
Qed.

(** *** Query strings *)

Lemma decode_variable_pair d variable :
  decode_variable d variable = (fun kv => <[kv.1 := kv.2]> d) <$> decode_pair variable.
Proof.
  unfold decode_variable, decode_pair. cbv zeta.
  by destruct (decodeURIComponent _), (decodeURIComponent _).
Qed.

Lemma decode_variables_pairs l : forall d,
  decode_variables (Some d) l
  = (fun pairs => foldl (fun d kv => <[kv.1 := kv.2]> d) d pairs) <$> mapM decode_pair l.
Proof.
  induction l as [|v l IH]; intros d; [done|].
  unfold decode_variables in *. cbn [foldl mbind option_bind].
  rewrite decode_variable_pair. cbn [mapM].
  destruct (decode_pair v) as [kv|]; cbn.
  - rewrite IH. by destruct (mapM decode_pair l).
  - apply decode_variables_None.
Qed.

Lemma foldl_insert_pairs (pairs : list (jsstring * jsstring)) :
  foldl (fun d kv => <[kv.1 := kv.2]> d) (∅ : gmap jsstring jsstring) pairs
  = list_to_map (rev pairs).
Proof.
  induction pairs as [|kv pairs IH] using rev_ind; [done|].
  rewrite foldl_app, rev_app_distr. cbn. by rewrite IH.
Qed.


Lemma split_go_nonempty sep : forall s cur skip, split_go sep s cur skip <> [].
Proof.
  induction s as [|c s IH]; intros cur skip; cbn [split_go]; [done|].
  destruct skip; [|apply IH]. destruct (is_prefix _ _); [done|apply IH].
Qed.


Lemma plain_not_elem stop s c : plain stop s = true -> c ∈ stop -> c ∉ s.
Proof.
  unfold plain. rewrite forallb_forall. intros H Hc Hs.
  apply list_elem_of_In, H in Hs. unfold none_of in Hs.
  by rewrite bool_decide_eq_true_2 in Hs.
Qed.

Lemma uri_tokens_plain s :
  37%N ∉ s -> uri_tokens s = Some (TChar <$> s).
Proof.
  induction s as [|c s IH]; [done|]. intros H.
  apply not_elem_of_cons in H as [Hc H]. cbn [uri_tokens].
  destruct (N.eqb_spec c 37); [congruence|]. by rewrite IH.
Qed.

Lemma uri_decode_chars s : uri_decode (TChar <$> s) = Some s.
Proof. induction s as [|c s IH]; [done|]. cbn. by rewrite IH. Qed.

Lemma decodeURIComponent_plain s :
  37%N ∉ s -> decodeURIComponent s = Some s.
Proof.
  intros H. unfold decodeURIComponent. rewrite uri_tokens_plain by done.
  apply uri_decode_chars.
Qed.

Lemma find_sub_char a : forall s rest,
  a ∉ s -> find_sub [a] (s ++ a :: rest) = Some (length s).
Proof.
  induction s as [|c s IH]; intros rest H.
  - cbn. rewrite N.eqb_refl. by destruct rest.
  - apply not_elem_of_cons in H as [Hc H].
    cbn [app find_sub is_prefix]. destruct (N.eqb_spec a c); [congruence|].
    cbn [andb]. by rewrite IH.
Qed.

Lemma find_sub_char_absent a : forall s, a ∉ s -> find_sub [a] s = None.
Proof.
  induction s as [|c s IH]; intros H; [done|].
  apply not_elem_of_cons in H as [Hc H].
  cbn [find_sub is_prefix]. destruct (N.eqb_spec a c); [congruence|].
  cbn [andb]. by rewrite IH.
Qed.

Lemma split_go_char a : forall s cur rest,
  a ∉ s ->
  split_go [a] (s ++ a :: rest) cur 0 = (rev cur ++ s) :: split_go [a] rest [] 0.
Proof.
  induction s as [|c s IH]; intros cur rest H.
  - cbn [app split_go is_prefix]. rewrite N.eqb_refl.
    replace (match rest with [] => true | _ :: _ => true end) with true
      by by destruct rest.
    cbn [andb length Nat.sub]. by rewrite app_nil_r.
  - apply not_elem_of_cons in H as [Hc H].
    cbn [app split_go is_prefix]. destruct (N.eqb_spec a c); [congruence|].
    cbn [andb]. rewrite IH by done. cbn [rev]. by rewrite <- app_assoc.
Qed.

Lemma split_join_char a ls :
  ls <> [] -> Forall (fun l => a ∉ l) ls ->
  split_str (join_with [a] ls) [a] = ls.
Proof.
  unfold split_str.
  induction ls as [|l ls IH]; [done|]. intros _ Hall.
  apply Forall_cons in Hall as [Hl Hall].
  destruct ls as [|l' ls].
  - cbn [join_with]. rewrite split_go_absent by by apply find_sub_char_absent.
    done.
  - change (join_with [a] (l :: l' :: ls)) with (l ++ a :: join_with [a] (l' :: ls)).
    rewrite split_go_char by done. by rewrite IH.
Qed.

Lemma decode_pair_plain k v :
  plain (js "%&=") k = true -> plain (js "%&") v = true ->
  decode_pair (encode_pair (k, v)) = Some (k, v).
Proof.
  intros Hk Hv. unfold decode_pair, encode_pair, indexOf. cbv zeta. cbn [fst snd].
  change (js "=") with [61%N]. change ([61%N] ++ v) with (61%N :: v).
  rewrite find_sub_char by (eapply plain_not_elem; [exact Hk|by vm_compute; repeat constructor]).
  assert (Hsk : substr (k ++ 61%N :: v) 0 (Some (Z.of_nat (length k))) = k).
  { unfold substr, len. cbv zeta. rewrite length_app. cbn [length].
    destruct (Z.ltb_spec 0 0); [lia|].
    rewrite Z.max_l, Z.min_l by lia.
    destruct (Z.leb_spec (Z.of_nat (length k)) 0).
    - destruct k; [done|simpl in *; lia].
    - rewrite Nat2Z.id. change (Z.to_nat 0) with 0%nat.
      by rewrite drop_0, take_app_length. }
  assert (Hsv : substr (k ++ 61%N :: v) (Z.of_nat (length k) + 1) None = v).
  { unfold substr, len. cbv zeta. rewrite length_app. cbn [length].
    destruct (Z.ltb_spec (Z.of_nat (length k) + 1) 0); [lia|].
    replace (Z.to_nat (Z.of_nat (length k) + 1)) with (length k + 1)%nat by lia.
    rewrite <- drop_drop, drop_app_length. cbn [drop].
    destruct (Z.leb_spec (Z.of_nat (length k + S (length v)) - (Z.of_nat (length k) + 1)) 0).
    - destruct v; [done|simpl in *; lia].
    - apply take_ge. lia. }
  rewrite Hsk, Hsv.
  rewrite !decodeURIComponent_plain; [done| |].
  - eapply plain_not_elem; [exact Hk|by vm_compute; repeat constructor].
  - eapply plain_not_elem; [exact Hv|by vm_compute; repeat constructor].
Qed.


(** ** Responses and chunks *)

(** *** The headers a client reads *)

Lemma client_parse_generateResponse E this status contentType body :
  single_line (version E) = true ->
  single_line (default [] (origin this)) = true ->
  single_line (default [] contentType) = true ->
  client_parse (generateResponse E this status contentType body)
  = Some (status, header_lines E this contentType body,
          if truthy body then default [] body else []).
Proof.
  intros Hv Ho Hc.
  rewrite generateResponse_lines.
  set (ls := status_line status :: header_lines E this contentType body).
  set (b := if truthy body then default [] body else []).
  assert (Hls : Forall (fun l => l <> [] /\ single_line l = true) ls).
  { apply Forall_cons. split; [apply status_line_wf|by apply header_lines_wf]. }
  unfold client_parse.
  rewrite find_blank_lines by done. cbn [mbind option_bind].
  rewrite unlines_joined by done. rewrite <- app_assoc.
  rewrite take_app_length.
  rewrite split_joined; [|done|eapply Forall_impl; [exact Hls|by intros ? [_ ?]]].
  unfold ls at 1. rewrite parse_status_line_status. cbn [mbind option_bind].
  do 3 f_equal.
  rewrite drop_app_add'; [|reflexivity]. reflexivity.
Qed.

(** A response names an allowed origin exactly when the server runs
    inside the client and the request came from one of the two
    bookmarklet origins; the origin it names is then the one of the
    request, and no other origin is ever echoed. *)
Theorem response_allows_bookmarklet_origin_only (E : env) (this : conn)
    (status : Z) (contentType body : option jsstring) :
  single_line (version E) = true ->
  single_line (default [] (origin this)) = true ->
  single_line (default [] contentType) = true ->
  exists headers rest,
    client_parse (generateResponse E this status contentType body)
    = Some (status, headers, rest)
    /\ ((exists l, l ∈ headers
                   /\ is_prefix (js "Access-Control-Allow-Origin:") l = true)
        <-> isServer E = false
            /\ (origin this = Some (BOOKMARKLET_ORIGIN E)
                \/ origin this = Some (HTTP_BOOKMARKLET_ORIGIN E)))
    /\ (forall o, js "Access-Control-Allow-Origin: " ++ o ∈ headers ->
                  origin this = Some o).
Proof.
  intros Hv Ho Hc. do 2 eexists. split; [by apply client_parse_generateResponse|].
  unfold header_lines.
  set (cond := bool_decide (origin this = Some (BOOKMARKLET_ORIGIN E))
               || bool_decide (origin this = Some (HTTP_BOOKMARKLET_ORIGIN E))).
  assert (Hor : cond = true
                <-> origin this = Some (BOOKMARKLET_ORIGIN E)
                    \/ origin this = Some (HTTP_BOOKMARKLET_ORIGIN E)).
  { unfold cond. by rewrite orb_true_iff, !bool_decide_eq_true. }
  set (tail := (if truthy contentType then _ else _) ++ _).
  assert (Htail : forall l, l ∈ tail ->
            is_prefix (js "Access-Control-Allow-Origin:") l = false).
  { intros l Hl. unfold tail in Hl.
    destruct (truthy contentType), (truthy body); cbn [app] in Hl;
      repeat (apply elem_of_cons in Hl as [-> | Hl]; [reflexivity|]);
      by apply elem_of_nil in Hl. }
  set (own := if negb (isServer E) then _ else _).
  assert (Hown : forall l, l ∈ own ->
            is_prefix (js "Access-Control-Allow-Origin:") l = true ->
            isServer E = false /\ cond = true
            /\ l = js "Access-Control-Allow-Origin: " ++ default [] (origin this)).
  { intros l Hl Hp. unfold own in Hl.
    destruct (isServer E); cbn [negb] in Hl; [by apply elem_of_nil in Hl|].
    destruct cond; cbn [app] in Hl;
      repeat (apply elem_of_cons in Hl as [-> | Hl];
              [first [done | by vm_compute in Hp]|]);
      by apply elem_of_nil in Hl. }
  split; [split|].
  - intros (l & Hl & Hp). apply elem_of_app in Hl as [Hl | Hl].
    + destruct (Hown l Hl Hp) as (? & ? & _). split; [done|by apply Hor].
    + apply Htail in Hl. congruence.
  - intros [HE Hx]. apply Hor in Hx.
    exists (js "Access-Control-Allow-Origin: " ++ default [] (origin this)).
    split; [|reflexivity].
    apply elem_of_app. left. unfold own. rewrite HE, Hx. cbn [negb app].
    do 2 right. left.
  - intros o Hl.
    assert (Hp : is_prefix (js "Access-Control-Allow-Origin:")
                   (js "Access-Control-Allow-Origin: " ++ o) = true) by reflexivity.
    apply elem_of_app in Hl as [Hl | Hl]; [|apply Htail in Hl; congruence].
    destruct (Hown _ Hl Hp) as (_ & Hx & Heq).
    apply app_inv_head in Heq. apply Hor in Hx.
    destruct Hx as [Hx | Hx]; rewrite Hx in Heq |- *; cbn in Heq; congruence.
Qed.

(** *** Reading the header *)

Lemma find_sub_prefix p s : is_prefix p s = true -> find_sub p s = Some 0%nat.
Proof. intros H. destruct s; cbn [find_sub]; by rewrite H. Qed.

Lemma is_prefix_elem p : forall s c, is_prefix p s = true -> c ∈ p -> c ∈ s.
Proof.
  induction p as [|a p IH]; intros [|b s] c; simpl; try done.
  - by intros _ ?%elem_of_nil.
  - intros [->%N.eqb_eq H]%andb_true_iff [-> | Hc]%elem_of_cons; [left|].
    right. by eapply IH.
Qed.

Lemma find_sub_absent p c : forall s, c ∈ p -> c ∉ s -> find_sub p s = None.
Proof.
  intros s Hp. induction s as [|b s IH]; intros Hs; cbn [find_sub].
  - destruct (is_prefix p []) eqn:E; [|done].
    by eapply is_prefix_elem in E.
  - destruct (is_prefix p (b :: s)) eqn:E.
    + by eapply is_prefix_elem in E.
    + apply not_elem_of_cons in Hs as [_ Hs]. by rewrite IH.
Qed.


Lemma steps_accumulate E chunks : forall c,
  headerFinished c = false -> LF ∉ header c ->
  Forall (fun chunk => LF ∉ chunk) chunks ->
  foldl (step E) c (Data <$> chunks) = set_header (header c ++ concat chunks) c.
Proof.
  induction chunks as [|chunk chunks IH]; intros c Hf Hh Hall.
  - cbn. rewrite app_nil_r. by destruct c.
  - apply Forall_cons in Hall as [Hc Hall]. cbn [fmap list_fmap foldl step].
    assert (Hstep : onDataAvailable E chunk c = set_header (header c ++ chunk) c).
    { unfold onDataAvailable. rewrite Hf. cbv zeta. unfold indexOf.
      rewrite (find_sub_absent (CRLF ++ CRLF) LF chunk) by
        (done || (do 1 right; left)).
      rewrite (find_sub_absent [LF; LF] LF chunk) by (done || left).
      cbn [Z.eqb negb].
      rewrite (bool_decide_eq_false_2 (last (header c) = Some LF)).
      - by rewrite andb_false_r.
      - intros Hl. apply Hh. apply last_Some in Hl as [l' ->].
        apply elem_of_app. right. left. }
    rewrite Hstep, IH.
    + destruct c; cbn. by rewrite <- app_assoc.
    + by destruct c.
    + destruct c; cbn in *. rewrite elem_of_app. tauto.
    + done.
Qed.

(** As long as the client sends no line feed, the server takes the
    request to be unfinished: it buffers every chunk in the header and
    does nothing else. *)
Theorem header_accumulates (E : env) (chunks : list jsstring) :
  Forall (fun chunk => LF ∉ chunk) chunks ->
  run E (Data <$> chunks) = set_header (concat chunks) new_conn.
Proof.
  intros H. unfold run. rewrite steps_accumulate; try done.
  apply not_elem_of_nil.
Qed.

(** ** Failures *)

(** *** Exceptions *)

Lemma steps_rejected_answered E evs : forall c,
  (rejections c <> [] -> responseSent c = true) ->
  rejections (foldl (step E) c evs) <> [] ->
  responseSent (foldl (step E) c evs) = true.
Proof.
  set (P := fun s => rejections s <> [] -> responseSent s = true).
  assert (Hobs : forall s s', same_observed s s' -> P s -> P s').
  { unfold P. intros s s' (-> & _ & _ & _ & _ & _ & _ & ->). done. }
  assert (Hd : forall msg, preserves P (debug msg)) by (intros ? []; done).
  assert (Hc : forall i, preserves P (record_call i)) by (intros ? []; done).
  assert (Hr : forall e s, responseSent s = true -> P s -> P (reject e s))
    by (intros ? [] ? ? ?; done).
  assert (Hp : forall v, preserves P (set_pending v)) by (intros ? []; done).
  assert (Hs : forall r s, responseSent s = false -> P s -> P (send r s))
    by (intros ? []; done).
  induction evs as [|ev evs IH]; intros c H; simpl; [exact H|].
  apply IH. destruct ev as [readData|i|]; simpl.
  - by apply (preserves_onDataAvailable E P).
  - by apply (preserves_fire E P).
  - destruct c; exact H.
Qed.

(** An exception in the dispatcher or in a handler never leaves the
    client without an answer: once the promise of a dispatch is rejected,
    a response has been sent on the connection. *)
Theorem exception_is_answered (E : env) (evs : list event) :
  rejections (run E evs) <> [] -> responseSent (run E evs) = true.
Proof. apply steps_rejected_answered. done. Qed.

(** *** What the dispatcher does with the data of a request *)

Section Decoding.
Variable E : env.
Variable method : jsstring.
Variable c : conn.
Variable ct : ctor.
Variable ep : endpoint.
Hypothesis not_sent : responseSent c = false.
Hypothesis has_endpoint : endpoint_ c = Some ct.
Hypothesis constructed : construct ct = inr ep.
Hypothesis method_supported :
  strs_truthy (supportedMethods ep) && strs_lacks (supportedMethods ep) method = false.
Hypothesis origin_permitted :
  origin c = Some (js "https://www.zotero.org")
  \/ origin c = Some (js "http://www.zotero.org") ->
  permitBookmarklet ep = true.

Lemma bookmarklet_check_passes :
  (bool_decide (origin c = Some (js "https://www.zotero.org"))
   || bool_decide (origin c = Some (js "http://www.zotero.org")))
  && negb (permitBookmarklet ep) = false.
Proof.
  destruct (bool_decide _ || bool_decide _) eqn:Hb; [|done].
  rewrite origin_permitted; [done|].
  by rewrite orb_true_iff, !bool_decide_eq_true in Hb.
Qed.

Local Ltac stepM := unfold mbind at 1; unfold M_bind at 1.

Local Ltac past_checks :=
  unfold processEndpoint, catch_, processEndpoint_try;
  stepM; cbn [this_];
  stepM; rewrite has_endpoint; cbn [try_ mret M_ret];
  stepM; rewrite constructed; cbn [mret M_ret];
  stepM; rewrite method_supported; cbn [when mret M_ret];
  stepM; cbv zeta; rewrite bookmarklet_check_passes;
  replace (when (truthy (origin c)) (when false _) c) with (Val tt, c)
    by (by destruct (truthy (origin c))).

Lemma fails_catch e :
  fails E c (reject e (requestFinished
                         (generateResponse E (debug (error_to_string e) c) 500 None None)
                         (debug (error_to_string e) c))) e.
Proof.
  unfold requestFinished.
  replace (responseSent (debug (error_to_string e) c)) with false
    by (by destruct c).
  unfold fails. destruct c; repeat split.
Qed.

(** A form body with a malformed escape is not answered 400: the
    [URIError] escapes to the [catch] block, the answer is the bare
    status 500, and the handler is not called. *)
Theorem processEndpoint_malformed_form_body (postData : jsstring) :
  postData <> [] ->
  contentType c = Some (js "application/x-www-form-urlencoded") ->
  strs_truthy (supportedDataTypes ep) && strs_not_star (supportedDataTypes ep)
    && strs_lacks (supportedDataTypes ep) (js "application/x-www-form-urlencoded")
  = false ->
  decodeQueryString postData = None ->
  fails E c (processEndpoint E method (Some postData) c) URIError.
Proof.
  intros Hp Hty Hsup Hq. past_checks.
  stepM.
  replace (truthy (Some postData)) with true by (by destruct postData).
  replace (truthy (contentType c)) with true by (by rewrite Hty).
  rewrite Hty. cbn [andb default from_option id]. cbv zeta.
  stepM. rewrite Hsup. cbn [when mret M_ret].
  rewrite bool_decide_eq_false_2 by done.
  rewrite bool_decide_eq_true_2 by done.
  rewrite Hq. unfold fmap, M_fmap. cbn [try_ throw].
  apply fails_catch.
Qed.
(** A multipart body is answered 400 when the header names no boundary,
    and when the decoder throws on the body cut at that boundary; the
    handler is not called. *)
Theorem processEndpoint_invalid_multipart (postData : jsstring) :
  postData <> [] ->
  contentType c = Some (js "multipart/form-data") ->
  strs_truthy (supportedDataTypes ep) && strs_not_star (supportedDataTypes ep)
    && strs_lacks (supportedDataTypes ep) (js "multipart/form-data")
  = false ->
  match exec true boundaryRe (header c) with
  | None => True
  | Some m => decodeMultipartData postData (js "--" ++ default [] (group m 1)) = None
  end ->
  answers E c (processEndpoint E method (Some postData) c) 400
    (Some (js "text/plain")) (Some (js "Invalid multipart/form-data provided" ++ [LF])).
Proof.
  intros Hp Hty Hsup Hb. past_checks.
  stepM.
  replace (truthy (Some postData)) with true by (by destruct postData).
  replace (truthy (contentType c)) with true by (by rewrite Hty).
  rewrite Hty. cbn [andb default from_option id]. cbv zeta.
  stepM. rewrite Hsup. cbn [when mret M_ret].
  rewrite !bool_decide_eq_false_2 by done.
  rewrite bool_decide_eq_true_2 by done.
  destruct (exec true boundaryRe (header c)) as [m|].
  - change (default [] (group m 1)) with (from_option id [] (group m 1)) in Hb.
    rewrite Hb. stepM. cbn [act return_]. by apply respond_answers.
  - stepM. cbn [act return_]. by apply respond_answers.
Qed.

(** A request without a body whose query string has a malformed escape
    is answered with the bare status 500 by an endpoint that is handed
    the query; the handler is not called. *)
Theorem processEndpoint_malformed_query_string (q : jsstring) :
  (forall f, init ep <> Init2 f) ->
  query c = Some q -> q <> [] ->
  decodeQueryString (substr q 1 None) = None ->
  fails E c (processEndpoint E method None c) URIError.
Proof.
  intros Hi Hq Hne Hd. past_checks.
  stepM. cbn [truthy andb mret M_ret].
  assert (Hdq : decode_query (query c) c = (Exn URIError, c)).
  { unfold decode_query. rewrite Hq.
    replace (truthy (Some q)) with true by (by destruct q).
    cbn [default from_option id]. by rewrite Hd. }
  destruct (init ep) as [f|f|f] eqn:Hinit; [| by destruct (Hi f) |].
  all: cbv zeta; stepM; rewrite Hdq; apply fails_catch.
Qed.
End Decoding.

(** ** The server socket *)

Section Lifecycle.
Variable H : platform.

Lemma registerOnlineObserver_once s :
  observers s = (if onlineObserverRegistered s then 1 else 0)%nat ->
  observers (registerOnlineObserver s) = 1%nat
  /\ onlineObserverRegistered (registerOnlineObserver s) = true.
Proof.
  unfold registerOnlineObserver. destruct s as [a [] c d l]; cbn; [done|].
  by intros ->.
Qed.

Lemma server_init_once w port bindAllAddr s :
  registered_once s ->
  registered_once (server_init H w port bindAllAddr s)
  /\ onlineObserverRegistered (server_init H w port bindAllAddr s) = true.
Proof.
  intros [Ho Hs]. unfold server_init.
  destruct (browserIsOffline w).
  { destruct s as [a [] c d l]; cbn in *; subst; repeat split; auto. }
  destruct (serv s) as [sock|] eqn:Es.
  { destruct s as [a [] c d l]; cbn in *; subst; repeat split; auto.
    all: by discriminate Hs. }
  destruct (bound w), (has_addShutdownListener H);
    destruct s as [a [] c d l]; cbn in *; subst; repeat split; auto.
Qed.

Lemma server_close_once s :
  registered_once s ->
  registered_once (server_close s)
  /\ onlineObserverRegistered (server_close s) = onlineObserverRegistered s.
Proof.
  intros [Ho Hs]. unfold server_close.
  destruct s as [[sock|] b c d l]; cbn in *; repeat split; auto.
Qed.

Lemma iter_once (f : server -> server) n : forall s,
  (forall s, registered_once s ->
     registered_once (f s)
     /\ (onlineObserverRegistered s = true -> onlineObserverRegistered (f s) = true)) ->
  registered_once s ->
  registered_once (Nat.iter n f s)
  /\ (onlineObserverRegistered s = true ->
      onlineObserverRegistered (Nat.iter n f s) = true).
Proof.
  intros s Hf Hs. induction n as [|n [IH1 IH2]]; cbn; [done|].
  destruct (Hf _ IH1) as [? ?]. split; auto.
Qed.

Lemma server_step_once s ev :
  registered_once s ->
  registered_once (server_step H s ev)
  /\ (onlineObserverRegistered s = true ->
      onlineObserverRegistered (server_step H s ev) = true)
  /\ (is_init ev = true -> onlineObserverRegistered (server_step H s ev) = true).
Proof.
  intros Hs. destruct ev as [w port b| |w data|]; cbn [server_step is_init].
  - destruct (server_init_once w port b s Hs) as [? ?].
    split; [done|split; intros _; done].
  - destruct (server_close_once s Hs) as [? Hc].
    split; [done|]. split; [by rewrite Hc|discriminate].
  - split; [|split; [|discriminate]]; case_bool_decide; try done.
    all: eapply (iter_once (server_init H w None false)); try done.
    all: intros s' Hs'; destruct (server_init_once w None false s' Hs'); by split.
  - split; [|split; [|discriminate]].
    all: eapply (iter_once server_close); try done.
    all: intros s' Hs'; destruct (server_close_once s' Hs') as [? Hc]; split;
      [done|by rewrite Hc].
Qed.

Lemma server_steps_once evs : forall s,
  registered_once s ->
  registered_once (foldl (server_step H) s evs)
  /\ (onlineObserverRegistered s = true \/ existsb is_init evs = true ->
      onlineObserverRegistered (foldl (server_step H) s evs) = true).
Proof.
  induction evs as [|ev evs IH]; intros s Hs; cbn [foldl existsb].
  - split; [done|]. by intros [? | ?].
  - destruct (server_step_once s ev Hs) as (H1 & H2 & H3).
    destruct (IH _ H1) as [IH1 IH2]. split; [done|].
    rewrite orb_true_iff. intros [? | [? | ?]]; apply IH2; auto.
Qed.

(** The observer of the network status is added to the observer service
    at most once, whatever is called and however often; and it has been
    added as soon as [init] has been called once, also when that call
    found the browser offline or could not bind the port. *)
Theorem online_observer_added_once (evs : list server_event) :
  (observers (server_run H evs) <= 1)%nat
  /\ (existsb is_init evs = true -> observers (server_run H evs) = 1%nat).
Proof.
  destruct (server_steps_once evs new_server) as [[Ho _] Hr]; [by split|].
  unfold server_run. rewrite Ho. split.
  - by destruct (onlineObserverRegistered _); lia.
  - intros Hi. by rewrite Hr by auto.
Qed.

Lemma server_init_loopback w port s :
  loopback s -> loopback (server_init H w port false s).
Proof.
  intros Hs sock. unfold server_init.
  destruct (browserIsOffline w).
  { destruct s as [a [] c d l]; cbn; apply Hs. }
  destruct (serv s) as [sock'|] eqn:Es.
  { destruct s as [a b c d l]; cbn in *. exact (Hs sock). }
  destruct (bound w), (has_addShutdownListener H);
    destruct s as [a [] c d l]; cbn; by intros [= <-].
Qed.

Lemma server_close_loopback s : loopback s -> loopback (server_close s).
Proof.
  intros Hs sock. unfold server_close.
  destruct s as [[sock'|] b c d l]; cbn; done.
Qed.

Lemma iter_loopback (f : server -> server) n s :
  (forall s, loopback s -> loopback (f s)) -> loopback s -> loopback (Nat.iter n f s).
Proof. intros Hf Hs. induction n; cbn; auto. Qed.

(** The server listens on the loopback address only, unless [init] has
    been called with [bindAllAddr]: the observer that starts it again
    when the network comes back never opens it to other hosts. *)
Theorem listens_on_loopback_unless_asked (evs : list server_event) (sock : socket) :
  forallb (fun ev => negb (binds_all ev)) evs = true ->
  serv (server_run H evs) = Some sock -> loopbackOnly sock = true.
Proof.
  intros Hall. revert sock. change (loopback (server_run H evs)).
  unfold server_run.
  assert (Hs : loopback new_server) by (by intros ?).
  revert Hs. generalize new_server.
  induction evs as [|ev evs IH]; intros s Hs; cbn [foldl]; [done|].
  cbn [forallb] in Hall. apply andb_true_iff in Hall as [Hev Hall].
  apply IH; [done|].
  destruct ev as [w port b| |w data|]; cbn [server_step binds_all] in *.
  - apply negb_true_iff in Hev as ->. by apply server_init_loopback.
  - by apply server_close_loopback.
  - case_bool_decide; [|done]. apply iter_loopback; [|done].
    intros ?. apply server_init_loopback.
  - apply iter_loopback; [|done]. apply server_close_loopback.
Qed.
End Lifecycle.

(** ** The properties at sample inputs *)

Lemma decodeMultipartData_without_boundary_witness :
  decodeMultipartData two_fields (js "--ABC") = Some [].
Proof.
  apply (decodeMultipartData_without_boundary two_fields (js "--ABC")).
  vm_compute. reflexivity.
Defined.

Lemma decodeMultipartData_fields_witness :
  let fields := default [] (decodeMultipartData two_fields (js "--XYZ")) in
  Forall2 (fun piece d => exists h b,
             d !! js "header" = Some (FStr h) /\ d !! js "body" = Some (FStr b)
             /\ (trim piece = h ++ CRLF ++ CRLF ++ b \/ trim piece = h ++ [LF; LF] ++ b))
          (slice (split_str two_fields (js "--XYZ")) 1
             (Some (Z.of_nat (length (split_str two_fields (js "--XYZ"))) - 1)))
          fields
  /\ length fields = (length (split_str two_fields (js "--XYZ")) - 2)%nat.
Proof.
  apply (decodeMultipartData_fields two_fields (js "--XYZ")
           (default [] (decodeMultipartData two_fields (js "--XYZ")))).
  vm_compute. reflexivity.
Defined.



Lemma response_allows_bookmarklet_origin_only_witness :
  let this := set_origin (Some (js "https://www.zotero.org")) new_conn in
  exists headers rest,
    client_parse (generateResponse sample_env this 200 None None)
    = Some (200, headers, rest)
    /\ ((exists l, l ∈ headers
                   /\ is_prefix (js "Access-Control-Allow-Origin:") l = true)
        <-> isServer sample_env = false
            /\ (origin this = Some (BOOKMARKLET_ORIGIN sample_env)
                \/ origin this = Some (HTTP_BOOKMARKLET_ORIGIN sample_env)))
    /\ (forall o, js "Access-Control-Allow-Origin: " ++ o ∈ headers ->
                  origin this = Some o).
Proof.
  apply (response_allows_bookmarklet_origin_only sample_env
           (set_origin (Some (js "https://www.zotero.org")) new_conn) 200 None None);
    vm_compute; reflexivity.
Defined.


Lemma header_accumulates_witness :
  run sample_env (Data <$> [js "GET /echo HT"; js "TP/1.0" ++ [CR]])
  = set_header (concat [js "GET /echo HT"; js "TP/1.0" ++ [CR]]) new_conn.
Proof.
  apply (header_accumulates sample_env [js "GET /echo HT"; js "TP/1.0" ++ [CR]]).
  repeat constructor; intros H; vm_compute in H;
    repeat (apply elem_of_cons in H as [H | H]; [discriminate H|]);
    by apply elem_of_nil in H.
Defined.

Lemma exception_is_answered_witness :
  responseSent (run sample_env [Data get_fail]) = true.
Proof.
  apply (exception_is_answered sample_env [Data get_fail]).
  vm_compute. discriminate.
Defined.

Lemma processEndpoint_malformed_form_body_witness :
  let c := set_contentType (Some (js "application/x-www-form-urlencoded"))
             (set_endpoint (Some {| construct := inr echo |}) new_conn) in
  fails sample_env c (processEndpoint sample_env (js "POST") (Some (js "a=%")) c) URIError.
Proof.
  apply (processEndpoint_malformed_form_body sample_env (js "POST")
           (set_contentType (Some (js "application/x-www-form-urlencoded"))
              (set_endpoint (Some {| construct := inr echo |}) new_conn))
           {| construct := inr echo |} echo);
    try (vm_compute; reflexivity).
  - intros [H | H]; discriminate H.
  - discriminate.
Defined.

Lemma processEndpoint_invalid_multipart_witness :
  let c := set_header (js "Content-Type: multipart/form-data; boundary=XYZ")
             (set_contentType (Some (js "multipart/form-data"))
                (set_endpoint (Some {| construct := inr echo |}) new_conn)) in
  answers sample_env c (processEndpoint sample_env (js "POST") (Some unix_field) c) 400
    (Some (js "text/plain")) (Some (js "Invalid multipart/form-data provided" ++ [LF])).
Proof.
  apply (processEndpoint_invalid_multipart sample_env (js "POST")
           (set_header (js "Content-Type: multipart/form-data; boundary=XYZ")
              (set_contentType (Some (js "multipart/form-data"))
                 (set_endpoint (Some {| construct := inr echo |}) new_conn)))
           {| construct := inr echo |} echo);
    try (vm_compute; reflexivity).
  - intros [H | H]; discriminate H.
  - discriminate.
Defined.

Lemma processEndpoint_malformed_query_string_witness :
  let c := set_query (Some (js "?a=%"))
             (set_endpoint (Some {| construct := inr echo |}) new_conn) in
  fails sample_env c (processEndpoint sample_env (js "GET") None c) URIError.
Proof.
  apply (processEndpoint_malformed_query_string sample_env (js "GET")
           (set_query (Some (js "?a=%"))
              (set_endpoint (Some {| construct := inr echo |}) new_conn))
           {| construct := inr echo |} echo) with (q := js "?a=%");
    try (vm_compute; reflexivity).
  - intros [H | H]; discriminate H.
  - intros f. discriminate.
  - discriminate.
Defined.

Lemma listens_on_loopback_unless_asked_witness :
  loopbackOnly {| requested := 23119; sock_port := 23119; loopbackOnly := true |} = true.
Proof.
  apply (listens_on_loopback_unless_asked
           {| httpServer_port := 23119; has_addShutdownListener := true |}
           [ CallInit {| browserIsOffline := true; bound := None |} (Some 1969) false;
             Notify {| browserIsOffline := false; bound := Some 23119 |} (js "online") ]
           {| requested := 23119; sock_port := 23119; loopbackOnly := true |});
    vm_compute; reflexivity.
Defined.
